(** * Full legalizer (analytical placement) and greedy clusterer of VPR

    A shallow embedding of
      - vpr/src/analytical_place/full_legalizer.cpp
        (APClusterPlacer, create_new_cluster, get_molecule_logical_block_type,
         is_root_tile, has_empty_primitive, BasicMinDisturbance, and the
         clustering loop of NaiveFullLegalizer::create_clusters)
      - vpr/src/pack/greedy_clusterer.cpp (GreedyClusterer::do_clustering)

    C++ [int] coordinates and sizes are modelled in [Z]: every value handled
    here is a grid coordinate, a radius or a capacity, far below 2^31.
    Mutable members and by-reference arguments become explicit state that
    each function takes and returns; [VPR_FATAL_ERROR] and a failed
    [VTR_ASSERT] become the [Fatal] result of an error monad. *)

From Stdlib Require Import List ZArith Lia Bool String Arith PeanoNat Sorted
  Permutation.
Import ListNotations.
Open Scope Z_scope.

(* ================================================================= *)
(** ** Identifiers and locations *)

Definition PackMoleculeId := nat.
Definition LegalizationClusterId := nat.
Definition ClusterBlockId := nat.
Definition LogicalModelId := nat.
Definition AtomBlockId := nat.
Definition APBlockId := nat.
Definition t_logical_block_type_ptr := nat.

(** [t_physical_tile_loc]: (x, y, layer_num). *)
Record t_physical_tile_loc := mk_tile_loc
  { tl_x : Z; tl_y : Z; tl_layer_num : Z }.

(** [t_pl_loc]: (x, y, sub_tile, layer), in the order of its constructor. *)
Record t_pl_loc := mk_pl_loc
  { pl_x : Z; pl_y : Z; pl_sub_tile : Z; pl_layer : Z }.

(** The part of [t_physical_tile_type] the legalizer reads. *)
Record t_physical_tile_type := mk_tile_type
  { tt_index : nat; capacity : Z; num_sub_tiles : nat }.

(** The part of [DeviceGrid] the legalizer reads. *)
Record DeviceGrid := mk_grid
  { width : Z;
    height : Z;
    get_physical_type : t_physical_tile_loc -> t_physical_tile_type;
    get_width_offset : t_physical_tile_loc -> Z;
    get_height_offset : t_physical_tile_loc -> Z }.

Definition tile_loc_eqb (a b : t_physical_tile_loc) : bool :=
  (tl_x a =? tl_x b) && (tl_y a =? tl_y b) && (tl_layer_num a =? tl_layer_num b).

Definition pl_loc_eqb (a b : t_pl_loc) : bool :=
  (pl_x a =? pl_x b) && (pl_y a =? pl_y b)
  && (pl_sub_tile a =? pl_sub_tile b) && (pl_layer a =? pl_layer b).

(* ================================================================= *)
(** ** Results *)

(** The fatal conditions raised by the modelled functions. *)
Inductive fatal :=
  | UnableToCreateCluster              (* create_new_cluster *)
  | CouldNotDetermineBlockType (mol : PackMoleculeId)
  | ClustersRemainUnplaced (n : nat)   (* "%zu clusters remain unplaced" *)
  | UnableToFindValidPlace             (* place_clusters *)
  | AssertionFailed (what : string).   (* VTR_ASSERT *)

Inductive result (A : Type) :=
  | Ok (a : A)
  | Fatal (e : fatal).
Arguments Ok {A} a.
Arguments Fatal {A} e.

Definition bind {A B} (r : result A) (k : A -> result B) : result B :=
  match r with
  | Ok a => k a
  | Fatal e => Fatal e
  end.

Notation "'do' x <- r ; k" := (bind r (fun x => k))
  (at level 10, x pattern, r at level 100, k at level 200).

Definition is_fatal {A} (r : result A) : bool :=
  match r with Ok _ => false | Fatal _ => true end.

(* ================================================================= *)
(** ** Small containers *)

(** [for (i = lo; i < lo + n; ++i)] as the list of the values of [i]. *)
Fixpoint zseq (lo : Z) (n : nat) : list Z :=
  match n with
  | O => []
  | S n' => lo :: zseq (lo + 1) n'
  end.

(** [for (i = lo; i <= hi; ++i)]. *)
Definition zrange (lo hi : Z) : list Z := zseq lo (Z.to_nat (hi - lo + 1)).

(** A loop left by [break]/[return] at the first iteration that yields. *)
Fixpoint find_first {A B} (f : A -> option B) (l : list A) : option B :=
  match l with
  | [] => None
  | a :: rest =>
      match f a with
      | Some b => Some b
      | None => find_first f rest
      end
  end.

(** [std::unordered_map<K, V>] as an association list; the iteration order
    of the C++ container is unspecified, the list fixes one. *)
Section AList.
Context {K V : Type} (eqb : K -> K -> bool).

Fixpoint alookup (k : K) (m : list (K * V)) : option V :=
  match m with
  | [] => None
  | (k', v) :: rest => if eqb k k' then Some v else alookup k rest
  end.

(** [m[k] = v]: replaces the value of a present key, appends a new one. *)
Fixpoint aset (k : K) (v : V) (m : list (K * V)) : list (K * V) :=
  match m with
  | [] => [(k, v)]
  | (k', v') :: rest =>
      if eqb k k' then (k, v) :: rest else (k', v') :: aset k v rest
  end.

Definition aerase (k : K) (m : list (K * V)) : list (K * V) :=
  filter (fun kv => negb (eqb k (fst kv))) m.

Definition acount (k : K) (m : list (K * V)) : bool :=
  match alookup k m with Some _ => true | None => false end.
End AList.

(** [m[k].push_back(v)] on a map to vectors: [operator[]] creates an empty
    vector for a missing key. *)
Definition apush {K V} (eqb : K -> K -> bool) (k : K) (v : V)
    (m : list (K * list V)) : list (K * list V) :=
  match alookup eqb k m with
  | Some vs => aset eqb k (vs ++ [v]) m
  | None => aset eqb k [v] m
  end.

(* ================================================================= *)
(** ** The placed-location table

    [loc_to_cluster_id_placed] is an [unordered_map<t_pl_loc,
    LegalizationClusterId>].  It is kept here as the list of its bindings,
    newest first: [operator[]=] pushes a binding, [find] returns the newest
    binding of a key (what the map holds after an overwrite) and [erase]
    drops every binding of the key.  A key written twice without an erase
    in between therefore shows as a duplicate key in the list. *)

Definition PlacedTable := list (t_pl_loc * LegalizationClusterId).

Definition tbl_find (loc : t_pl_loc) (tbl : PlacedTable)
    : option LegalizationClusterId :=
  alookup pl_loc_eqb loc tbl.

Definition tbl_count (loc : t_pl_loc) (tbl : PlacedTable) : bool :=
  acount pl_loc_eqb loc tbl.

Definition tbl_bind (loc : t_pl_loc) (id : LegalizationClusterId)
    (tbl : PlacedTable) : PlacedTable :=
  (loc, id) :: tbl.

Definition tbl_erase (loc : t_pl_loc) (tbl : PlacedTable) : PlacedTable :=
  aerase pl_loc_eqb loc tbl.

(** No key of the table is bound twice. *)
Definition table_wf (tbl : PlacedTable) : Prop := NoDup (map fst tbl).

(* ================================================================= *)
(** ** The cluster legalizer (the legality oracle)

    [ClusterLegalizer] is declared in cluster_legalizer.h; the legalizer
    and the clusterer only use it through the operations below.  Operations
    that change the legalizer return the new legalizer. *)

Inductive ClusterLegalizationStrategy := SKIP_INTRA_LB_ROUTE | FULL.

Inductive e_block_pack_status :=
  | BLK_PASSED
  | BLK_FAILED_FEASIBLE
  | BLK_FAILED_ROUTE
  | BLK_STATUS_UNDEFINED.

Definition is_passed (s : e_block_pack_status) : bool :=
  match s with BLK_PASSED => true | _ => false end.

Definition strategy_is_full (s : ClusterLegalizationStrategy) : bool :=
  match s with FULL => true | SKIP_INTRA_LB_ROUTE => false end.

(** [t_pb]: a node of the cluster's physical-block tree, with the fields
    [has_empty_primitive] reads: [pb_graph_node->pb_type->num_modes],
    [name] and [child_pbs] (indexed by child type, then by instance). *)
#[warnings="-register-all"]
Inductive t_pb :=
  | Pb (pb_num_modes : nat) (pb_name : option string)
       (child_pbs : option (list (list t_pb))).

Class ClusterLegalizer (CL : Type) := {
  start_new_cluster :
    PackMoleculeId -> t_logical_block_type_ptr -> nat -> CL ->
    e_block_pack_status * LegalizationClusterId * CL;
  add_mol_to_cluster :
    PackMoleculeId -> LegalizationClusterId -> CL -> e_block_pack_status * CL;
  is_molecule_compatible : PackMoleculeId -> LegalizationClusterId -> CL -> bool;
  is_mol_clustered : PackMoleculeId -> CL -> bool;
  check_cluster_legality : LegalizationClusterId -> CL -> bool;
  clean_cluster : LegalizationClusterId -> CL -> CL;
  destroy_cluster : LegalizationClusterId -> CL -> CL;
  compress : CL -> CL;
  set_legalization_strategy : ClusterLegalizationStrategy -> CL -> CL;
  get_cluster_molecules : LegalizationClusterId -> CL -> list PackMoleculeId;
  get_cluster_type : LegalizationClusterId -> CL -> t_logical_block_type_ptr;
  get_cluster_pb : LegalizationClusterId -> CL -> option t_pb;
  get_atom_cluster : AtomBlockId -> CL -> option LegalizationClusterId;
  num_clusters : CL -> nat
}.

(** The architecture tables read by the legalizer. *)
Record Arch := mk_arch
  { num_modes : t_logical_block_type_ptr -> nat;
    is_tile_compatible : t_physical_tile_type -> t_logical_block_type_ptr -> bool;
    primitive_candidate_block_types :
      LogicalModelId -> list t_logical_block_type_ptr }.

(** The part of the prepacker and of the atom / AP netlists that is read:
    the root atom of a molecule ([atom_block_ids[root]], [None] when the id
    is invalid), the atoms of a molecule, the model of an atom, and the AP
    blocks with their molecules. *)
Record Netlist := mk_netlist
  { root_atom : PackMoleculeId -> option AtomBlockId;
    atom_block_ids : PackMoleculeId -> list (option AtomBlockId);
    block_model : AtomBlockId -> option LogicalModelId;
    ap_blocks : list APBlockId;
    block_molecule : APBlockId -> PackMoleculeId }.

(* ================================================================= *)
(** ** is_root_tile, has_empty_primitive *)

Definition is_root_tile (grid : DeviceGrid) (tile_loc : t_physical_tile_loc)
    : bool :=
  (get_width_offset grid tile_loc =? 0) && (get_height_offset grid tile_loc =? 0).

(** [has_empty_primitive(t_pb* pb)] on a non-null [pb]. *)
Fixpoint has_empty_primitive_pb (pb : t_pb) : bool :=
  match pb with
  | Pb nmodes name children =>
      if Nat.eqb nmodes 0 then
        match name with None => true | Some _ => false end
      else
        match children with
        | None => true
        | Some cs => existsb (existsb has_empty_primitive_pb) cs
        end
  end.

(** [has_empty_primitive]: a null [pb] has none. *)
Definition has_empty_primitive (pb : option t_pb) : bool :=
  match pb with
  | None => false
  | Some p => has_empty_primitive_pb p
  end.

(* ================================================================= *)
(** ** create_new_cluster, get_molecule_logical_block_type *)

Section Start.
Context {CL : Type} `{ClusterLegalizer CL}.
Variable arch : Arch.
Variable nl : Netlist.

(** [for (int mode = 0; mode < num_modes; mode++)] of create_new_cluster:
    the first mode whose start passes is returned. *)
Fixpoint try_modes (mol : PackMoleculeId) (type : t_logical_block_type_ptr)
    (modes : list nat) (L : CL) : option LegalizationClusterId * CL :=
  match modes with
  | [] => (None, L)
  | mode :: rest =>
      let '(pack_status, new_cluster_id, L') :=
        start_new_cluster mol type mode L in
      if is_passed pack_status then (Some new_cluster_id, L')
      else try_modes mol type rest L'
  end.

(** [for (t_logical_block_type_ptr type : candidate_types)]. *)
Fixpoint try_types (mol : PackMoleculeId)
    (types : list t_logical_block_type_ptr) (L : CL)
    : option LegalizationClusterId * CL :=
  match types with
  | [] => (None, L)
  | type :: rest =>
      match try_modes mol type (seq 0 (num_modes arch type)) L with
      | (Some id, L') => (Some id, L')
      | (None, L') => try_types mol rest L'
      end
  end.

(** An invalid root atom has no model, which the first assertion on the
    model id catches. *)
Definition create_new_cluster (seed_molecule_id : PackMoleculeId) (L : CL)
    : result (LegalizationClusterId * CL) :=
  match root_atom nl seed_molecule_id with
  | None => Fatal (AssertionFailed "root_model_id.is_valid()")
  | Some root =>
      match block_model nl root with
      | None => Fatal (AssertionFailed "root_model_id.is_valid()")
      | Some root_model_id =>
          match primitive_candidate_block_types arch root_model_id with
          | [] => Fatal (AssertionFailed "!candidate_types.empty()")
          | candidate_types =>
              match try_types seed_molecule_id candidate_types L with
              | (Some id, L') => Ok (id, L')
              | (None, _) => Fatal UnableToCreateCluster
              end
          end
      end
  end.

(** [nullptr] is [None]. *)
Definition get_molecule_logical_block_type (mol_id : PackMoleculeId)
    : option t_logical_block_type_ptr :=
  match root_atom nl mol_id with
  | None => None
  | Some root =>
      match block_model nl root with
      | None => None
      | Some root_model_id =>
          match primitive_candidate_block_types arch root_model_id with
          | front :: _ => Some front
          | [] => None
          end
      end
  end.
End Start.

(* ================================================================= *)
(** ** BasicMinDisturbance::place_remaining_clusters *)

Definition UnplacedMap := list (t_physical_tile_loc * list LegalizationClusterId).

(** What the debug log of a failed search carries: the cluster, the radius
    printed ([max_search_radius]) and the desired location. *)
Record PlaceFailure := mk_failure
  { pf_cluster : LegalizationClusterId;
    pf_radius : Z;
    pf_loc : t_physical_tile_loc }.

Section Relocation.
Context {CL : Type} `{ClusterLegalizer CL}.
Variable arch : Arch.
Variable grid : DeviceGrid.

Definition max_search_radius : Z := Z.max (width grid) (height grid).

(** [for (sub_tile = 0; sub_tile < capacity; ++sub_tile)]: left at once on
    a non-root tile, occupied sub-tiles are passed over, the first free
    one is the candidate taken. *)
Fixpoint scan_sub_tiles (tbl : PlacedTable) (tile_loc : t_physical_tile_loc)
    (subs : list Z) : option t_pl_loc :=
  match subs with
  | [] => None
  | sub_tile :: rest =>
      if negb (is_root_tile grid tile_loc) then None
      else
        let candidate_loc :=
          mk_pl_loc (tl_x tile_loc) (tl_y tile_loc) sub_tile
                    (tl_layer_num tile_loc) in
        if tbl_count candidate_loc tbl then scan_sub_tiles tbl tile_loc rest
        else Some candidate_loc
  end.

(** The body of the [dy] loop for one offset. *)
Definition try_offset (tbl : PlacedTable)
    (cluster_type : t_logical_block_type_ptr)
    (orig_loc : t_physical_tile_loc) (search_radius dx dy : Z)
    : option t_pl_loc :=
  if negb (Z.abs dx + Z.abs dy =? search_radius) then None
  else
    let x := tl_x orig_loc + dx in
    let y := tl_y orig_loc + dy in
    let layer := tl_layer_num orig_loc in
    if (x <? 0) || (y <? 0) || (x >=? width grid) || (y >=? height grid)
    then None
    else
      let tile_loc := mk_tile_loc x y layer in
      let tile_type := get_physical_type grid tile_loc in
      if negb (is_tile_compatible arch tile_type cluster_type) then None
      else
        scan_sub_tiles tbl tile_loc (zseq 0 (Z.to_nat (capacity tile_type))).

(** The [dx] and [dy] loops at one radius. *)
Definition scan_ring (tbl : PlacedTable)
    (cluster_type : t_logical_block_type_ptr)
    (orig_loc : t_physical_tile_loc) (search_radius : Z) : option t_pl_loc :=
  find_first
    (fun dx =>
       find_first
         (fun dy => try_offset tbl cluster_type orig_loc search_radius dx dy)
         (zrange (- search_radius) search_radius))
    (zrange (- search_radius) search_radius).

(** [while (!placed && search_radius <= max_search_radius)]. *)
Definition search_site (tbl : PlacedTable)
    (cluster_type : t_logical_block_type_ptr)
    (orig_loc : t_physical_tile_loc) : option t_pl_loc :=
  find_first (scan_ring tbl cluster_type orig_loc)
             (zrange 0 max_search_radius).

(** The update of [cluster_id_to_loc_unplaced] once a site is claimed. *)
Definition unplaced_remove (orig_loc : t_physical_tile_loc)
    (cluster_id : LegalizationClusterId) (unplaced : UnplacedMap)
    : UnplacedMap :=
  let cluster_vec :=
    match alookup tile_loc_eqb orig_loc unplaced with
    | Some v => v
    | None => []
    end in
  let cluster_vec' :=
    filter (fun c => negb (Nat.eqb c cluster_id)) cluster_vec in
  match cluster_vec' with
  | [] => aerase tile_loc_eqb orig_loc unplaced
  | _ => aset tile_loc_eqb orig_loc cluster_vec' unplaced
  end.

Record ReloState := mk_relo
  { rs_table : PlacedTable;
    rs_unplaced : UnplacedMap;
    rs_failed : list PlaceFailure }.

(** The body of [for (auto cluster_id : clusters)]. *)
Definition place_one_cluster (L : CL) (orig_loc : t_physical_tile_loc)
    (st : ReloState) (cluster_id : LegalizationClusterId) : ReloState :=
  let cluster_type := get_cluster_type cluster_id L in
  match search_site (rs_table st) cluster_type orig_loc with
  | Some candidate_loc =>
      mk_relo (tbl_bind candidate_loc cluster_id (rs_table st))
              (unplaced_remove orig_loc cluster_id (rs_unplaced st))
              (rs_failed st)
  | None =>
      mk_relo (rs_table st) (rs_unplaced st)
              (rs_failed st
               ++ [mk_failure cluster_id max_search_radius orig_loc])
  end.

Definition place_remaining_clusters (L : CL) (tbl : PlacedTable)
    (cluster_id_to_loc_unplaced : UnplacedMap) : ReloState :=
  let unplaced_copy := cluster_id_to_loc_unplaced in
  fold_left
    (fun st entry =>
       fold_left (place_one_cluster L (fst entry)) (snd entry) st)
    unplaced_copy
    (mk_relo tbl cluster_id_to_loc_unplaced []).

(** The end of pack_recontruction_pass: fatal when
    [cluster_id_to_loc_unplaced] is not empty, with its [size()]. *)
Definition check_all_placed (st : ReloState) : result ReloState :=
  match rs_unplaced st with
  | [] => Ok st
  | _ => Fatal (ClustersRemainUnplaced (List.length (rs_unplaced st)))
  end.
End Relocation.

(* ================================================================= *)
(** ** BasicMinDisturbance: the state of the packing passes *)

(** [std::unordered_set<PackMoleculeId>]. *)
Definition mol_mem (m : PackMoleculeId) (s : list PackMoleculeId) : bool :=
  existsb (Nat.eqb m) s.
Definition mol_insert (m : PackMoleculeId) (s : list PackMoleculeId)
    : list PackMoleculeId :=
  if mol_mem m s then s else m :: s.
Definition mol_erase (m : PackMoleculeId) (s : list PackMoleculeId)
    : list PackMoleculeId :=
  filter (fun m' => negb (Nat.eqb m m')) s.

(** The members of BasicMinDisturbance and the locals of
    pack_recontruction_pass that its helpers take by reference. *)
Record PackState (CL : Type) := mk_pack
  { ps_cl : CL;
    loc_to_cluster_id_placed : PlacedTable;
    cluster_id_to_loc_desired :
      list (LegalizationClusterId * t_physical_tile_loc);
    cluster_ids_to_check : list (LegalizationClusterId * t_pl_loc);
    unclustered_blocks : list (PackMoleculeId * t_physical_tile_loc);
    unclustered_block_locs : list (t_physical_tile_loc * list PackMoleculeId);
    cluster_id_to_loc_unplaced : UnplacedMap;
    cluster_created_mid_first_pass : nat }.
Arguments mk_pack {CL}.
Arguments ps_cl {CL}.
Arguments loc_to_cluster_id_placed {CL}.
Arguments cluster_id_to_loc_desired {CL}.
Arguments cluster_ids_to_check {CL}.
Arguments unclustered_blocks {CL}.
Arguments unclustered_block_locs {CL}.
Arguments cluster_id_to_loc_unplaced {CL}.
Arguments cluster_created_mid_first_pass {CL}.

Section PackStateUpdates.
Context {CL : Type}.

Definition set_cl (L : CL) (st : PackState CL) : PackState CL :=
  mk_pack L (loc_to_cluster_id_placed st) (cluster_id_to_loc_desired st)
          (cluster_ids_to_check st) (unclustered_blocks st)
          (unclustered_block_locs st) (cluster_id_to_loc_unplaced st)
          (cluster_created_mid_first_pass st).

Definition set_table (tbl : PlacedTable) (st : PackState CL) : PackState CL :=
  mk_pack (ps_cl st) tbl (cluster_id_to_loc_desired st)
          (cluster_ids_to_check st) (unclustered_blocks st)
          (unclustered_block_locs st) (cluster_id_to_loc_unplaced st)
          (cluster_created_mid_first_pass st).

Definition set_to_check (chk : list (LegalizationClusterId * t_pl_loc))
    (st : PackState CL) : PackState CL :=
  mk_pack (ps_cl st) (loc_to_cluster_id_placed st)
          (cluster_id_to_loc_desired st) chk (unclustered_blocks st)
          (unclustered_block_locs st) (cluster_id_to_loc_unplaced st)
          (cluster_created_mid_first_pass st).

(** A new cluster takes the sub-tile [loc] of [tile_loc]:
    [cluster_ids_to_check[new_id] = loc; loc_to_cluster_id_placed[loc] =
    new_id; cluster_id_to_loc_desired[new_id] = tile_loc]. *)
Definition record_new_cluster (new_id : LegalizationClusterId)
    (loc : t_pl_loc) (tile_loc : t_physical_tile_loc) (L : CL)
    (st : PackState CL) : PackState CL :=
  mk_pack L
          (tbl_bind loc new_id (loc_to_cluster_id_placed st))
          (aset Nat.eqb new_id tile_loc (cluster_id_to_loc_desired st))
          (aset Nat.eqb new_id loc (cluster_ids_to_check st))
          (unclustered_blocks st)
          (unclustered_block_locs st) (cluster_id_to_loc_unplaced st)
          (cluster_created_mid_first_pass st).

(** [unclustered_blocks.push_back({mol_id, tile_loc});
    unclustered_block_locs[tile_loc].push_back(mol_id)]. *)
Definition defer_molecule (mol_id : PackMoleculeId)
    (tile_loc : t_physical_tile_loc) (st : PackState CL) : PackState CL :=
  mk_pack (ps_cl st) (loc_to_cluster_id_placed st)
          (cluster_id_to_loc_desired st) (cluster_ids_to_check st)
          (unclustered_blocks st ++ [(mol_id, tile_loc)])
          (apush tile_loc_eqb tile_loc mol_id (unclustered_block_locs st))
          (cluster_id_to_loc_unplaced st)
          (cluster_created_mid_first_pass st).

(** [cluster_id_to_loc_unplaced[seed_tile_loc].push_back(cluster_id);
    cluster_id_to_loc_desired[cluster_id] = seed_tile_loc]. *)
Definition record_unplaced (cluster_id : LegalizationClusterId)
    (seed_tile_loc : t_physical_tile_loc) (L : CL) (st : PackState CL)
    : PackState CL :=
  mk_pack L (loc_to_cluster_id_placed st)
          (aset Nat.eqb cluster_id seed_tile_loc
                (cluster_id_to_loc_desired st))
          (cluster_ids_to_check st) (unclustered_blocks st)
          (unclustered_block_locs st)
          (apush tile_loc_eqb seed_tile_loc cluster_id
                 (cluster_id_to_loc_unplaced st))
          (cluster_created_mid_first_pass st).

Definition set_unclustered
    (ub : list (PackMoleculeId * t_physical_tile_loc))
    (locs : list (t_physical_tile_loc * list PackMoleculeId))
    (st : PackState CL) : PackState CL :=
  mk_pack (ps_cl st) (loc_to_cluster_id_placed st)
          (cluster_id_to_loc_desired st) (cluster_ids_to_check st)
          ub locs (cluster_id_to_loc_unplaced st)
          (cluster_created_mid_first_pass st).

Definition count_mid_first_pass (st : PackState CL) : PackState CL :=
  mk_pack (ps_cl st) (loc_to_cluster_id_placed st)
          (cluster_id_to_loc_desired st) (cluster_ids_to_check st)
          (unclustered_blocks st) (unclustered_block_locs st)
          (cluster_id_to_loc_unplaced st)
          (S (cluster_created_mid_first_pass st)).
End PackStateUpdates.

(* ================================================================= *)
(** ** The tile-grouped direct pass of pack_recontruction_pass *)

Section DirectPass.
Context {CL : Type} `{ClusterLegalizer CL}.
Variable arch : Arch.
Variable nl : Netlist.
Variable grid : DeviceGrid.

(** [for (int sub_tile = 0; sub_tile < tile_type->capacity; ++sub_tile)]
    for one molecule: the result says whether it was [placed].  [retry] is
    set in the second copy of the loop, which also counts the clusters it
    creates. *)
Fixpoint try_sub_tiles (retry : bool) (mol_id : PackMoleculeId)
    (block_type : t_logical_block_type_ptr)
    (tile_loc : t_physical_tile_loc) (tile_type : t_physical_tile_type)
    (subs : list Z) (st : PackState CL) : result (bool * PackState CL) :=
  match subs with
  | [] => Ok (false, st)
  | sub_tile :: rest =>
      if negb (is_root_tile grid tile_loc) then Ok (false, st)
      else
        let loc := mk_pl_loc (tl_x tile_loc) (tl_y tile_loc) sub_tile
                             (tl_layer_num tile_loc) in
        match tbl_find loc (loc_to_cluster_id_placed st) with
        | Some cluster_id =>
            if negb (has_empty_primitive
                       (get_cluster_pb cluster_id (ps_cl st)))
            then try_sub_tiles retry mol_id block_type tile_loc tile_type
                               rest st
            else if is_molecule_compatible mol_id cluster_id (ps_cl st)
            then
              let '(status, L') :=
                add_mol_to_cluster mol_id cluster_id (ps_cl st) in
              if is_passed status then Ok (true, set_cl L' st)
              else try_sub_tiles retry mol_id block_type tile_loc tile_type
                                 rest (set_cl L' st)
            else try_sub_tiles retry mol_id block_type tile_loc tile_type
                               rest st
        | None =>
            if is_tile_compatible arch tile_type block_type then
              do (new_id, L') <- create_new_cluster arch nl mol_id (ps_cl st);
              let st' := record_new_cluster new_id loc tile_loc L' st in
              Ok (true, if retry then count_mid_first_pass st' else st')
            else try_sub_tiles retry mol_id block_type tile_loc tile_type
                               rest st
        end
  end.

(** The body of the loop over the molecules of a tile. *)
Definition place_molecule_in_tile (retry : bool)
    (tile_loc : t_physical_tile_loc) (tile_type : t_physical_tile_type)
    (mol_id : PackMoleculeId) (st : PackState CL) : result (PackState CL) :=
  match get_molecule_logical_block_type arch nl mol_id with
  | None => Fatal (CouldNotDetermineBlockType mol_id)
  | Some block_type =>
      do (placed, st') <-
        try_sub_tiles retry mol_id block_type tile_loc tile_type
                      (zseq 0 (Z.to_nat (capacity tile_type))) st;
      Ok (if placed : bool then st' else defer_molecule mol_id tile_loc st')
  end.

Fixpoint place_molecules_in_tile (retry : bool)
    (tile_loc : t_physical_tile_loc) (tile_type : t_physical_tile_type)
    (mols : list PackMoleculeId) (st : PackState CL)
    : result (PackState CL) :=
  match mols with
  | [] => Ok st
  | mol_id :: rest =>
      do st' <- place_molecule_in_tile retry tile_loc tile_type mol_id st;
      place_molecules_in_tile retry tile_loc tile_type rest st'
  end.

(** [for (const auto& [cluster_id, loc] : cluster_ids_to_check)]: illegal
    clusters give their molecules back and lose their binding, legal ones
    are cleaned. *)
Fixpoint check_tile_clusters
    (to_check : list (LegalizationClusterId * t_pl_loc))
    (illegal_cluster_mols : list PackMoleculeId) (st : PackState CL)
    : list PackMoleculeId * PackState CL :=
  match to_check with
  | [] => (illegal_cluster_mols, st)
  | (cluster_id, loc) :: rest =>
      if negb (check_cluster_legality cluster_id (ps_cl st)) then
        let mols := get_cluster_molecules cluster_id (ps_cl st) in
        check_tile_clusters rest (illegal_cluster_mols ++ mols)
          (set_cl (destroy_cluster cluster_id (ps_cl st))
                  (set_table (tbl_erase loc (loc_to_cluster_id_placed st))
                             st))
      else
        check_tile_clusters rest illegal_cluster_mols
          (set_cl (clean_cluster cluster_id (ps_cl st)) st)
  end.

(** The body of [for (const auto& [key, value] : tile_blocks)]. *)
Definition process_tile (tile_loc : t_physical_tile_loc)
    (blocks : list APBlockId) (st : PackState CL) : result (PackState CL) :=
  let tile_type := get_physical_type grid tile_loc in
  let st0 := set_to_check [] st in
  do st1 <- place_molecules_in_tile false tile_loc tile_type
              (map (block_molecule nl) blocks) st0;
  let '(illegal_cluster_mols, st2) :=
    check_tile_clusters (cluster_ids_to_check st1) [] st1 in
  let st3 := set_cl (set_legalization_strategy FULL (ps_cl st2)) st2 in
  do st4 <- place_molecules_in_tile true tile_loc tile_type
              illegal_cluster_mols st3;
  Ok (set_cl (set_legalization_strategy SKIP_INTRA_LB_ROUTE (ps_cl st4)) st4).

Fixpoint process_tiles
    (tile_blocks : list (t_physical_tile_loc * list APBlockId))
    (st : PackState CL) : result (PackState CL) :=
  match tile_blocks with
  | [] => Ok st
  | (tile_loc, blocks) :: rest =>
      do st' <- process_tile tile_loc blocks st;
      process_tiles rest st'
  end.
End DirectPass.

(* ================================================================= *)
(** ** BasicMinDisturbance::neighbor_cluster_pass *)

(** The offsets of the [dx], [dy] loops that pass the Manhattan-distance
    test at radius [r], in the order the loops reach them. *)
Definition ring_offsets (r : Z) : list (Z * Z) :=
  filter (fun d => Z.abs (fst d) + Z.abs (snd d) =? r)
         (list_prod (zrange (- r) r) (zrange (- r) r)).

Section NeighborPass.
Context {CL : Type} `{ClusterLegalizer CL}.
Variable arch : Arch.
Variable nl : Netlist.

(** The state the lambda [try_cluster_tile] captures: the legalizer,
    [unclustered_block_locs] and [clustered_molecules]. *)
Definition NbState : Type :=
  CL * list (t_physical_tile_loc * list PackMoleculeId)
  * list PackMoleculeId.

(** The loop over [mol_list] with its erasures: returns what is left of
    the list. *)
Fixpoint scan_mol_list (cluster_id : LegalizationClusterId)
    (mol_list : list PackMoleculeId) (L : CL)
    (clustered_molecules : list PackMoleculeId)
    : list PackMoleculeId * CL * list PackMoleculeId :=
  match mol_list with
  | [] => ([], L, clustered_molecules)
  | neighbor_mol :: rest =>
      if is_mol_clustered neighbor_mol L then
        scan_mol_list cluster_id rest L clustered_molecules
      else if mol_mem neighbor_mol clustered_molecules then
        scan_mol_list cluster_id rest L clustered_molecules
      else if is_molecule_compatible neighbor_mol cluster_id L then
        let '(status, L') := add_mol_to_cluster neighbor_mol cluster_id L in
        if is_passed status then
          scan_mol_list cluster_id rest L'
                        (mol_insert neighbor_mol clustered_molecules)
        else
          let '(kept, L'', cm) :=
            scan_mol_list cluster_id rest L' clustered_molecules in
          (neighbor_mol :: kept, L'', cm)
      else
        let '(kept, L'', cm) :=
          scan_mol_list cluster_id rest L clustered_molecules in
        (neighbor_mol :: kept, L'', cm)
  end.

Definition try_cluster_tile (cluster_id : LegalizationClusterId)
    (tile_loc : t_physical_tile_loc) (s : NbState) : NbState :=
  let '(L, locs, cm) := s in
  match alookup tile_loc_eqb tile_loc locs with
  | None => s
  | Some mol_list =>
      let '(mol_list', L', cm') := scan_mol_list cluster_id mol_list L cm in
      match mol_list' with
      | [] => (L', aerase tile_loc_eqb tile_loc locs, cm')
      | _ => (L', aset tile_loc_eqb tile_loc mol_list' locs, cm')
      end
  end.

(** The ring loops around the seed tile; [goto skip_remaining_neighbors]
    ends the walk over the remaining offsets. *)
Fixpoint visit_neighbors (cluster_id : LegalizationClusterId)
    (seed_tile_loc : t_physical_tile_loc) (offsets : list (Z * Z))
    (s : NbState) : NbState :=
  match offsets with
  | [] => s
  | (dx, dy) :: rest =>
      let neighbor_tile :=
        mk_tile_loc (tl_x seed_tile_loc + dx) (tl_y seed_tile_loc + dy)
                    (tl_layer_num seed_tile_loc) in
      if negb (acount tile_loc_eqb neighbor_tile (snd (fst s))) then
        visit_neighbors cluster_id seed_tile_loc rest s
      else
        let s' := try_cluster_tile cluster_id neighbor_tile s in
        if negb (has_empty_primitive
                   (get_cluster_pb cluster_id (fst (fst s'))))
        then s'
        else visit_neighbors cluster_id seed_tile_loc rest s'
  end.

(** The offsets of [for (int r = 1; r <= search_radius; ++r)]. *)
Definition neighbor_offsets (search_radius : Z) : list (Z * Z) :=
  flat_map ring_offsets (zrange 1 search_radius).

(** The requeue of the molecules of an illegal cluster. *)
Fixpoint requeue_molecules (mols : list PackMoleculeId)
    (seed_tile_loc : t_physical_tile_loc)
    (ub : list (PackMoleculeId * t_physical_tile_loc))
    (locs : list (t_physical_tile_loc * list PackMoleculeId))
    (cm : list PackMoleculeId)
    : list (PackMoleculeId * t_physical_tile_loc)
      * list (t_physical_tile_loc * list PackMoleculeId)
      * list PackMoleculeId :=
  match mols with
  | [] => (ub, locs, cm)
  | mol_id :: rest =>
      requeue_molecules rest seed_tile_loc
        (ub ++ [(mol_id, seed_tile_loc)])
        (apush tile_loc_eqb seed_tile_loc mol_id locs)
        (mol_erase mol_id cm)
  end.

(** The body of the loop over [unclustered_blocks_copy]. *)
Definition neighbor_seed (strategy : ClusterLegalizationStrategy)
    (search_radius : Z) (entry : PackMoleculeId * t_physical_tile_loc)
    (sc : PackState CL * list PackMoleculeId)
    : result (PackState CL * list PackMoleculeId) :=
  let '(st, clustered_molecules) := sc in
  let '(mol_id, seed_tile_loc) := entry in
  if mol_mem mol_id clustered_molecules then Ok sc
  else
    do (cluster_id, L1) <- create_new_cluster arch nl mol_id (ps_cl st);
    let cm1 := mol_insert mol_id clustered_molecules in
    let s2 :=
      try_cluster_tile cluster_id seed_tile_loc
                       (L1, unclustered_block_locs st, cm1) in
    let '(L3, locs3, cm3) :=
      visit_neighbors cluster_id seed_tile_loc
                      (neighbor_offsets search_radius) s2 in
    let st3 := set_unclustered (unclustered_blocks st) locs3 st in
    if strategy_is_full strategy then
      Ok (record_unplaced cluster_id seed_tile_loc
            (clean_cluster cluster_id L3) st3, cm3)
    else if check_cluster_legality cluster_id L3 then
      Ok (record_unplaced cluster_id seed_tile_loc
            (clean_cluster cluster_id L3) st3, cm3)
    else
      let '(ub, locs, cm) :=
        requeue_molecules (get_cluster_molecules cluster_id L3)
          seed_tile_loc (unclustered_blocks st3) locs3 cm3 in
      Ok (set_cl (destroy_cluster cluster_id L3)
                 (set_unclustered ub locs st3), cm).

Fixpoint neighbor_seeds (strategy : ClusterLegalizationStrategy)
    (search_radius : Z)
    (entries : list (PackMoleculeId * t_physical_tile_loc))
    (sc : PackState CL * list PackMoleculeId)
    : result (PackState CL * list PackMoleculeId) :=
  match entries with
  | [] => Ok sc
  | entry :: rest =>
      do sc' <- neighbor_seed strategy search_radius entry sc;
      neighbor_seeds strategy search_radius rest sc'
  end.

Definition neighbor_cluster_pass (strategy : ClusterLegalizationStrategy)
    (search_radius : Z) (st : PackState CL) : result (PackState CL) :=
  let unclustered_blocks_copy := unclustered_blocks st in
  do (st', clustered_molecules) <-
    neighbor_seeds strategy search_radius unclustered_blocks_copy (st, []);
  Ok (set_unclustered
        (filter (fun p => negb (mol_mem (fst p) clustered_molecules))
                (unclustered_blocks st'))
        (unclustered_block_locs st') st').
End NeighborPass.

(* ================================================================= *)
(** ** pack_recontruction_pass and the packing part of legalize *)

(** The part of [PartialPlacement] that is read. *)
Record PartialPlacement := mk_pp
  { get_containing_tile_loc : APBlockId -> t_physical_tile_loc }.

Section PackReconstruction.
Context {CL : Type} `{ClusterLegalizer CL}.
Variable arch : Arch.
Variable nl : Netlist.
Variable grid : DeviceGrid.

(** [num_used_ext_inputs] of the molecule of each block, as cached in
    [molecule_ext_inps_cache]. *)
Variable ext_inps : PackMoleculeId -> Z.

(** [std::sort] by descending [ext_inps]; the order among equal keys is
    left open by the C++ standard, the insertion sort here keeps it. *)
Fixpoint insert_sorted (b : APBlockId) (l : list APBlockId)
    : list APBlockId :=
  match l with
  | [] => [b]
  | b' :: rest =>
      if ext_inps (block_molecule nl b') <? ext_inps (block_molecule nl b)
      then b :: l
      else b' :: insert_sorted b rest
  end.

Definition sorted_blocks : list APBlockId :=
  fold_left (fun acc b => insert_sorted b acc) (ap_blocks nl) [].

(** [tile_blocks[tile_loc].push_back(ap_blk_id)]. *)
Definition group_by_tile (p_placement : PartialPlacement)
    : list (t_physical_tile_loc * list APBlockId) :=
  fold_left
    (fun acc b =>
       apush tile_loc_eqb (get_containing_tile_loc p_placement b) b acc)
    sorted_blocks [].

Definition NEIGHBOR_SEARCH_RADIUS : Z := 4.

(** What pack_recontruction_pass leaves: the state of the passes and of
    the relocation search. *)
Definition pack_recontruction_pass (p_placement : PartialPlacement)
    (st0 : PackState CL) : result (PackState CL * list PlaceFailure) :=
  do st1 <- process_tiles arch nl grid (group_by_tile p_placement) st0;
  do st2 <- neighbor_cluster_pass arch nl SKIP_INTRA_LB_ROUTE
              NEIGHBOR_SEARCH_RADIUS st1;
  let st2' := set_cl (set_legalization_strategy FULL (ps_cl st2)) st2 in
  do st3 <- neighbor_cluster_pass arch nl FULL NEIGHBOR_SEARCH_RADIUS st2';
  let rs :=
    place_remaining_clusters arch grid (ps_cl st3)
      (loc_to_cluster_id_placed st3) (cluster_id_to_loc_unplaced st3) in
  do rs' <- check_all_placed rs;
  Ok (mk_pack (ps_cl st3) (rs_table rs') (cluster_id_to_loc_desired st3)
              (cluster_ids_to_check st3) (unclustered_blocks st3)
              (unclustered_block_locs st3) (rs_unplaced rs')
              (cluster_created_mid_first_pass st3),
      rs_failed rs').

(** The loop of legalize that fills [atom_to_legalization_map], with its
    two assertions. *)
Fixpoint map_atoms (L : CL) (atoms : list (option AtomBlockId))
    (m : list (AtomBlockId * LegalizationClusterId))
    : result (list (AtomBlockId * LegalizationClusterId)) :=
  match atoms with
  | [] => Ok m
  | None :: rest => map_atoms L rest m
  | Some atom_blk_id :: rest =>
      if acount Nat.eqb atom_blk_id m then
        Fatal (AssertionFailed
                 "!atom_to_legalization_map[atom_blk_id].is_valid()")
      else
        match get_atom_cluster atom_blk_id L with
        | None => Fatal (AssertionFailed "cluser_id.is_valid()")
        | Some cluser_id =>
            map_atoms L rest (aset Nat.eqb atom_blk_id cluser_id m)
        end
  end.

Fixpoint map_blocks (L : CL) (blocks : list APBlockId)
    (m : list (AtomBlockId * LegalizationClusterId))
    : result (list (AtomBlockId * LegalizationClusterId)) :=
  match blocks with
  | [] => Ok m
  | ap_blk_id :: rest =>
      do m' <- map_atoms L (atom_block_ids nl (block_molecule nl ap_blk_id)) m;
      map_blocks L rest m'
  end.

(** What legalize hands to check_and_output_clustering. *)
Record Packing := mk_packing
  { pk_cl : CL;
    pk_state : PackState CL;
    pk_atom_to_legalization_map :
      list (AtomBlockId * LegalizationClusterId) }.

(** BasicMinDisturbance::legalize up to [cluster_legalizer.compress()];
    [L0] is the legalizer as constructed, with the strategy
    SKIP_INTRA_LB_ROUTE.  Writing the clustering, reloading it and the
    initial placement that follow are not part of this file's sources. *)
Definition legalize (p_placement : PartialPlacement) (st0 : PackState CL)
    : result Packing :=
  do (st, _) <- pack_recontruction_pass p_placement st0;
  do atom_to_legalization_map <- map_blocks (ps_cl st) (ap_blocks nl) [];
  Ok (mk_packing (compress (ps_cl st)) st atom_to_legalization_map).
End PackReconstruction.

(* ================================================================= *)
(** ** APClusterPlacer *)

Record t_pl_offset := mk_offset
  { off_x : Z; off_y : Z; off_sub_tile : Z; off_layer : Z }.

Record t_pl_macro_member := mk_member
  { blk_index : ClusterBlockId; offset : t_pl_offset }.

(** [t_pl_macro]: its [members]. *)
Definition t_pl_macro := list t_pl_macro_member.

(** [PlaceMacros]: [get_imacro_from_iblk] (-1 when the block is in no
    macro) and [operator[]]. *)
Record PlaceMacros := mk_macros
  { get_imacro_from_iblk : ClusterBlockId -> Z;
    macro_at : Z -> t_pl_macro }.

(** [Region(rect, layer)]: the rectangle (xmin, ymin, xmax, ymax), bounds
    included, on one layer. *)
Record Region := mk_region
  { r_xmin : Z; r_ymin : Z; r_xmax : Z; r_ymax : Z; r_layer : Z }.

(** [PartitionRegion]: the union of its regions. *)
Definition PartitionRegion := list Region.

Definition add_to_part_region (r : Region) (pr : PartitionRegion)
  : PartitionRegion := pr ++ [r].

(** Modelled from the spec: [PartitionRegion::is_loc_in_part_reg]
    (partition_region.cpp is not among the sources), the test that "the
    desired site lies inside" the constraint region: the location is in one
    of the regions. *)
Definition is_loc_in_part_reg (pr : PartitionRegion) (loc : t_pl_loc) : bool :=
  existsb
    (fun r =>
       (r_xmin r <=? pl_x loc) && (pl_x loc <=? r_xmax r)
       && (r_ymin r <=? pl_y loc) && (pl_y loc <=? r_ymax r)
       && (r_layer r =? pl_layer loc))
    pr.

(** The floorplanning context: [is_cluster_constrained] and
    [cluster_constraints]. *)
Record Floorplanning := mk_floorplan
  { is_cluster_constrained : ClusterBlockId -> bool;
    cluster_constraints : ClusterBlockId -> PartitionRegion }.

Inductive e_pad_loc_type := PAD_FREE | PAD_RANDOM.

(** The block-location registry with the placement routines of
    initial_placement.cpp that the placer calls. *)
Class BlkLocRegistry (R : Type) := {
  is_block_placed : ClusterBlockId -> R -> bool;
  try_place_macro : t_pl_macro -> t_pl_loc -> R -> bool * R;
  try_place_macro_exhaustively :
    t_pl_macro -> PartitionRegion -> t_logical_block_type_ptr ->
    e_pad_loc_type -> R -> bool * R
}.

Section APClusterPlacer.
Context {R : Type} `{BlkLocRegistry R}.
Variable grid : DeviceGrid.
Variable place_macros_ : PlaceMacros.
Variable floorplanning_ctx : Floorplanning.
Variable block_type_of : ClusterBlockId -> t_logical_block_type_ptr.
Variable pad_loc_type : e_pad_loc_type.
Variable device_partition_region : PartitionRegion.

Definition get_macro (clb_blk_id : ClusterBlockId) : t_pl_macro :=
  let imacro := get_imacro_from_iblk place_macros_ clb_blk_id in
  if negb (imacro =? -1) then macro_at place_macros_ imacro
  else [mk_member clb_blk_id (mk_offset 0 0 0 0)].

(** [OPEN], the value of the fields of a default [t_pl_loc]. *)
Definition OPEN : Z := -1.

(** The registry is returned with the result.  The two nested [if]s on the
    constraint are the conjunction below: as in the source, [false] is
    returned when the cluster is constrained and [is_loc_in_part_reg]
    holds of the location. *)
Definition place_cluster_reconstruction (clb_blk_id : ClusterBlockId)
    (tile_loc : t_physical_tile_loc) (sub_tile : Z) (reg : R)
    : result (bool * R) :=
  if is_block_placed clb_blk_id reg then Ok (true, reg)
  else
    let pl_macro := get_macro clb_blk_id in
    let to_loc :=
      mk_pl_loc (tl_x tile_loc) (tl_y tile_loc) OPEN (tl_layer_num tile_loc) in
    if Nat.eqb (num_sub_tiles (get_physical_type grid tile_loc)) 0
    then Ok (false, reg)
    else if negb ((sub_tile >=? 0)
                  && (sub_tile <? capacity (get_physical_type grid tile_loc)))
    then Fatal (AssertionFailed "sub_tile >= 0 && sub_tile < capacity")
    else if is_cluster_constrained floorplanning_ctx clb_blk_id
            && is_loc_in_part_reg
                 (cluster_constraints floorplanning_ctx clb_blk_id) to_loc
    then Ok (false, reg)
    else
      let to_loc' :=
        mk_pl_loc (pl_x to_loc) (pl_y to_loc) sub_tile (pl_layer to_loc) in
      Ok (try_place_macro pl_macro to_loc' reg).

(** The same up to the last step, which searches the one-tile region
    [pr] and ignores [sub_tile]. *)
Definition place_cluster (clb_blk_id : ClusterBlockId)
    (tile_loc : t_physical_tile_loc) (sub_tile : Z) (reg : R)
    : result (bool * R) :=
  if is_block_placed clb_blk_id reg then Ok (true, reg)
  else
    let pl_macro := get_macro clb_blk_id in
    let to_loc :=
      mk_pl_loc (tl_x tile_loc) (tl_y tile_loc) OPEN (tl_layer_num tile_loc) in
    if Nat.eqb (num_sub_tiles (get_physical_type grid tile_loc)) 0
    then Ok (false, reg)
    else if negb ((sub_tile >=? 0)
                  && (sub_tile <? capacity (get_physical_type grid tile_loc)))
    then Fatal (AssertionFailed "sub_tile >= 0 && sub_tile < capacity")
    else if is_cluster_constrained floorplanning_ctx clb_blk_id
            && is_loc_in_part_reg
                 (cluster_constraints floorplanning_ctx clb_blk_id) to_loc
    then Ok (false, reg)
    else
      let pr :=
        add_to_part_region
          (mk_region (tl_x tile_loc) (tl_y tile_loc) (tl_x tile_loc)
                     (tl_y tile_loc) (pl_layer to_loc)) [] in
      Ok (try_place_macro_exhaustively pl_macro pr
            (block_type_of clb_blk_id) pad_loc_type reg).

Definition exhaustively_place_cluster (clb_blk_id : ClusterBlockId) (reg : R)
    : bool * R :=
  if is_block_placed clb_blk_id reg then (true, reg)
  else
    let pl_macro := get_macro clb_blk_id in
    let pr :=
      if is_cluster_constrained floorplanning_ctx clb_blk_id
      then cluster_constraints floorplanning_ctx clb_blk_id
      else device_partition_region in
    try_place_macro_exhaustively pl_macro pr (block_type_of clb_blk_id)
                                 pad_loc_type reg.

(** The first loop of BasicMinDisturbance::place_clusters. *)
Fixpoint place_at_determined_locations
    (placed : list (t_pl_loc * ClusterBlockId)) (reg : R)
    (unplaced_clusters : list ClusterBlockId)
    : result (R * list ClusterBlockId) :=
  match placed with
  | [] => Ok (reg, unplaced_clusters)
  | (loc, clb_index) :: rest =>
      let tile_loc := mk_tile_loc (pl_x loc) (pl_y loc) (pl_layer loc) in
      do (ok, reg') <-
        place_cluster_reconstruction clb_index tile_loc (pl_sub_tile loc) reg;
      place_at_determined_locations rest reg'
        (if ok : bool then unplaced_clusters
         else unplaced_clusters ++ [clb_index])
  end.

(** The second loop: the clusters left are placed exhaustively. *)
Fixpoint place_exhaustively (clusters : list ClusterBlockId) (reg : R)
    : result R :=
  match clusters with
  | [] => Ok reg
  | clb_blk_id :: rest =>
      let '(success, reg') := exhaustively_place_cluster clb_blk_id reg in
      if success then place_exhaustively rest reg'
      else Fatal UnableToFindValidPlace
  end.

(** BasicMinDisturbance::place_clusters; [legalization_id_to_cluster_id]
    is applied to the table by the caller of this model. *)
Definition place_clusters (placed : list (t_pl_loc * ClusterBlockId))
    (reg : R) : result R :=
  do (reg', unplaced_clusters) <- place_at_determined_locations placed reg [];
  place_exhaustively unplaced_clusters reg'.
End APClusterPlacer.

(* ================================================================= *)
(** ** GreedyClusterer::do_clustering *)

(** [std::map<t_logical_block_type_ptr, size_t>]: a missing key reads 0,
    [++] and [--] wrap at 2^64. *)
Definition TypeCounters := list (t_logical_block_type_ptr * Z).

Definition SIZE_MAX1 : Z := 2 ^ 64.

Definition counter_get (t : t_logical_block_type_ptr) (c : TypeCounters) : Z :=
  match alookup Nat.eqb t c with Some v => v | None => 0 end.

Definition counter_incr (t : t_logical_block_type_ptr) (c : TypeCounters)
    : TypeCounters :=
  aset Nat.eqb t ((counter_get t c + 1) mod SIZE_MAX1) c.

Definition counter_decr (t : t_logical_block_type_ptr) (c : TypeCounters)
    : TypeCounters :=
  aset Nat.eqb t ((counter_get t c - 1) mod SIZE_MAX1) c.

(** The counters hold values of [size_t]. *)
Definition counters_wf (c : TypeCounters) : Prop :=
  forall t, 0 <= counter_get t c < SIZE_MAX1.

(** One pass of the body of the loop over [legalization_strategies]. *)
Record Attempt := mk_attempt
  { at_seed : PackMoleculeId;
    at_strategy : ClusterLegalizationStrategy;
    at_cluster : LegalizationClusterId;
    at_legal : bool }.

Section Greedy.
Context {CL : Type} `{ClusterLegalizer CL}.
Variable arch : Arch.
Variable nl : Netlist.

(** GreedySeedSelector::get_next_seed (greedy_seed_selector.cpp). *)
Variable SeedSelector : Type.
Variable get_next_seed :
    SeedSelector -> CL -> option PackMoleculeId * SeedSelector.

(** get_molecule_for_cluster (cluster_util.cpp) over the clustering data
    it reads and updates. *)
Variable Candidates : Type.
Variable get_molecule_for_cluster :
    LegalizationClusterId -> CL -> Candidates ->
    option PackMoleculeId * Candidates.

(** 1, or [attraction_groups_max_repeated_molecules_] when there are
    attraction groups. *)
Variable max_num_repeated_molecules : nat.

(** A bound on the candidates handed out while one cluster grows: the
    pool of unclustered molecules is finite. *)
Variable candidate_budget : nat.

Record GreedyState := mk_greedy
  { g_cl : CL;
    g_selector : SeedSelector;
    g_candidates : Candidates;
    num_used_type_instances : TypeCounters;
    total_clb_num : Z;
    g_attempts : list Attempt }.

(** Modelled from the spec: start_new_cluster of cluster_util.cpp, which
    is not among the sources (START: "probe the oracle's start operation
    over candidate (type, mode) pairs for the seed Molecule, in a fixed
    preference order; accept the first success").  The probing is that of
    create_new_cluster, which the source says was taken from it; the
    usage counter of the type of the cluster started is the one that
    do_clustering decrements when it destroys the cluster. *)
Definition start_new_cluster_util (istart : PackMoleculeId) (L : CL)
    (counters : TypeCounters)
    : result (LegalizationClusterId * CL * TypeCounters) :=
  do (id, L') <- create_new_cluster arch nl istart L;
  Ok (id, L', counter_incr (get_cluster_type id L') counters).

(** Modelled from the spec: try_fill_cluster of cluster_util.cpp, which is
    not among the sources (GROW: "repeatedly request a next candidate
    Molecule ...; attempt to add each via the oracle"): one attempt to
    add [next_molecule], then the request for the next candidate; a
    candidate equal to the one just tried counts as repeated. *)
Definition try_fill_cluster (id : LegalizationClusterId)
    (prev_molecule : PackMoleculeId) (num_repeated_molecules : nat)
    (L : CL) (cand : Candidates)
    : option PackMoleculeId * nat * CL * Candidates :=
  let '(_, L') := add_mol_to_cluster prev_molecule id L in
  let '(next_molecule, cand') := get_molecule_for_cluster id L' cand in
  let repeated :=
    match next_molecule with
    | Some m => Nat.eqb m prev_molecule
    | None => false
    end in
  (next_molecule,
   if repeated then S num_repeated_molecules else num_repeated_molecules,
   L', cand').

(** [while (next_molecule != nullptr
           && num_repeated_molecules < max_num_repeated_molecules)]. *)
Fixpoint fill_loop (budget : nat) (id : LegalizationClusterId)
    (next_molecule : option PackMoleculeId) (num_repeated_molecules : nat)
    (L : CL) (cand : Candidates) : CL * Candidates :=
  match budget, next_molecule with
  | S budget', Some m =>
      if Nat.ltb num_repeated_molecules max_num_repeated_molecules then
        let '(next', repeated', L', cand') :=
          try_fill_cluster id m num_repeated_molecules L cand in
        fill_loop budget' id next' repeated' L' cand'
      else (L, cand)
  | _, _ => (L, cand)
  end.

(** The body of [for (const ClusterLegalizationStrategy strategy :
    legalization_strategies)] once past the [is_cluster_legal] test; the
    result carries [is_cluster_legal] and the value of [istart]. *)
Definition attempt (strategy : ClusterLegalizationStrategy)
    (istart : PackMoleculeId) (st : GreedyState)
    : result (bool * option PackMoleculeId * GreedyState) :=
  let L1 := set_legalization_strategy strategy (g_cl st) in
  do (id_L2, counters) <-
    start_new_cluster_util istart L1 (num_used_type_instances st);
  let '(legalization_cluster_id, L2) := id_L2 in
  let total := total_clb_num st + 1 in
  let '(next_molecule, cand1) :=
    get_molecule_for_cluster legalization_cluster_id L2 (g_candidates st) in
  let '(L3, cand2) :=
    fill_loop candidate_budget legalization_cluster_id next_molecule 0
              L2 cand1 in
  let is_cluster_legal :=
    if strategy_is_full strategy then true
    else check_cluster_legality legalization_cluster_id L3 in
  let log :=
    g_attempts st
    ++ [mk_attempt istart strategy legalization_cluster_id is_cluster_legal] in
  if is_cluster_legal then
    let '(istart', sel') := get_next_seed (g_selector st) L3 in
    Ok (true, istart',
        mk_greedy (clean_cluster legalization_cluster_id L3) sel' cand2
                  counters total log)
  else
    let counters' :=
      counter_decr (get_cluster_type legalization_cluster_id L3) counters in
    Ok (false, Some istart,
        mk_greedy (compress (destroy_cluster legalization_cluster_id L3))
                  (g_selector st) cand2 counters' (total - 1) log).

(** The loop over the strategies, left once a cluster is legal. *)
Fixpoint strategy_loop (strategies : list ClusterLegalizationStrategy)
    (istart : PackMoleculeId) (st : GreedyState)
    : result (option PackMoleculeId * GreedyState) :=
  match strategies with
  | [] => Ok (Some istart, st)
  | strategy :: rest =>
      do (legal_next, st') <- attempt strategy istart st;
      let '(is_cluster_legal, istart') := legal_next in
      if is_cluster_legal : bool then Ok (istart', st')
      else strategy_loop rest istart st'
  end.

Definition legalization_strategies : list ClusterLegalizationStrategy :=
  [SKIP_INTRA_LB_ROUTE; FULL].

(** The body of [while (istart != nullptr)]. *)
Definition cluster_seed (istart : PackMoleculeId) (st : GreedyState)
    : result (option PackMoleculeId * GreedyState) :=
  strategy_loop legalization_strategies istart st.

(** do_clustering from the first seed on; [seeds] bounds the number of
    seeds the selector hands out, [None] says the bound was too small. *)
Fixpoint seed_loop (seeds : nat) (istart : option PackMoleculeId)
    (st : GreedyState) : option (result GreedyState) :=
  match istart with
  | None =>
      Some (if Z.of_nat (num_clusters (g_cl st)) =? total_clb_num st
            then Ok st
            else Fatal (AssertionFailed
                   "cluster_legalizer.clusters().size() == (size_t)total_clb_num"))
  | Some seed =>
      match seeds with
      | O => None
      | S seeds' =>
          match cluster_seed seed st with
          | Fatal e => Some (Fatal e)
          | Ok (istart', st') => seed_loop seeds' istart' st'
          end
      end
  end.

Definition do_clustering (seeds : nat) (L : CL) (sel : SeedSelector)
    (cand : Candidates) : option (result GreedyState) :=
  let '(istart, sel') := get_next_seed sel L in
  seed_loop seeds istart (mk_greedy L sel' cand [] 0 []).
End Greedy.

Arguments mk_greedy {CL SeedSelector Candidates}.
Arguments g_cl {CL SeedSelector Candidates}.
Arguments g_selector {CL SeedSelector Candidates}.
Arguments g_candidates {CL SeedSelector Candidates}.
Arguments num_used_type_instances {CL SeedSelector Candidates}.
Arguments total_clb_num {CL SeedSelector Candidates}.
Arguments g_attempts {CL SeedSelector Candidates}.

(* ================================================================= *)
(** ** The legality oracle of the spec *)

Module SpecOracle.

(** What the architecture decides about a would-be cluster: the cheap
    tier ("capacity/pin feasibility only, no internal-wiring check"), the
    internal routing that the strict tier adds, which block types may
    hold a molecule, and the physical-block tree of a cluster. *)
Record Rules := mk_rules
  { feasible : t_logical_block_type_ptr -> nat -> list PackMoleculeId -> bool;
    routable : t_logical_block_type_ptr -> nat -> list PackMoleculeId -> bool;
    compatible : PackMoleculeId -> t_logical_block_type_ptr -> bool;
    pb_of : t_logical_block_type_ptr -> nat -> list PackMoleculeId -> t_pb;
    atom_molecule : AtomBlockId -> PackMoleculeId }.

Record LegalizationCluster := mk_cluster
  { lc_type : t_logical_block_type_ptr;
    lc_mode : nat;
    lc_molecules : list PackMoleculeId;
    lc_cleaned : bool }.

(** The clusters by id; a destroyed cluster leaves [None] until
    [compress]. *)
Record Legalizer := mk_legalizer
  { sl_strategy : ClusterLegalizationStrategy;
    sl_clusters : list (option LegalizationCluster) }.

Definition cluster_at (id : LegalizationClusterId) (L : Legalizer)
    : option LegalizationCluster :=
  match nth_error (sl_clusters L) id with
  | Some (Some c) => Some c
  | _ => None
  end.

Definition holds (mol : PackMoleculeId) (oc : option LegalizationCluster)
    : bool :=
  match oc with
  | Some c => mol_mem mol (lc_molecules c)
  | None => false
  end.

Definition mol_clustered (mol : PackMoleculeId) (L : Legalizer) : bool :=
  existsb (holds mol) (sl_clusters L).

Fixpoint replace_at {A} (n : nat) (a : A) (l : list A) : list A :=
  match l, n with
  | [], _ => []
  | _ :: rest, O => a :: rest
  | x :: rest, S n' => x :: replace_at n' a rest
  end.

Fixpoint index_of (f : option LegalizationCluster -> bool)
    (l : list (option LegalizationCluster)) (i : nat) : option nat :=
  match l with
  | [] => None
  | oc :: rest => if f oc then Some i else index_of f rest (S i)
  end.

Section Operations.
Variable rules : Rules.

(** What an addition is checked against under each strategy. *)
Definition tier_status (s : ClusterLegalizationStrategy)
    (t : t_logical_block_type_ptr) (mode : nat)
    (mols : list PackMoleculeId) : e_block_pack_status :=
  if negb (feasible rules t mode mols) then BLK_FAILED_FEASIBLE
  else
    match s with
    | SKIP_INTRA_LB_ROUTE => BLK_PASSED
    | FULL => if routable rules t mode mols then BLK_PASSED
              else BLK_FAILED_ROUTE
    end.

Definition start (mol : PackMoleculeId) (t : t_logical_block_type_ptr)
    (mode : nat) (L : Legalizer)
    : e_block_pack_status * LegalizationClusterId * Legalizer :=
  if mol_clustered mol L then (BLK_FAILED_FEASIBLE, 0%nat, L)
  else
    match tier_status (sl_strategy L) t mode [mol] with
    | BLK_PASSED =>
        (BLK_PASSED, List.length (sl_clusters L),
         mk_legalizer (sl_strategy L)
           (sl_clusters L ++ [Some (mk_cluster t mode [mol] false)]))
    | status => (status, 0%nat, L)
    end.

Definition add (mol : PackMoleculeId) (id : LegalizationClusterId)
    (L : Legalizer) : e_block_pack_status * Legalizer :=
  match cluster_at id L with
  | None => (BLK_FAILED_FEASIBLE, L)
  | Some c =>
      if mol_clustered mol L then (BLK_FAILED_FEASIBLE, L)
      else
        let mols := lc_molecules c ++ [mol] in
        match tier_status (sl_strategy L) (lc_type c) (lc_mode c) mols with
        | BLK_PASSED =>
            (BLK_PASSED,
             mk_legalizer (sl_strategy L)
               (replace_at id
                  (Some (mk_cluster (lc_type c) (lc_mode c) mols
                                    (lc_cleaned c)))
                  (sl_clusters L)))
        | status => (status, L)
        end
  end.

Definition check (id : LegalizationClusterId) (L : Legalizer) : bool :=
  match cluster_at id L with
  | Some c => routable rules (lc_type c) (lc_mode c) (lc_molecules c)
  | None => false
  end.

Definition clean (id : LegalizationClusterId) (L : Legalizer) : Legalizer :=
  match cluster_at id L with
  | Some c =>
      mk_legalizer (sl_strategy L)
        (replace_at id
           (Some (mk_cluster (lc_type c) (lc_mode c) (lc_molecules c) true))
           (sl_clusters L))
  | None => L
  end.

Definition destroy (id : LegalizationClusterId) (L : Legalizer)
    : Legalizer :=
  mk_legalizer (sl_strategy L) (replace_at id None (sl_clusters L)).

Definition is_live (oc : option LegalizationCluster) : bool :=
  match oc with Some _ => true | None => false end.

Definition compress_ids (L : Legalizer) : Legalizer :=
  mk_legalizer (sl_strategy L) (filter is_live (sl_clusters L)).

Definition set_strategy (s : ClusterLegalizationStrategy) (L : Legalizer)
    : Legalizer :=
  mk_legalizer s (sl_clusters L).

Definition molecules (id : LegalizationClusterId) (L : Legalizer)
    : list PackMoleculeId :=
  match cluster_at id L with
  | Some c => lc_molecules c
  | None => []
  end.

Definition type_of (id : LegalizationClusterId) (L : Legalizer)
    : t_logical_block_type_ptr :=
  match cluster_at id L with
  | Some c => lc_type c
  | None => 0%nat
  end.

Definition pb (id : LegalizationClusterId) (L : Legalizer) : option t_pb :=
  match cluster_at id L with
  | Some c => Some (pb_of rules (lc_type c) (lc_mode c) (lc_molecules c))
  | None => None
  end.

Definition atom_cluster (a : AtomBlockId) (L : Legalizer)
    : option LegalizationClusterId :=
  index_of (holds (atom_molecule rules a)) (sl_clusters L) 0.

Definition live_clusters (L : Legalizer) : nat :=
  List.length (filter is_live (sl_clusters L)).

(** Modelled from the spec: the LegalityOracle (ClusterLegalizer of
    cluster_legalizer.cpp, which is not among the sources), by the
    interface of section 6.  A start or an addition passes when the
    cluster it would give passes the tier of the current strategy and
    then takes effect, and changes nothing otherwise; the strict check
    is the internal routing of the members; a destroyed cluster gives
    its members back to the unclustered pool. *)
#[export] Instance oracle : ClusterLegalizer Legalizer :=
  {| start_new_cluster := start;
     add_mol_to_cluster := add;
     is_molecule_compatible := fun mol id L =>
       match cluster_at id L with
       | Some c => compatible rules mol (lc_type c)
       | None => false
       end;
     is_mol_clustered := mol_clustered;
     check_cluster_legality := check;
     clean_cluster := clean;
     destroy_cluster := destroy;
     compress := compress_ids;
     set_legalization_strategy := set_strategy;
     get_cluster_molecules := molecules;
     get_cluster_type := type_of;
     get_cluster_pb := pb;
     get_atom_cluster := atom_cluster;
     num_clusters := live_clusters |}.

(** Every finalized (cleaned) cluster passes the strict check. *)
Definition finalized_legal (L : Legalizer) : Prop :=
  forall id c,
    cluster_at id L = Some c -> lc_cleaned c = true -> check id L = true.

(** The same, cluster by cluster. *)
Definition cluster_ok (oc : option LegalizationCluster) : Prop :=
  match oc with
  | Some c =>
      lc_cleaned c = true ->
      routable rules (lc_type c) (lc_mode c) (lc_molecules c) = true
  | None => True
  end.

(** The cluster under construction is the last one started, after the
    clusters [base]: it has the type [t], is not cleaned, and routes
    internally when it was built under the strategy FULL. *)
Definition growing (base : list (option LegalizationCluster))
    (s : ClusterLegalizationStrategy) (t : t_logical_block_type_ptr)
    (L : Legalizer) : Prop :=
  sl_strategy L = s
  /\ exists c,
      sl_clusters L = base ++ [Some c]
      /\ lc_type c = t
      /\ lc_cleaned c = false
      /\ (s = FULL ->
          routable rules (lc_type c) (lc_mode c) (lc_molecules c) = true).
End Operations.

(** The legalizer as constructed. *)
Definition empty (s : ClusterLegalizationStrategy) : Legalizer :=
  mk_legalizer s [].
End SpecOracle.

(* ================================================================= *)
(** ** The relocation search as a sequence of candidate sites

    The words of the specification: rings of growing Manhattan distance
    around the desired location, up to max(width, height); in a ring the
    offsets in a fixed order; the first admissible (site, sub-tile) pair is
    claimed. *)

Section SearchOrder.
Variable arch : Arch.
Variable grid : DeviceGrid.

Definition manhattan (orig : t_physical_tile_loc) (loc : t_pl_loc) : Z :=
  Z.abs (pl_x loc - tl_x orig) + Z.abs (pl_y loc - tl_y orig).

Definition tile_of (loc : t_pl_loc) : t_physical_tile_loc :=
  mk_tile_loc (pl_x loc) (pl_y loc) (pl_layer loc).

(** The sub-tiles of the tile at offset [d] of [orig], in increasing order. *)
Definition sites_at (orig : t_physical_tile_loc) (d : Z * Z) : list t_pl_loc :=
  let tile :=
    mk_tile_loc (tl_x orig + fst d) (tl_y orig + snd d) (tl_layer_num orig) in
  map (fun s => mk_pl_loc (tl_x tile) (tl_y tile) s (tl_layer_num tile))
      (zseq 0 (Z.to_nat (capacity (get_physical_type grid tile)))).

Definition ring_candidates (orig : t_physical_tile_loc) (r : Z)
    : list t_pl_loc :=
  flat_map (sites_at orig) (ring_offsets r).

Definition candidates (orig : t_physical_tile_loc) : list t_pl_loc :=
  flat_map (ring_candidates orig) (zrange 0 (max_search_radius grid)).

(** A candidate is admissible when it is on the device, its tile accepts
    the type of the cluster and is a root tile, and the sub-tile is not
    bound yet. *)
Definition admissible (tbl : PlacedTable)
    (cluster_type : t_logical_block_type_ptr) (loc : t_pl_loc) : bool :=
  negb ((pl_x loc <? 0) || (pl_y loc <? 0)
        || (pl_x loc >=? width grid) || (pl_y loc >=? height grid))
  && is_tile_compatible arch (get_physical_type grid (tile_of loc)) cluster_type
  && is_root_tile grid (tile_of loc)
  && negb (tbl_count loc tbl).
End SearchOrder.

(** [clustered_molecules] only gained members from [cm] to [cm']. *)
Definition grows (cm cm' : list PackMoleculeId) : Prop :=
  forall m, mol_mem m cm = true -> mol_mem m cm' = true.

(* ================================================================= *)
(** ** The probing order of create_new_cluster, as a step relation *)

Section ProbeOrder.
Context {CL : Type} `{ClusterLegalizer CL}.

(** The (block type, mode) pairs of a candidate list, in table order: the
    types as listed, the modes of a type from 0 up. *)
Definition candidate_pairs (arch : Arch)
    (types : list t_logical_block_type_ptr)
    : list (t_logical_block_type_ptr * nat) :=
  flat_map (fun t => map (pair t) (seq 0 (num_modes arch t))) types.

(** [probes mol pairs L r L']: starting from the legalizer [L], the start
    operation is tried on the pairs in order; [r] is the cluster of the
    first start that passes, after the starts before it all failed, or
    [None] when every start failed; [L'] is the legalizer left. *)
Inductive probes (mol : PackMoleculeId)
    : list (t_logical_block_type_ptr * nat) -> CL ->
      option LegalizationClusterId -> CL -> Prop :=
  | probes_none L : probes mol [] L None L
  | probes_hit t mode rest L id L' :
      start_new_cluster mol t mode L = (BLK_PASSED, id, L') ->
      probes mol ((t, mode) :: rest) L (Some id) L'
  | probes_miss t mode rest L status id0 L1 r L' :
      start_new_cluster mol t mode L = (status, id0, L1) ->
      is_passed status = false ->
      probes mol rest L1 r L' ->
      probes mol ((t, mode) :: rest) L r L'.
End ProbeOrder.

(* ================================================================= *)
(** ** A block-location registry *)

Module SimpleRegistry.
(** [block_locs]: the location of each placed block. *)
Definition Registry := list (ClusterBlockId * t_pl_loc).

Definition placed (clb : ClusterBlockId) (reg : Registry) : bool :=
  acount Nat.eqb clb reg.

Definition taken (loc : t_pl_loc) (reg : Registry) : bool :=
  existsb (fun e => pl_loc_eqb loc (snd e)) reg.

Definition member_loc (head : t_pl_loc) (m : t_pl_macro_member) : t_pl_loc :=
  mk_pl_loc (pl_x head + off_x (offset m)) (pl_y head + off_y (offset m))
            (pl_sub_tile head + off_sub_tile (offset m))
            (pl_layer head + off_layer (offset m)).

(** Every member at its offset of the head location, or nothing at all. *)
Definition place_macro (pl_macro : t_pl_macro) (head : t_pl_loc)
    (reg : Registry) : bool * Registry :=
  if forallb (fun m => negb (taken (member_loc head m) reg)
                       && negb (placed (blk_index m) reg)) pl_macro
  then (true, reg ++ map (fun m => (blk_index m, member_loc head m)) pl_macro)
  else (false, reg).

Section Exhaustive.
Variable grid : DeviceGrid.

Definition region_sites (r : Region) : list t_pl_loc :=
  flat_map
    (fun xy =>
       let tile := mk_tile_loc (fst xy) (snd xy) (r_layer r) in
       map (fun s => mk_pl_loc (fst xy) (snd xy) s (r_layer r))
           (zseq 0 (Z.to_nat (capacity (get_physical_type grid tile)))))
    (list_prod (zrange (r_xmin r) (r_xmax r)) (zrange (r_ymin r) (r_ymax r))).

Definition place_macro_exhaustively (pl_macro : t_pl_macro)
    (pr : PartitionRegion) (reg : Registry) : bool * Registry :=
  match find_first
          (fun loc =>
             match place_macro pl_macro loc reg with
             | (true, reg') => Some reg'
             | (false, _) => None
             end)
          (flat_map region_sites pr) with
  | Some reg' => (true, reg')
  | None => (false, reg)
  end.

(** Modelled from the spec: [is_block_placed], [try_place_macro] and
    [try_place_macro_exhaustively] (initial_placement.cpp is not among the
    sources): a successful placement "binds every member of the macro
    atomically, honoring fixed relative offsets"; the exhaustive one
    "searches the cluster's entire legal region ... for any free ... site"
    and "fails only once the entire region is exhausted". *)
#[export] Instance registry : BlkLocRegistry Registry :=
  {| is_block_placed := placed;
     try_place_macro := place_macro;
     try_place_macro_exhaustively := fun pl_macro pr _ _ reg =>
       place_macro_exhaustively pl_macro pr reg |}.
End Exhaustive.
End SimpleRegistry.

(* ================================================================= *)
(** ** Concrete devices, netlists and oracles used below *)

Module Fixture.
(** One tile type of capacity 2 with sub-tiles; every tile is a root. *)
Definition clb_tile : t_physical_tile_type := mk_tile_type 0 2 1.

Definition grid (w h : Z) : DeviceGrid :=
  mk_grid w h (fun _ => clb_tile) (fun _ => 0) (fun _ => 0).

Definition origin : t_physical_tile_loc := mk_tile_loc 0 0 0.

(** Two block types with one mode each; the tiles accept type 1 only.
    Primitives of model 0 fit type 1; primitives of model 1 fit types 0
    and 1, in this order of preference; model 2 fits nothing. *)
Definition arch : Arch :=
  mk_arch (fun _ => 1%nat)
          (fun _ bt => Nat.eqb bt 1)
          (fun model =>
             match model with
             | O => [1%nat]
             | S O => [0%nat; 1%nat]
             | _ => []
             end).

(** Molecules of one atom each, the atom carrying the id of its molecule;
    the molecule [m] has the model [m]; one AP block per molecule. *)
Definition netlist (blocks : list APBlockId) : Netlist :=
  mk_netlist (fun m => Some m) (fun m => [Some m]) (fun a => Some a)
             blocks (fun b => b).

(** The same with every molecule of model 1, whose first candidate type
    the tiles do not accept. *)
Definition netlist_model1 (blocks : list APBlockId) : Netlist :=
  mk_netlist (fun m => Some m) (fun m => [Some m]) (fun _ => Some 1%nat)
             blocks (fun b => b).

(** A cluster holds up to two molecules and has an empty primitive while
    it holds fewer; [route] says which clusters route internally. *)
Definition rules (route : list PackMoleculeId -> bool) : SpecOracle.Rules :=
  SpecOracle.mk_rules
    (fun _ _ mols => Nat.leb (List.length mols) 2)
    (fun _ _ mols => route mols)
    (fun _ _ => true)
    (fun _ _ mols =>
       Pb 0 (if Nat.ltb (List.length mols) 2 then None else Some "full"%string)
          None)
    (fun a => a).

Definition empty_state (s : ClusterLegalizationStrategy)
    : PackState SpecOracle.Legalizer :=
  mk_pack (SpecOracle.empty s) [] [] [] [] [] [] 0%nat.

(** Every block is hinted to the origin. *)
Definition at_origin : PartialPlacement := mk_pp (fun _ => origin).

(** A seed selector that hands out the seeds of a list in order, and a
    candidate source that hands out the molecules of a list in order. *)
Definition next_of_list {A} (l : list PackMoleculeId) (_ : A)
    : option PackMoleculeId * list PackMoleculeId :=
  match l with
  | [] => (None, [])
  | m :: rest => (Some m, rest)
  end.

Definition candidate_of_list {A} (_ : LegalizationClusterId) (_ : A)
    (l : list PackMoleculeId) : option PackMoleculeId * list PackMoleculeId :=
  match l with
  | [] => (None, [])
  | m :: rest => (Some m, rest)
  end.

Definition greedy_start (cand : list PackMoleculeId)
    : GreedyState (CL := SpecOracle.Legalizer) (list PackMoleculeId)
                  (list PackMoleculeId) :=
  mk_greedy (SpecOracle.empty SKIP_INTRA_LB_ROUTE) [] cand [] 0 [].

(** No macros; the cluster 0 is constrained to the tile (0, 0) of layer 0. *)
Definition no_macros : PlaceMacros := mk_macros (fun _ => -1) (fun _ => []).

Definition floorplan : Floorplanning :=
  mk_floorplan (fun clb => Nat.eqb clb 0)
               (fun _ => [mk_region 0 0 0 0 0]).

(** Four clusters of type 1, the first two bound to the two sub-tiles of
    the origin. *)
Definition four_clusters : SpecOracle.Legalizer :=
  SpecOracle.mk_legalizer FULL
    (map (fun m => Some (SpecOracle.mk_cluster 1%nat 0%nat [m] true))
         [0%nat; 1%nat; 2%nat; 3%nat]).

Definition origin_full : PlacedTable :=
  [(mk_pl_loc 0 0 1 0, 1%nat); (mk_pl_loc 0 0 0 0, 0%nat)].

(** Both sub-tiles of every tile within Manhattan distance 2 of the origin
    are bound. *)
Definition radius2_full : PlacedTable :=
  flat_map (fun xy => [(mk_pl_loc (fst xy) (snd xy) 0 0, 0%nat);
                       (mk_pl_loc (fst xy) (snd xy) 1 0, 0%nat)])
           [(0, 0); (0, 1); (1, 0); (0, 2); (1, 1); (2, 0)].
End Fixture.

(* ================================================================= *)
(** ** Further definitions used by the properties below *)

(** The sites a relocation search around [orig] ranges over: the layer of
    [orig], tiles at a Manhattan distance of at most max(width, height),
    sub-tiles below the capacity of the tile. *)
Definition in_search_domain (grid : DeviceGrid) (orig : t_physical_tile_loc)
    (loc : t_pl_loc) : Prop :=
  pl_layer loc = tl_layer_num orig
  /\ manhattan orig loc <= max_search_radius grid
  /\ 0 <= pl_sub_tile loc < capacity (get_physical_type grid (tile_of loc)).

(** [x < 0 || y < 0 || x >= width || y >= height] does not hold. *)
Definition on_device (grid : DeviceGrid) (loc : t_pl_loc) : Prop :=
  0 <= pl_x loc < width grid /\ 0 <= pl_y loc < height grid.

(** [total_unplaced_clusters] and [num_unplaced_tiles] as
    pack_recontruction_pass computes them for its log: the sum of the sizes
    of the vectors of the map, and the number of its keys. *)
Definition total_unplaced_clusters (m : UnplacedMap) : nat :=
  fold_left (fun total entry => (total + List.length (snd entry))%nat) m 0%nat.

Definition num_unplaced_tiles (m : UnplacedMap) : nat := List.length m.

(** What holds of a binding [b] that a relocation search made for a cluster
    of the map [unplaced]. *)
Definition bound_by_search {CL : Type} `{ClusterLegalizer CL} (arch : Arch)
    (grid : DeviceGrid) (L : CL) (tbl : PlacedTable) (unplaced : UnplacedMap)
    (b : t_pl_loc * LegalizationClusterId) : Prop :=
  (exists orig cs,
      In (orig, cs) unplaced /\ In (snd b) cs
      /\ in_search_domain grid orig (fst b))
  /\ on_device grid (fst b)
  /\ is_tile_compatible arch (get_physical_type grid (tile_of (fst b)))
       (get_cluster_type (snd b) L) = true
  /\ is_root_tile grid (tile_of (fst b)) = true
  /\ tbl_find (fst b) tbl = None.

(** The sum of a weight over the values of a map. *)
Definition sum_weights {K V} (weight : V -> nat) (m : list (K * V)) : nat :=
  list_sum (map (fun e => weight (snd e)) m).

(** The map of unplaced clusters as the neighbor passes build it with
    [push_back]: one entry per tile, no empty vector, no cluster twice in a
    vector. *)
Definition unplaced_wf (m : UnplacedMap) : Prop :=
  NoDup (map fst m)
  /\ Forall (fun e => snd e <> [] /\ NoDup (snd e)) m.

(** The order the comparator of the sort asks for: [a] is not behind [b]
    when the molecule of [b] has at most the external inputs of that of
    [a]. *)
Definition ext_inps_descending (nl : Netlist) (ext_inps : PackMoleculeId -> Z)
    (a b : APBlockId) : Prop :=
  ext_inps (block_molecule nl b) <= ext_inps (block_molecule nl a).

(** The atoms of a molecule whose id is valid. *)
Definition valid_atom_ids (atoms : list (option AtomBlockId))
    : list AtomBlockId :=
  flat_map (fun a => match a with Some x => [x] | None => [] end) atoms.

(** The valid atoms of the molecules of [blocks], in the order the loops
    over the AP blocks and their [atom_block_ids] reach them. *)
Definition valid_atoms (nl : Netlist) (blocks : list APBlockId)
    : list AtomBlockId :=
  flat_map (fun b => valid_atom_ids (atom_block_ids nl (block_molecule nl b)))
           blocks.

(** A sub-tile of [tile_loc] that the loop
    [for (sub_tile = 0; sub_tile < capacity; ++sub_tile)] reaches: the loop
    is left at once on a tile that is not a root tile. *)
Definition reached_sub_tile (grid : DeviceGrid) (cap : Z)
    (tile_loc : t_physical_tile_loc) (loc : t_pl_loc) : Prop :=
  mk_tile_loc (pl_x loc) (pl_y loc) (pl_layer loc) = tile_loc
  /\ 0 <= pl_sub_tile loc < cap
  /\ is_root_tile grid tile_loc = true.

(** What the direct pass may change while it works on the tiles [tiles]:
    bindings of the table are old or on a reached sub-tile of one of the
    tiles, deferred molecules are appended with one of the tiles, and the
    map of unplaced clusters stays as it is. *)
Definition direct_pass_frame {CL : Type} (grid : DeviceGrid)
    (tiles : list t_physical_tile_loc) (st st' : PackState CL) : Prop :=
  (forall b, In b (loc_to_cluster_id_placed st') ->
             In b (loc_to_cluster_id_placed st)
             \/ exists tile_loc,
                  In tile_loc tiles
                  /\ reached_sub_tile grid
                       (capacity (get_physical_type grid tile_loc))
                       tile_loc (fst b))
  /\ (exists deferred,
        unclustered_blocks st' = unclustered_blocks st ++ deferred
        /\ Forall (fun e => In (snd e) tiles) deferred)
  /\ cluster_id_to_loc_unplaced st' = cluster_id_to_loc_unplaced st.

(* ================================================================= *)
(** ** NaiveFullLegalizer::create_clusters: the clusters of a tile *)

(** A cluster the loop has created: its id, its seed and the molecules
    erased from [mol_list] after they were added to it.  The source keeps
    no such record; it is what the statements about the loop speak of. *)
Record NaiveCluster := mk_naive_cluster
  { nc_id : LegalizationClusterId;
    nc_seed : PackMoleculeId;
    nc_added : list PackMoleculeId }.

Definition nc_molecules (c : NaiveCluster) : list PackMoleculeId :=
  nc_seed c :: nc_added c.

Section NaiveFullLegalizer.
Context {CL : Type} `{ClusterLegalizer CL}.
Variable arch : Arch.
Variable nl : Netlist.

(** [while (it != mol_list.end())]: a molecule that is compatible and whose
    addition passes is erased from the list, every other one stays.  The
    result is the list that is left, the molecules erased and the
    legalizer. *)
Fixpoint insert_molecules (new_cluster_id : LegalizationClusterId)
    (mol_list : list PackMoleculeId) (L : CL)
    : list PackMoleculeId * list PackMoleculeId * CL :=
  match mol_list with
  | [] => ([], [], L)
  | mol_id :: rest =>
      if negb (is_molecule_compatible mol_id new_cluster_id L) then
        let '(kept, erased, L') := insert_molecules new_cluster_id rest L in
        (mol_id :: kept, erased, L')
      else
        let '(pack_status, L1) := add_mol_to_cluster mol_id new_cluster_id L in
        if is_passed pack_status then
          let '(kept, erased, L') := insert_molecules new_cluster_id rest L1 in
          (kept, mol_id :: erased, L')
        else
          let '(kept, erased, L') := insert_molecules new_cluster_id rest L1 in
          (mol_id :: kept, erased, L')
  end.

(** [while (!mol_list.empty())]: the front molecule is the seed of a new
    cluster, which takes what it can of the rest and is cleaned.  [fuel]
    bounds the number of clusters; [None] says that it was too small. *)
Fixpoint cluster_mol_list (fuel : nat) (mol_list : list PackMoleculeId)
    (L : CL) (created : list NaiveCluster)
    : option (result (CL * list NaiveCluster)) :=
  match mol_list with
  | [] => Some (Ok (L, created))
  | seed_mol_id :: rest =>
      match fuel with
      | O => None
      | S fuel' =>
          match create_new_cluster arch nl seed_mol_id L with
          | Fatal e => Some (Fatal e)
          | Ok (new_cluster_id, L1) =>
              let '(kept, erased, L2) :=
                insert_molecules new_cluster_id rest L1 in
              cluster_mol_list fuel' kept (clean_cluster new_cluster_id L2)
                (created
                 ++ [mk_naive_cluster new_cluster_id seed_mol_id erased])
          end
      end
  end.

(** The body of [for (tile_id_idx = 0; tile_id_idx < num_device_tiles;
    tile_id_idx++)] on the blocks of one tile. *)
Definition cluster_tile (blocks_in_tile : list APBlockId) (L : CL)
    (created : list NaiveCluster)
    : option (result (CL * list NaiveCluster)) :=
  let mol_list := map (block_molecule nl) blocks_in_tile in
  cluster_mol_list (List.length mol_list) mol_list L created.

(** The loop over the tiles, on [blocks_in_tiles] in the order of the
    tile ids. *)
Fixpoint cluster_tiles (blocks_in_tiles : list (list APBlockId)) (L : CL)
    (created : list NaiveCluster)
    : option (result (CL * list NaiveCluster)) :=
  match blocks_in_tiles with
  | [] => Some (Ok (L, created))
  | blocks_in_tile :: rest =>
      match cluster_tile blocks_in_tile L created with
      | Some (Ok (L', created')) => cluster_tiles rest L' created'
      | other => other
      end
  end.
End NaiveFullLegalizer.

(** A map from tiles to vectors with one entry per tile and no empty
    vector: what [m[tile].push_back(v)] builds and what an [erase] of a
    tile whose vector became empty keeps. *)
Definition tile_map_wf {V : Type} (m : list (t_physical_tile_loc * list V))
    : Prop :=
  NoDup (map fst m) /\ Forall (fun e => snd e <> []) m.

(** [cluster_id_to_loc_unplaced[tile].push_back(cluster)] for a sequence
    of (tile, cluster) pairs. *)
Definition push_all
    (recorded : list (t_physical_tile_loc * LegalizationClusterId))
    (m : UnplacedMap) : UnplacedMap :=
  fold_left (fun m e => apush tile_loc_eqb (fst e) (snd e) m) recorded m.

(** The shape of the attempts of do_clustering: for each seed a legal
    attempt under SKIP_INTRA_LB_ROUTE, or an illegal one followed by a
    legal one under FULL from the same seed. *)
Inductive two_tier_log : list Attempt -> Prop :=
  | two_tier_nil : two_tier_log []
  | two_tier_cheap (seed : PackMoleculeId) (id : LegalizationClusterId)
      (rest : list Attempt) :
      two_tier_log rest ->
      two_tier_log (mk_attempt seed SKIP_INTRA_LB_ROUTE id true :: rest)
  | two_tier_retry (seed : PackMoleculeId) (id id' : LegalizationClusterId)
      (rest : list Attempt) :
      two_tier_log rest ->
      two_tier_log (mk_attempt seed SKIP_INTRA_LB_ROUTE id false
                    :: mk_attempt seed FULL id' true :: rest).

Definition legal_attempts (log : list Attempt) : nat :=
  List.length (filter at_legal log).

(** Every binding of the table names a sub-tile that its tile has. *)
Definition table_in_range (grid : DeviceGrid) (tbl : PlacedTable) : Prop :=
  forall b, In b tbl ->
    0 <= pl_sub_tile (fst b)
      < capacity (get_physical_type grid (tile_of (fst b))).

(** [legalization_id_to_cluster_id] applied to the bindings of the
    table, as the first loop of place_clusters does. *)
Definition clusters_of_table (legalization_id_to_cluster_id :
                                LegalizationClusterId -> ClusterBlockId)
    (tbl : PlacedTable) : list (t_pl_loc * ClusterBlockId) :=
  map (fun b => (fst b, legalization_id_to_cluster_id (snd b))) tbl.

(* ================================================================= *)
(** * Properties *)

(** ** Equality tests and containers *)

Lemma pl_loc_eqb_eq (a b : t_pl_loc) : pl_loc_eqb a b = true <-> a = b.
Proof.
  destruct a, b; unfold pl_loc_eqb; simpl.
  rewrite !andb_true_iff, !Z.eqb_eq.
  split; [intros [[[-> ->] ->] ->]; reflexivity | intros E; inversion E; auto].
Qed.

Lemma tile_loc_eqb_eq (a b : t_physical_tile_loc) :
  tile_loc_eqb a b = true <-> a = b.
Proof.
  destruct a, b; unfold tile_loc_eqb; simpl.
  rewrite !andb_true_iff, !Z.eqb_eq.
  split; [intros [[-> ->] ->]; reflexivity | intros E; inversion E; auto].
Qed.

Lemma tbl_find_none_not_in (loc : t_pl_loc) (tbl : PlacedTable) :
  tbl_find loc tbl = None -> ~ In loc (map fst tbl).
Proof.
  unfold tbl_find.
  induction tbl as [|[k v] tbl IH]; simpl; intros Hf; [tauto|].
  destruct (pl_loc_eqb loc k) eqn:E; [discriminate|].
  intros [->|Hin].
  - assert (pl_loc_eqb loc loc = true) by (apply pl_loc_eqb_eq; reflexivity).
    congruence.
  - exact (IH Hf Hin).
Qed.

Lemma tbl_count_false_not_in (loc : t_pl_loc) (tbl : PlacedTable) :
  tbl_count loc tbl = false -> ~ In loc (map fst tbl).
Proof.
  unfold tbl_count, acount. intros Hc. apply tbl_find_none_not_in.
  unfold tbl_find. destruct (alookup pl_loc_eqb loc tbl); [discriminate|reflexivity].
Qed.

(** The list of bindings answers lookups as the map does. *)
Lemma tbl_find_bind_same (loc : t_pl_loc) (id : LegalizationClusterId)
    (tbl : PlacedTable) :
  tbl_find loc (tbl_bind loc id tbl) = Some id.
Proof.
  unfold tbl_find, tbl_bind. simpl.
  assert (E : pl_loc_eqb loc loc = true) by (now apply pl_loc_eqb_eq).
  rewrite E. reflexivity.
Qed.

Lemma tbl_find_bind_other (loc loc' : t_pl_loc) (id : LegalizationClusterId)
    (tbl : PlacedTable) :
  loc' <> loc -> tbl_find loc' (tbl_bind loc id tbl) = tbl_find loc' tbl.
Proof.
  intros Hne. unfold tbl_find, tbl_bind. simpl.
  destruct (pl_loc_eqb loc' loc) eqn:E; [|reflexivity].
  apply pl_loc_eqb_eq in E. contradiction.
Qed.

Lemma tbl_find_erase (loc loc' : t_pl_loc) (tbl : PlacedTable) :
  tbl_find loc' (tbl_erase loc tbl)
  = if pl_loc_eqb loc loc' then None else tbl_find loc' tbl.
Proof.
  unfold tbl_find, tbl_erase, aerase.
  induction tbl as [|[k v] tbl IH]; simpl.
  - destruct (pl_loc_eqb loc loc'); reflexivity.
  - destruct (pl_loc_eqb loc k) eqn:Ek; simpl.
    + rewrite IH. destruct (pl_loc_eqb loc loc') eqn:El; [reflexivity|].
      destruct (pl_loc_eqb loc' k) eqn:E'; [|reflexivity].
      apply pl_loc_eqb_eq in Ek, E'. subst.
      assert (pl_loc_eqb k k = true) by (now apply pl_loc_eqb_eq). congruence.
    + rewrite IH. destruct (pl_loc_eqb loc' k) eqn:E'; [|reflexivity].
      apply pl_loc_eqb_eq in E'. subst. rewrite Ek. reflexivity.
Qed.

Lemma table_wf_bind (loc : t_pl_loc) (id : LegalizationClusterId)
    (tbl : PlacedTable) :
  table_wf tbl -> ~ In loc (map fst tbl) -> table_wf (tbl_bind loc id tbl).
Proof. intros Hwf Hn. unfold table_wf, tbl_bind. simpl. constructor; assumption. Qed.

Lemma keys_NoDup_filter {K V} (keep : K * V -> bool) (m : list (K * V)) :
  NoDup (map fst m) -> NoDup (map fst (filter keep m)).
Proof.
  induction m as [|[k v] m IH]; simpl; intros Hnd; [constructor|].
  inversion Hnd as [|? ? Hn Hnd']; subst.
  destruct (keep (k, v)); simpl; [constructor|]; auto.
  intros Hin. apply Hn. apply in_map_iff in Hin as (x & Hx & Hin).
  apply in_map_iff. exists x. split; [exact Hx|].
  apply filter_In in Hin. tauto.
Qed.

Lemma table_wf_erase (loc : t_pl_loc) (tbl : PlacedTable) :
  table_wf tbl -> table_wf (tbl_erase loc tbl).
Proof. apply keys_NoDup_filter. Qed.

(** In a table without duplicate keys, a location has one cluster. *)
Lemma table_wf_functional (tbl : PlacedTable) :
  table_wf tbl ->
  forall loc c1 c2, In (loc, c1) tbl -> In (loc, c2) tbl -> c1 = c2.
Proof.
  unfold table_wf.
  induction tbl as [|[k v] tbl IH]; simpl; intros Hnd loc c1 c2 H1 H2; [tauto|].
  inversion Hnd as [|? ? Hn Hnd']; subst.
  destruct H1 as [E1|H1], H2 as [E2|H2].
  - congruence.
  - inversion E1; subst. exfalso. apply Hn.
    change loc with (fst (loc, c2)). now apply in_map.
  - inversion E2; subst. exfalso. apply Hn.
    change loc with (fst (loc, c1)). now apply in_map.
  - eauto.
Qed.

(** ** Loops that stop at the first hit *)

Lemma find_first_flat_map {A B C} (g : B -> option C) (h : A -> list B)
    (l : list A) :
  find_first g (flat_map h l) = find_first (fun a => find_first g (h a)) l.
Proof.
  induction l as [|a l IH]; simpl; [reflexivity|].
  rewrite <- IH. clear IH.
  induction (h a) as [|b bs IHb]; simpl; [reflexivity|].
  destruct (g b); [reflexivity|exact IHb].
Qed.

Lemma find_first_filter {A B} (p : A -> bool) (f : A -> option B) (l : list A) :
  find_first (fun a => if p a then f a else None) l = find_first f (filter p l).
Proof.
  induction l as [|a l IH]; simpl; [reflexivity|].
  destruct (p a); simpl; rewrite IH; reflexivity.
Qed.

Lemma find_first_map {A B C} (h : A -> B) (f : B -> option C) (l : list A) :
  find_first f (map h l) = find_first (fun a => f (h a)) l.
Proof.
  induction l as [|a l IH]; simpl; [reflexivity|]. rewrite IH. reflexivity.
Qed.

Lemma find_first_ext {A B} (f g : A -> option B) (l : list A) :
  (forall a, In a l -> f a = g a) -> find_first f l = find_first g l.
Proof.
  induction l as [|a l IH]; simpl; intros He; [reflexivity|].
  rewrite (He a) by auto. rewrite IH by auto. reflexivity.
Qed.

Lemma find_first_find {A} (p : A -> bool) (l : list A) :
  find_first (fun a => if p a then Some a else None) l = find p l.
Proof.
  induction l as [|a l IH]; simpl; [reflexivity|].
  destruct (p a); [reflexivity|exact IH].
Qed.

Lemma find_first_app {A B} (f : A -> option B) (l1 l2 : list A) :
  find_first f (l1 ++ l2)
  = match find_first f l1 with Some b => Some b | None => find_first f l2 end.
Proof.
  induction l1 as [|a l1 IH]; simpl; [reflexivity|].
  destruct (f a); [reflexivity|exact IH].
Qed.

Lemma find_first_prod {A B C} (f : A -> B -> option C) (xs : list A)
    (ys : list B) :
  find_first (fun x => find_first (fun y => f x y) ys) xs
  = find_first (fun d => f (fst d) (snd d)) (list_prod xs ys).
Proof.
  induction xs as [|x xs IH]; simpl; [reflexivity|].
  rewrite find_first_app, find_first_map, IH. reflexivity.
Qed.

Lemma zseq_In (lo : Z) (n : nat) (z : Z) :
  In z (zseq lo n) <-> lo <= z < lo + Z.of_nat n.
Proof.
  revert lo. induction n as [|n IH]; intros lo; simpl zseq.
  - simpl. lia.
  - simpl In. rewrite IH. lia.
Qed.

Lemma zrange_In (lo hi z : Z) : In z (zrange lo hi) <-> lo <= z <= hi.
Proof. unfold zrange. rewrite zseq_In. lia. Qed.

Lemma find_ext_in {A} (p q : A -> bool) (l : list A) :
  (forall a, In a l -> p a = q a) -> find p l = find q l.
Proof.
  induction l as [|a l IH]; simpl; intros He; [reflexivity|].
  rewrite (He a) by auto. rewrite IH by auto. reflexivity.
Qed.

Lemma find_none_all_false {A} (p : A -> bool) (l : list A) :
  (forall a, In a l -> p a = false) -> find p l = None.
Proof.
  induction l as [|a l IH]; simpl; intros He; [reflexivity|].
  rewrite (He a) by auto. auto.
Qed.

Lemma find_flat_map {A B} (p : B -> bool) (h : A -> list B) (l : list A) :
  find p (flat_map h l) = find_first (fun a => find p (h a)) l.
Proof.
  rewrite <- find_first_find, find_first_flat_map.
  apply find_first_ext. intros a _. apply find_first_find.
Qed.

(** ** Sortedness of sequences built ring by ring *)

Lemma StronglySorted_app {A} (R : A -> A -> Prop) (l1 l2 : list A) :
  StronglySorted R l1 -> StronglySorted R l2 ->
  (forall a b, In a l1 -> In b l2 -> R a b) ->
  StronglySorted R (l1 ++ l2).
Proof.
  induction l1 as [|x l1 IH]; simpl; intros H1 H2 H12; [assumption|].
  inversion H1 as [|? ? Hs Hf]; subst.
  constructor.
  - apply IH; auto.
  - apply Forall_app. split; [assumption|].
    apply Forall_forall. intros b Hb. apply H12; auto.
Qed.

Lemma StronglySorted_all {A} (R : A -> A -> Prop) (l : list A) :
  (forall a b, In a l -> In b l -> R a b) -> StronglySorted R l.
Proof.
  induction l as [|x l IH]; intros H; constructor.
  - apply IH. intros; apply H; simpl; auto.
  - apply Forall_forall. intros b Hb. apply H; simpl; auto.
Qed.

Lemma zseq_sorted (lo : Z) (n : nat) : StronglySorted Z.lt (zseq lo n).
Proof.
  revert lo. induction n as [|n IH]; intros lo; simpl; constructor.
  - apply IH.
  - apply Forall_forall. intros z Hz. apply zseq_In in Hz. lia.
Qed.

Lemma sorted_by_key_flat_map {A} (key : A -> Z) (h : Z -> list A)
    (rs : list Z) :
  StronglySorted Z.lt rs ->
  (forall r a, In a (h r) -> key a = r) ->
  StronglySorted (fun a b => key a <= key b) (flat_map h rs).
Proof.
  intros Hs Hk. induction Hs as [|r rs Hs IH Hf]; simpl; [constructor|].
  apply StronglySorted_app.
  - apply StronglySorted_all. intros a b Ha Hb.
    rewrite (Hk r a Ha), (Hk r b Hb). lia.
  - exact IH.
  - intros a b Ha Hb. apply in_flat_map in Hb as (r' & Hr' & Hb).
    rewrite (Hk r a Ha), (Hk r' b Hb).
    rewrite Forall_forall in Hf. specialize (Hf r' Hr'). lia.
Qed.

(** ** The relocation search *)

Section RelocationFacts.
Context {CL : Type} `{ClusterLegalizer CL}.
Variable arch : Arch.
Variable grid : DeviceGrid.

Lemma ring_offsets_distance (r : Z) (d : Z * Z) :
  In d (ring_offsets r) -> Z.abs (fst d) + Z.abs (snd d) = r.
Proof.
  unfold ring_offsets. intros Hin. apply filter_In in Hin as [_ Hd].
  now apply Z.eqb_eq.
Qed.

Lemma sites_at_shape (orig : t_physical_tile_loc) (d : Z * Z) (loc : t_pl_loc) :
  In loc (sites_at grid orig d) ->
  tile_of loc
  = mk_tile_loc (tl_x orig + fst d) (tl_y orig + snd d) (tl_layer_num orig).
Proof.
  unfold sites_at. intros Hin. apply in_map_iff in Hin as (s & <- & _).
  reflexivity.
Qed.

Lemma ring_candidates_distance (orig : t_physical_tile_loc) (r : Z)
    (loc : t_pl_loc) :
  In loc (ring_candidates grid orig r) -> manhattan orig loc = r.
Proof.
  unfold ring_candidates. intros Hin.
  apply in_flat_map in Hin as (d & Hd & Hloc).
  apply ring_offsets_distance in Hd.
  apply sites_at_shape in Hloc. unfold tile_of in Hloc.
  inversion Hloc as [[Hx Hy Hl]]. unfold manhattan. rewrite Hx, Hy.
  replace (tl_x orig + fst d - tl_x orig) with (fst d) by lia.
  replace (tl_y orig + snd d - tl_y orig) with (snd d) by lia.
  exact Hd.
Qed.

Lemma scan_sub_tiles_find (tbl : PlacedTable) (tile_loc : t_physical_tile_loc)
    (subs : list Z) :
  scan_sub_tiles grid tbl tile_loc subs
  = find (fun c => is_root_tile grid tile_loc && negb (tbl_count c tbl))
         (map (fun s => mk_pl_loc (tl_x tile_loc) (tl_y tile_loc) s
                                  (tl_layer_num tile_loc)) subs).
Proof.
  induction subs as [|s subs IH]; simpl; [reflexivity|].
  destruct (is_root_tile grid tile_loc) eqn:Hr; simpl.
  - destruct (tbl_count _ tbl); simpl; [exact IH|reflexivity].
  - symmetry. apply find_none_all_false. reflexivity.
Qed.

Lemma try_offset_find (tbl : PlacedTable) (ct : t_logical_block_type_ptr)
    (orig : t_physical_tile_loc) (r dx dy : Z) :
  try_offset arch grid tbl ct orig r dx dy
  = if Z.abs dx + Z.abs dy =? r
    then find (admissible arch grid tbl ct) (sites_at grid orig (dx, dy))
    else None.
Proof.
  unfold try_offset.
  destruct (Z.abs dx + Z.abs dy =? r); simpl; [|reflexivity].
  set (tile := mk_tile_loc (tl_x orig + dx) (tl_y orig + dy) (tl_layer_num orig)).
  assert (Hshape : forall loc, In loc (sites_at grid orig (dx, dy)) ->
                               tile_of loc = tile)
    by (intros loc Hl; apply (sites_at_shape orig (dx, dy) loc Hl)).
  assert (Hxy : forall loc, In loc (sites_at grid orig (dx, dy)) ->
                            pl_x loc = tl_x orig + dx /\ pl_y loc = tl_y orig + dy).
  { intros loc Hl. specialize (Hshape loc Hl). unfold tile_of, tile in Hshape.
    inversion Hshape. auto. }
  destruct ((tl_x orig + dx <? 0) || (tl_y orig + dy <? 0)
            || (tl_x orig + dx >=? width grid)
            || (tl_y orig + dy >=? height grid)) eqn:Hb.
  - symmetry. apply find_none_all_false. intros loc Hl.
    unfold admissible. destruct (Hxy loc Hl) as [-> ->]. rewrite Hb. reflexivity.
  - destruct (is_tile_compatible arch (get_physical_type grid tile) ct) eqn:Hc;
      simpl.
    + rewrite scan_sub_tiles_find. unfold sites_at. fold tile. simpl.
      apply find_ext_in. intros loc Hl.
      assert (Hl' : In loc (sites_at grid orig (dx, dy))) by exact Hl.
      unfold admissible. rewrite (Hshape loc Hl').
      destruct (Hxy loc Hl') as [-> ->]. rewrite Hb, Hc. reflexivity.
    + symmetry. apply find_none_all_false. intros loc Hl.
      unfold admissible. rewrite (Hshape loc Hl).
      destruct (Hxy loc Hl) as [-> ->]. rewrite Hb, Hc. reflexivity.
Qed.

Lemma scan_ring_find (tbl : PlacedTable) (ct : t_logical_block_type_ptr)
    (orig : t_physical_tile_loc) (r : Z) :
  scan_ring arch grid tbl ct orig r
  = find (admissible arch grid tbl ct) (ring_candidates grid orig r).
Proof.
  unfold scan_ring, ring_candidates, ring_offsets.
  rewrite find_first_prod, find_flat_map, <- find_first_filter.
  apply find_first_ext. intros [dx dy] _. simpl. apply try_offset_find.
Qed.

Lemma search_site_find (tbl : PlacedTable) (ct : t_logical_block_type_ptr)
    (orig : t_physical_tile_loc) :
  search_site arch grid tbl ct orig
  = find (admissible arch grid tbl ct) (candidates grid orig).
Proof.
  unfold search_site, candidates. rewrite find_flat_map.
  apply find_first_ext. intros r _. apply scan_ring_find.
Qed.

Lemma candidates_sorted (orig : t_physical_tile_loc) :
  StronglySorted (fun a b => manhattan orig a <= manhattan orig b)
                 (candidates grid orig).
Proof.
  unfold candidates. apply sorted_by_key_flat_map.
  - apply zseq_sorted.
  - intros r a. apply ring_candidates_distance.
Qed.

Lemma candidates_within_radius (orig : t_physical_tile_loc) :
  Forall (fun loc => 0 <= manhattan orig loc <= max_search_radius grid)
         (candidates grid orig).
Proof.
  apply Forall_forall. intros loc Hin. unfold candidates in Hin.
  apply in_flat_map in Hin as (r & Hr & Hloc).
  apply ring_candidates_distance in Hloc. apply zrange_In in Hr. lia.
Qed.

(** C6.  For every cluster handed to the relocation search: the site the
    search finds is the first admissible one of the sequence [candidates]
    (rings for the radii 0, 1, ..., max(width, height) in this order, in a
    ring the offsets in the order of the two loops, in a tile the
    sub-tiles in increasing order); every candidate of the ring of radius
    [r] is at Manhattan distance [r] of the desired location, so the
    sequence is sorted by distance and no distance exceeds max(width,
    height); a candidate is admissible when it is on the device, on a
    compatible root tile and not bound yet; and the site found is the one
    bound to the cluster, the table being left as it is when none is
    found. *)
Theorem relocation_search_claims_first_admissible
    (L : CL) (orig : t_physical_tile_loc) (st : ReloState)
    (cluster_id : LegalizationClusterId) :
  let ct := get_cluster_type cluster_id L in
  let found := find (admissible arch grid (rs_table st) ct)
                    (candidates grid orig) in
  search_site arch grid (rs_table st) ct orig = found
  /\ (forall r, Forall (fun loc => manhattan orig loc = r)
                       (ring_candidates grid orig r))
  /\ StronglySorted (fun a b => manhattan orig a <= manhattan orig b)
                    (candidates grid orig)
  /\ Forall (fun loc => 0 <= manhattan orig loc <= max_search_radius grid)
            (candidates grid orig)
  /\ rs_table (place_one_cluster arch grid L orig st cluster_id)
     = match found with
       | Some loc => (loc, cluster_id) :: rs_table st
       | None => rs_table st
       end.
Proof.
  intros ct found. repeat split.
  - apply search_site_find.
  - intros r. apply Forall_forall. intros loc. apply ring_candidates_distance.
  - apply candidates_sorted.
  - apply candidates_within_radius.
  - unfold place_one_cluster. fold ct. rewrite search_site_find. fold found.
    destruct found; reflexivity.
Qed.
End RelocationFacts.

(** ** The placed-location table never takes a second binding for a key *)

Ltac bind_ok H :=
  unfold bind in H;
  match type of H with
  | context [match ?r with Ok _ => _ | Fatal _ => _ end] =>
      let E := fresh "E" in destruct r eqn:E; [|discriminate H]
  end.

Section TableFacts.
Context {CL : Type} `{ClusterLegalizer CL}.
Variable arch : Arch.
Variable nl : Netlist.
Variable grid : DeviceGrid.
Variable ext_inps : PackMoleculeId -> Z.

Lemma place_one_cluster_table_wf (L : CL) (orig : t_physical_tile_loc)
    (st : ReloState) (cluster_id : LegalizationClusterId) :
  table_wf (rs_table st) ->
  table_wf (rs_table (place_one_cluster arch grid L orig st cluster_id)).
Proof.
  intros Hwf. unfold place_one_cluster.
  destruct (search_site arch grid (rs_table st) _ orig) as [loc|] eqn:Hs;
    simpl; [|assumption].
  rewrite search_site_find in Hs. apply find_some in Hs as [_ Ha].
  unfold admissible in Ha. rewrite !andb_true_iff in Ha.
  destruct Ha as [_ Hfree]. apply negb_true_iff in Hfree.
  apply table_wf_bind; [assumption|]. now apply tbl_count_false_not_in.
Qed.

Lemma place_remaining_clusters_table_wf (L : CL) (tbl : PlacedTable)
    (unplaced : UnplacedMap) :
  table_wf tbl ->
  table_wf (rs_table (place_remaining_clusters arch grid L tbl unplaced)).
Proof.
  unfold place_remaining_clusters. intros Hwf.
  set (st0 := mk_relo tbl unplaced []).
  assert (H0 : table_wf (rs_table st0)) by exact Hwf.
  clearbody st0. revert st0 H0.
  induction unplaced as [|[orig clusters] rest IH]; intros st0 H0; simpl;
    [assumption|].
  apply IH. clear IH. revert st0 H0.
  induction clusters as [|c cs IHc]; intros st0 H0; simpl; [assumption|].
  apply IHc. now apply place_one_cluster_table_wf.
Qed.

Lemma try_sub_tiles_table_wf (retry : bool) (mol : PackMoleculeId)
    (bt : t_logical_block_type_ptr) (tile_loc : t_physical_tile_loc)
    (tt : t_physical_tile_type) (subs : list Z) :
  forall (st st' : PackState CL) (placed : bool),
    table_wf (loc_to_cluster_id_placed st) ->
    try_sub_tiles arch nl grid retry mol bt tile_loc tt subs st
    = Ok (placed, st') ->
    table_wf (loc_to_cluster_id_placed st').
Proof.
  induction subs as [|s subs IH]; intros st st' placed Hwf Hrun;
    simpl in Hrun.
  - inversion Hrun; subst; assumption.
  - destruct (negb (is_root_tile grid tile_loc));
      [inversion Hrun; subst; assumption|].
    destruct (tbl_find _ (loc_to_cluster_id_placed st)) as [cid|] eqn:Hf.
    + destruct (negb (has_empty_primitive _)); [eapply IH; eauto|].
      destruct (is_molecule_compatible mol cid (ps_cl st));
        [|eapply IH; eauto].
      destruct (add_mol_to_cluster mol cid (ps_cl st)) as [status L'].
      destruct (is_passed status).
      * inversion Hrun; subst; assumption.
      * eapply IH; [|exact Hrun]. assumption.
    + destruct (is_tile_compatible arch tt bt); [|eapply IH; eauto].
      bind_ok Hrun. destruct a as [new_id L'].
      inversion Hrun; subst.
      destruct retry; simpl; apply table_wf_bind; auto;
        now apply tbl_find_none_not_in.
Qed.

Lemma place_molecules_in_tile_table_wf (retry : bool)
    (tile_loc : t_physical_tile_loc) (tt : t_physical_tile_type)
    (mols : list PackMoleculeId) :
  forall (st st' : PackState CL),
    table_wf (loc_to_cluster_id_placed st) ->
    place_molecules_in_tile arch nl grid retry tile_loc tt mols st = Ok st' ->
    table_wf (loc_to_cluster_id_placed st').
Proof.
  induction mols as [|m mols IH]; intros st st' Hwf Hrun; simpl in Hrun.
  - inversion Hrun; subst; assumption.
  - bind_ok Hrun. eapply IH; [|exact Hrun].
    unfold place_molecule_in_tile in E.
    destruct (get_molecule_logical_block_type arch nl m); [|discriminate].
    bind_ok E. destruct a0 as [placed st1]. inversion E; subst.
    apply try_sub_tiles_table_wf in E0; [|assumption].
    destruct placed; assumption.
Qed.

Lemma check_tile_clusters_table_wf
    (to_check : list (LegalizationClusterId * t_pl_loc)) :
  forall (acc acc' : list PackMoleculeId) (st st' : PackState CL),
    table_wf (loc_to_cluster_id_placed st) ->
    check_tile_clusters to_check acc st = (acc', st') ->
    table_wf (loc_to_cluster_id_placed st').
Proof.
  induction to_check as [|[cid loc] rest IH]; intros acc acc' st st' Hwf Hrun;
    simpl in Hrun.
  - inversion Hrun; subst; assumption.
  - destruct (negb (check_cluster_legality cid (ps_cl st)));
      (eapply IH; [|exact Hrun]); simpl; auto using table_wf_erase.
Qed.

Lemma process_tile_table_wf (tile_loc : t_physical_tile_loc)
    (blocks : list APBlockId) (st st' : PackState CL) :
  table_wf (loc_to_cluster_id_placed st) ->
  process_tile arch nl grid tile_loc blocks st = Ok st' ->
  table_wf (loc_to_cluster_id_placed st').
Proof.
  intros Hwf Hrun. unfold process_tile in Hrun.
  bind_ok Hrun.
  apply place_molecules_in_tile_table_wf in E; [|exact Hwf].
  destruct (check_tile_clusters (cluster_ids_to_check a) [] a)
    as [illegal st2] eqn:Hc.
  apply check_tile_clusters_table_wf in Hc; [|exact E].
  bind_ok Hrun. inversion Hrun; subst. simpl.
  eapply place_molecules_in_tile_table_wf; [|exact E0]. exact Hc.
Qed.

Lemma process_tiles_table_wf
    (tile_blocks : list (t_physical_tile_loc * list APBlockId)) :
  forall (st st' : PackState CL),
    table_wf (loc_to_cluster_id_placed st) ->
    process_tiles arch nl grid tile_blocks st = Ok st' ->
    table_wf (loc_to_cluster_id_placed st').
Proof.
  induction tile_blocks as [|[tile_loc blocks] rest IH];
    intros st st' Hwf Hrun; simpl in Hrun.
  - inversion Hrun; subst; assumption.
  - bind_ok Hrun. eapply IH; [|exact Hrun].
    eapply process_tile_table_wf; eauto.
Qed.

(** The neighbor passes do not touch the table. *)
Lemma neighbor_seed_table (strategy : ClusterLegalizationStrategy)
    (radius : Z) (entry : PackMoleculeId * t_physical_tile_loc)
    (sc sc' : PackState CL * list PackMoleculeId) :
  neighbor_seed arch nl strategy radius entry sc = Ok sc' ->
  loc_to_cluster_id_placed (fst sc') = loc_to_cluster_id_placed (fst sc).
Proof.
  unfold neighbor_seed. destruct sc as [st cm], entry as [mol seed].
  intros Hrun.
  destruct (mol_mem mol cm); [inversion Hrun; reflexivity|].
  bind_ok Hrun. destruct a as [cid L1].
  destruct (visit_neighbors _ _ _ _) as [[L3 locs3] cm3].
  destruct (strategy_is_full strategy); [inversion Hrun; reflexivity|].
  destruct (check_cluster_legality cid L3); [inversion Hrun; reflexivity|].
  destruct (requeue_molecules _ _ _ _ _) as [[ub locs] cm'].
  inversion Hrun; reflexivity.
Qed.

Lemma neighbor_seeds_table (strategy : ClusterLegalizationStrategy)
    (radius : Z) (entries : list (PackMoleculeId * t_physical_tile_loc)) :
  forall sc sc' : PackState CL * list PackMoleculeId,
    neighbor_seeds arch nl strategy radius entries sc = Ok sc' ->
    loc_to_cluster_id_placed (fst sc') = loc_to_cluster_id_placed (fst sc).
Proof.
  induction entries as [|e rest IH]; intros sc sc' Hrun; simpl in Hrun.
  - inversion Hrun; reflexivity.
  - bind_ok Hrun. rewrite (IH _ _ Hrun). eapply neighbor_seed_table; eauto.
Qed.

Lemma neighbor_cluster_pass_table (strategy : ClusterLegalizationStrategy)
    (radius : Z) (st st' : PackState CL) :
  neighbor_cluster_pass arch nl strategy radius st = Ok st' ->
  loc_to_cluster_id_placed st' = loc_to_cluster_id_placed st.
Proof.
  unfold neighbor_cluster_pass. intros Hrun. bind_ok Hrun.
  destruct a as [st1 cm]. inversion Hrun; subst. simpl.
  apply neighbor_seeds_table in E. exact E.
Qed.

(** C2.  The placed-location table binds no (x, y, layer, sub_tile) tuple
    twice, during and after the passes: when no key is bound twice in the
    table pack_recontruction_pass starts from, none is in the table left by
    the direct pass, by the first and by the second neighbor pass, nor in
    the table left by the relocation search; there a location bound to two
    clusters is bound to one and the same cluster. *)
Theorem placed_table_injective
    (p_placement : PartialPlacement) (st0 st : PackState CL)
    (failed : list PlaceFailure) :
  table_wf (loc_to_cluster_id_placed st0) ->
  pack_recontruction_pass arch nl grid ext_inps p_placement st0
  = Ok (st, failed) ->
  (exists st1 st2 st3,
      process_tiles arch nl grid (group_by_tile nl ext_inps p_placement) st0
      = Ok st1
      /\ neighbor_cluster_pass arch nl SKIP_INTRA_LB_ROUTE
           NEIGHBOR_SEARCH_RADIUS st1 = Ok st2
      /\ neighbor_cluster_pass arch nl FULL NEIGHBOR_SEARCH_RADIUS
           (set_cl (set_legalization_strategy FULL (ps_cl st2)) st2) = Ok st3
      /\ table_wf (loc_to_cluster_id_placed st1)
      /\ table_wf (loc_to_cluster_id_placed st2)
      /\ table_wf (loc_to_cluster_id_placed st3))
  /\ table_wf (loc_to_cluster_id_placed st)
  /\ forall loc c1 c2,
      In (loc, c1) (loc_to_cluster_id_placed st) ->
      In (loc, c2) (loc_to_cluster_id_placed st) -> c1 = c2.
Proof.
  intros Hwf Hrun.
  unfold pack_recontruction_pass in Hrun.
  bind_ok Hrun. rename a into st1.
  assert (H1 : table_wf (loc_to_cluster_id_placed st1))
    by (eapply process_tiles_table_wf; eauto).
  bind_ok Hrun. rename a into st2.
  assert (H2 : table_wf (loc_to_cluster_id_placed st2))
    by (rewrite (neighbor_cluster_pass_table _ _ _ _ E0); exact H1).
  bind_ok Hrun. rename a into st3.
  assert (H3 : table_wf (loc_to_cluster_id_placed st3))
    by (rewrite (neighbor_cluster_pass_table _ _ _ _ E1); exact H2).
  bind_ok Hrun. inversion Hrun; subst. simpl.
  unfold check_all_placed in E2.
  destruct (rs_unplaced _); [|discriminate]. inversion E2; subst.
  assert (Hfinal : table_wf
            (rs_table (place_remaining_clusters arch grid (ps_cl st3)
                         (loc_to_cluster_id_placed st3)
                         (cluster_id_to_loc_unplaced st3))))
    by (now apply place_remaining_clusters_table_wf).
  split; [exists st1, st2, st3; auto 10|].
  split; [exact Hfinal|]. now apply table_wf_functional.
Qed.
End TableFacts.

(** On a 2x2 device, two molecules hinted to the origin are packed into one
    cluster bound to its sub-tile 0. *)
Lemma placed_table_injective_witness :
  table_wf (loc_to_cluster_id_placed (Fixture.empty_state SKIP_INTRA_LB_ROUTE))
  /\ exists st failed,
      pack_recontruction_pass (H := SpecOracle.oracle (Fixture.rules (fun _ => true)))
        Fixture.arch (Fixture.netlist [0%nat; 1%nat]) (Fixture.grid 2 2)
        (fun _ => 0) Fixture.at_origin
        (Fixture.empty_state SKIP_INTRA_LB_ROUTE) = Ok (st, failed)
      /\ loc_to_cluster_id_placed st = [(mk_pl_loc 0 0 0 0, 0%nat)]
      /\ table_wf (loc_to_cluster_id_placed st).
Proof.
  split; [constructor|].
  eexists. eexists.
  split; [vm_compute; reflexivity|].
  split; [reflexivity|].
  apply (placed_table_injective (H := SpecOracle.oracle (Fixture.rules (fun _ => true)))
           Fixture.arch (Fixture.netlist [0%nat; 1%nat]) (Fixture.grid 2 2)
           (fun _ => 0) Fixture.at_origin
           (Fixture.empty_state SKIP_INTRA_LB_ROUTE) _ []).
  - constructor.
  - vm_compute. reflexivity.
Defined.

(** On a 4x4 device whose tiles within distance 2 of the origin are full,
    the search from the origin claims the sub-tile 0 of (0, 3), the first
    site of the ring of radius 3 in loop order. *)
Example relocation_finds_site_at_radius_3 :
  search_site Fixture.arch (Fixture.grid 4 4) Fixture.radius2_full 1%nat
              Fixture.origin
  = Some (mk_pl_loc 0 3 0 0).
Proof. vm_compute. reflexivity. Qed.

(** ** Exhausting the relocation search *)

Section ExhaustionFacts.
Context {CL : Type} `{ClusterLegalizer CL}.
Variable arch : Arch.
Variable grid : DeviceGrid.

(** A search that finds no site logs the cluster with the radius
    max(width, height) and leaves the cluster in the unplaced map. *)
Lemma place_one_cluster_failure_logged (L : CL) (orig : t_physical_tile_loc)
    (st : ReloState) (cluster_id : LegalizationClusterId) :
  search_site arch grid (rs_table st) (get_cluster_type cluster_id L) orig
  = None ->
  place_one_cluster arch grid L orig st cluster_id
  = mk_relo (rs_table st) (rs_unplaced st)
            (rs_failed st
             ++ [mk_failure cluster_id (max_search_radius grid) orig]).
Proof. intros Hs. unfold place_one_cluster. rewrite Hs. reflexivity. Qed.

(** A map of unplaced clusters that is not empty is fatal. *)
Lemma check_all_placed_fatal (st : ReloState) :
  rs_unplaced st <> [] -> is_fatal (check_all_placed st) = true.
Proof.
  unfold check_all_placed. destruct (rs_unplaced st); [congruence|reflexivity].
Qed.
End ExhaustionFacts.

(** C5.  On a 1x1 device whose two sub-tiles are bound, the relocation
    search fails for the two clusters 2 and 3 that both wanted the origin:
    both failures are logged with the radius 1 = max(width, height), and
    the run is fatal, but the count carried by the abort message is 1, the
    number of desired tile locations left in the unplaced map, and not 2,
    the number of clusters that could not be placed. *)
Theorem abort_message_counts_tiles_not_clusters :
  let rs :=
    place_remaining_clusters
      (H := SpecOracle.oracle (Fixture.rules (fun _ => true)))
      Fixture.arch (Fixture.grid 1 1) Fixture.four_clusters
      Fixture.origin_full [(Fixture.origin, [2%nat; 3%nat])] in
  map pf_cluster (rs_failed rs) = [2%nat; 3%nat]
  /\ map pf_radius (rs_failed rs) = [1; 1]
  /\ rs_unplaced rs = [(Fixture.origin, [2%nat; 3%nat])]
  /\ check_all_placed rs = Fatal (ClustersRemainUnplaced 1).
Proof. vm_compute. repeat split. Qed.

(** ** Region constraints in APClusterPlacer *)

Section ConstraintFacts.
Context {R : Type} `{BlkLocRegistry R}.
Variable grid : DeviceGrid.
Variable place_macros_ : PlaceMacros.
Variable floorplanning_ctx : Floorplanning.
Variable block_type_of : ClusterBlockId -> t_logical_block_type_ptr.
Variable pad_loc_type : e_pad_loc_type.

(** What the two placement functions do with a constrained cluster: a
    desired site inside the region is refused, the registry left as it
    is. *)
Lemma constrained_site_inside_region_refused (clb : ClusterBlockId)
    (tile_loc : t_physical_tile_loc) (sub_tile : Z) (reg : R) :
  is_block_placed clb reg = false ->
  num_sub_tiles (get_physical_type grid tile_loc) <> 0%nat ->
  0 <= sub_tile < capacity (get_physical_type grid tile_loc) ->
  is_cluster_constrained floorplanning_ctx clb = true ->
  is_loc_in_part_reg (cluster_constraints floorplanning_ctx clb)
    (mk_pl_loc (tl_x tile_loc) (tl_y tile_loc) (-1) (tl_layer_num tile_loc))
  = true ->
  place_cluster grid place_macros_ floorplanning_ctx block_type_of
                pad_loc_type clb tile_loc sub_tile reg = Ok (false, reg)
  /\ place_cluster_reconstruction grid place_macros_ floorplanning_ctx
       clb tile_loc sub_tile reg = Ok (false, reg).
Proof.
  intros Hp Hs Hsub Hc Hin.
  unfold place_cluster, place_cluster_reconstruction, OPEN.
  rewrite Hp, Hc, Hin.
  apply Nat.eqb_neq in Hs. rewrite Hs.
  assert (Hr : (sub_tile >=? 0)
               && (sub_tile <? capacity (get_physical_type grid tile_loc))
               = true).
  { apply andb_true_iff. split; [apply Z.geb_le|apply Z.ltb_lt]; lia. }
  rewrite Hr. simpl. split; reflexivity.
Qed.
End ConstraintFacts.

(** C1.  The cluster 0 is constrained to the tile (0, 0) and not placed
    yet.  Asked to place it at (0, 0), inside its region, place_cluster
    and place_cluster_reconstruction fail and leave the registry empty;
    asked to place it at (1, 1), outside its region, they go on to the
    binding, which puts the cluster at (1, 1). *)
Theorem constrained_cluster_refused_inside_region :
  let grid := Fixture.grid 2 2 in
  let inside := mk_tile_loc 0 0 0 in
  let outside := mk_tile_loc 1 1 0 in
  is_cluster_constrained Fixture.floorplan 0%nat = true
  /\ is_loc_in_part_reg (cluster_constraints Fixture.floorplan 0%nat)
       (mk_pl_loc 0 0 0 0) = true
  /\ is_loc_in_part_reg (cluster_constraints Fixture.floorplan 0%nat)
       (mk_pl_loc 1 1 0 0) = false
  /\ place_cluster (H := SimpleRegistry.registry grid) grid Fixture.no_macros
       Fixture.floorplan (fun _ => 1%nat) PAD_FREE 0%nat inside 0 []
     = Ok (false, [])
  /\ place_cluster_reconstruction (H := SimpleRegistry.registry grid) grid
       Fixture.no_macros Fixture.floorplan 0%nat inside 0 []
     = Ok (false, [])
  /\ place_cluster (H := SimpleRegistry.registry grid) grid Fixture.no_macros
       Fixture.floorplan (fun _ => 1%nat) PAD_FREE 0%nat outside 0 []
     = Ok (true, [(0%nat, mk_pl_loc 1 1 0 0)])
  /\ place_cluster_reconstruction (H := SimpleRegistry.registry grid) grid
       Fixture.no_macros Fixture.floorplan 0%nat outside 0 []
     = Ok (true, [(0%nat, mk_pl_loc 1 1 0 0)]).
Proof. vm_compute. repeat split. Qed.

(** ** Starting a cluster *)

Section StartFacts.
Context {CL : Type} `{ClusterLegalizer CL}.
Variable arch : Arch.
Variable nl : Netlist.

Lemma probes_app_none (mol : PackMoleculeId)
    (p1 p2 : list (t_logical_block_type_ptr * nat)) (L L1 L' : CL)
    (r : option LegalizationClusterId) :
  probes mol p1 L None L1 -> probes mol p2 L1 r L' ->
  probes mol (p1 ++ p2) L r L'.
Proof.
  intros Hp1. remember None as none eqn:Hn. revert Hn.
  induction Hp1; intros Hn Hp2; simpl.
  - exact Hp2.
  - discriminate.
  - eapply probes_miss; eauto.
Qed.

Lemma probes_app_some (mol : PackMoleculeId)
    (p1 p2 : list (t_logical_block_type_ptr * nat)) (L L' : CL)
    (id : LegalizationClusterId) :
  probes mol p1 L (Some id) L' -> probes mol (p1 ++ p2) L (Some id) L'.
Proof.
  intros Hp1. remember (Some id) as some eqn:Hs. revert Hs.
  induction Hp1; intros Hs; simpl.
  - discriminate.
  - inversion Hs; subst. now apply probes_hit.
  - eapply probes_miss; eauto.
Qed.

(** The outcome of the probing is determined by the pairs and the
    legalizer it starts from. *)
Lemma probes_functional (mol : PackMoleculeId)
    (pairs : list (t_logical_block_type_ptr * nat)) (L L1 L2 : CL)
    (r1 r2 : option LegalizationClusterId) :
  probes mol pairs L r1 L1 -> probes mol pairs L r2 L2 -> r1 = r2 /\ L1 = L2.
Proof.
  intros Hp1. revert r2 L2.
  induction Hp1 as [L|t mode rest L id L' Hs
                    |t mode rest L status id0 L1' r L' Hs Hp _ IH];
    intros r2 L2 Hp2; inversion Hp2; subst.
  - auto.
  - rewrite Hs in *. match goal with E : (_, _, _) = (_, _, _) |- _ =>
      inversion E; subst end. auto.
  - rewrite Hs in *. match goal with E : (_, _, _) = (_, _, _) |- _ =>
      inversion E; subst end. discriminate.
  - rewrite Hs in *. match goal with E : (_, _, _) = (_, _, _) |- _ =>
      inversion E; subst end. discriminate.
  - rewrite Hs in *. match goal with E : (_, _, _) = (_, _, _) |- _ =>
      inversion E; subst end. eauto.
Qed.

Lemma try_modes_probes (mol : PackMoleculeId) (t : t_logical_block_type_ptr)
    (modes : list nat) :
  forall L : CL,
    probes mol (map (pair t) modes) L
           (fst (try_modes mol t modes L)) (snd (try_modes mol t modes L)).
Proof.
  induction modes as [|mode modes IH]; intros L; simpl.
  - constructor.
  - destruct (start_new_cluster mol t mode L) as [[status id] L1] eqn:Hs.
    destruct status; simpl;
      try (eapply probes_miss; [exact Hs|reflexivity|apply IH]).
    now apply probes_hit.
Qed.

Lemma try_types_probes (mol : PackMoleculeId)
    (types : list t_logical_block_type_ptr) :
  forall L : CL,
    probes mol (candidate_pairs arch types) L
           (fst (try_types arch mol types L)) (snd (try_types arch mol types L)).
Proof.
  induction types as [|t types IH]; intros L; simpl.
  - constructor.
  - pose proof (try_modes_probes mol t (seq 0 (num_modes arch t)) L) as Hm.
    destruct (try_modes mol t (seq 0 (num_modes arch t)) L) as [[id|] L1];
      simpl in *.
    + now apply probes_app_some.
    + eapply probes_app_none; [exact Hm|apply IH].
Qed.

(** A pair whose start passes, the pairs before it having failed. *)
Lemma probes_first_success (mol : PackMoleculeId)
    (pairs : list (t_logical_block_type_ptr * nat)) (L L' : CL)
    (id : LegalizationClusterId) :
  probes mol pairs L (Some id) L' ->
  exists before t mode after L0,
    pairs = before ++ (t, mode) :: after
    /\ probes mol before L None L0
    /\ start_new_cluster mol t mode L0 = (BLK_PASSED, id, L').
Proof.
  intros Hp. remember (Some id) as some eqn:Hs. revert Hs.
  induction Hp as [L|t mode rest L id1 L' Hst
                   |t mode rest L status id0 L1 r L' Hst Hf Hp IH];
    intros Hs.
  - discriminate.
  - inversion Hs; subst.
    exists [], t, mode, rest, L. repeat split; [constructor|exact Hst].
  - destruct (IH Hs) as (before & t' & mode' & after & L0 & -> & Hb & Hhit).
    exists ((t, mode) :: before), t', mode', after, L0.
    repeat split; [|exact Hhit]. eapply probes_miss; eauto.
Qed.

(** C7.  create_new_cluster probes the start operation over the (block
    type, mode) pairs of the candidate types of the root model of the seed,
    in table order: it returns the cluster of the first pair whose start
    passes, and is fatal when no pair passes.  The fatal error is the
    result of the callers: of the seed step of a neighbor pass and of the
    sub-tile loop of the direct pass where they start a cluster, and of
    legalize when pack_recontruction_pass raised it, so that no packing is
    handed on to placement. *)
Theorem create_new_cluster_first_success
    (mol : PackMoleculeId) (L : CL) (root : AtomBlockId)
    (model : LogicalModelId) :
  root_atom nl mol = Some root ->
  block_model nl root = Some model ->
  let pairs :=
    candidate_pairs arch (primitive_candidate_block_types arch model) in
  (exists r L',
      probes mol pairs L r L'
      /\ match r with
         | Some id =>
             create_new_cluster arch nl mol L = Ok (id, L')
             /\ exists before t mode after L0,
                 pairs = before ++ (t, mode) :: after
                 /\ probes mol before L None L0
                 /\ start_new_cluster mol t mode L0 = (BLK_PASSED, id, L')
         | None => is_fatal (create_new_cluster arch nl mol L) = true
         end)
  /\ (forall e, create_new_cluster arch nl mol L = Fatal e ->
        (forall strategy radius loc (st : PackState CL) cm,
            ps_cl st = L -> mol_mem mol cm = false ->
            neighbor_seed arch nl strategy radius (mol, loc) (st, cm)
            = Fatal e)
        /\ (forall grid retry bt tile_loc tt s rest (st : PackState CL),
               ps_cl st = L ->
               is_root_tile grid tile_loc = true ->
               tbl_find (mk_pl_loc (tl_x tile_loc) (tl_y tile_loc) s
                                   (tl_layer_num tile_loc))
                        (loc_to_cluster_id_placed st) = None ->
               is_tile_compatible arch tt bt = true ->
               try_sub_tiles arch nl grid retry mol bt tile_loc tt
                             (s :: rest) st = Fatal e))
  /\ (forall grid ext_inps p_placement (st0 : PackState CL) e,
         pack_recontruction_pass arch nl grid ext_inps p_placement st0
         = Fatal e ->
         legalize arch nl grid ext_inps p_placement st0 = Fatal e).
Proof.
  intros Hroot Hmodel pairs.
  split; [|split].
  - pose proof (try_types_probes mol
                  (primitive_candidate_block_types arch model) L) as Hp.
    fold pairs in Hp.
    unfold create_new_cluster. rewrite Hroot, Hmodel.
    destruct (try_types arch mol (primitive_candidate_block_types arch model) L)
      as [r L'] eqn:Ht. simpl in Hp.
    exists r, L'. split; [exact Hp|].
    destruct (primitive_candidate_block_types arch model) as [|t ts] eqn:Hc.
    + simpl in Ht. inversion Ht; subst. reflexivity.
    + rewrite Ht. destruct r as [id|]; [|reflexivity].
      split; [reflexivity|]. now apply probes_first_success.
  - intros e He. split.
    + intros strategy radius loc st cm HL Hcm.
      unfold neighbor_seed. rewrite Hcm, HL, He. reflexivity.
    + intros grid retry bt tile_loc tt s rest st HL Hroot' Hfree Hcompat.
      simpl. rewrite Hroot', Hfree, Hcompat, HL, He. reflexivity.
  - intros grid ext_inps pp st0 e Hpack.
    unfold legalize. rewrite Hpack. reflexivity.
Qed.

End StartFacts.

(** The molecule 1 of the fixture has the candidate types 0 and 1. *)
Lemma create_new_cluster_first_success_witness :
  root_atom (Fixture.netlist []) 1%nat = Some 1%nat
  /\ block_model (Fixture.netlist []) 1%nat = Some 1%nat
  /\ exists r L',
      probes (H := SpecOracle.oracle (Fixture.rules (fun _ => true)))
             1%nat [(0%nat, 0%nat); (1%nat, 0%nat)]
             (SpecOracle.empty SKIP_INTRA_LB_ROUTE) r L'.
Proof.
  split; [reflexivity|]. split; [reflexivity|].
  destruct (create_new_cluster_first_success
              (H := SpecOracle.oracle (Fixture.rules (fun _ => true)))
              Fixture.arch (Fixture.netlist []) 1%nat
              (SpecOracle.empty SKIP_INTRA_LB_ROUTE) 1%nat 1%nat
              eq_refl eq_refl) as [(r & L' & Hp & _) _].
  exists r, L'. exact Hp.
Defined.


(** ** The direct pass and the first candidate type *)

Section DirectPassFacts.
Context {CL : Type} `{ClusterLegalizer CL}.
Variable arch : Arch.
Variable nl : Netlist.
Variable grid : DeviceGrid.

(** With a block type the tile does not accept, the sub-tile loop starts
    no cluster: it cannot be fatal, it leaves the table and the lists of
    the pass as they are, and it places the molecule only by adding it to
    a cluster already bound to a sub-tile of the tile. *)
Lemma try_sub_tiles_incompatible (retry : bool) (mol : PackMoleculeId)
    (bt : t_logical_block_type_ptr) (tile_loc : t_physical_tile_loc)
    (tt : t_physical_tile_type) :
  is_tile_compatible arch tt bt = false ->
  forall (subs : list Z) (st : PackState CL),
  exists placed st1,
    try_sub_tiles arch nl grid retry mol bt tile_loc tt subs st
    = Ok (placed, st1)
    /\ loc_to_cluster_id_placed st1 = loc_to_cluster_id_placed st
    /\ cluster_id_to_loc_desired st1 = cluster_id_to_loc_desired st
    /\ cluster_ids_to_check st1 = cluster_ids_to_check st
    /\ unclustered_blocks st1 = unclustered_blocks st
    /\ unclustered_block_locs st1 = unclustered_block_locs st
    /\ (placed = true ->
        exists s cid L0,
          In s subs
          /\ tbl_find (mk_pl_loc (tl_x tile_loc) (tl_y tile_loc) s
                                 (tl_layer_num tile_loc))
                      (loc_to_cluster_id_placed st) = Some cid
          /\ add_mol_to_cluster mol cid L0 = (BLK_PASSED, ps_cl st1)).
Proof.
  intros Hinc subs.
  induction subs as [|s subs IH]; intros st; simpl.
  - exists false, st. repeat split; auto. discriminate.
  - destruct (negb (is_root_tile grid tile_loc)).
    { exists false, st. repeat split; auto. discriminate. }
    destruct (tbl_find _ (loc_to_cluster_id_placed st)) as [cid|] eqn:Hf.
    + assert (Hstep : forall st2 : PackState CL,
                 loc_to_cluster_id_placed st2 = loc_to_cluster_id_placed st ->
                 cluster_id_to_loc_desired st2 = cluster_id_to_loc_desired st ->
                 cluster_ids_to_check st2 = cluster_ids_to_check st ->
                 unclustered_blocks st2 = unclustered_blocks st ->
                 unclustered_block_locs st2 = unclustered_block_locs st ->
                 exists placed st1,
                   try_sub_tiles arch nl grid retry mol bt tile_loc tt subs st2
                   = Ok (placed, st1)
                   /\ loc_to_cluster_id_placed st1 = loc_to_cluster_id_placed st
                   /\ cluster_id_to_loc_desired st1 = cluster_id_to_loc_desired st
                   /\ cluster_ids_to_check st1 = cluster_ids_to_check st
                   /\ unclustered_blocks st1 = unclustered_blocks st
                   /\ unclustered_block_locs st1 = unclustered_block_locs st
                   /\ (placed = true ->
                       exists s0 cid0 L0,
                         In s0 (s :: subs)
                         /\ tbl_find (mk_pl_loc (tl_x tile_loc) (tl_y tile_loc)
                                                s0 (tl_layer_num tile_loc))
                                     (loc_to_cluster_id_placed st) = Some cid0
                         /\ add_mol_to_cluster mol cid0 L0
                            = (BLK_PASSED, ps_cl st1))).
      { intros st2 E1 E2 E3 E4 E5.
        destruct (IH st2) as (placed & st1 & Hrun & F1 & F2 & F3 & F4 & F5 & Hp).
        exists placed, st1. rewrite Hrun.
        repeat split; try congruence.
        intros Hpl. destruct (Hp Hpl) as (s0 & cid0 & L0 & Hin & Hfind & Hadd).
        exists s0, cid0, L0. rewrite <- E1. simpl. auto. }
      destruct (negb (has_empty_primitive _)); [apply Hstep; reflexivity|].
      destruct (is_molecule_compatible mol cid (ps_cl st));
        [|apply Hstep; reflexivity].
      destruct (add_mol_to_cluster mol cid (ps_cl st)) as [status L'] eqn:Hadd.
      destruct status; simpl; try (apply Hstep; reflexivity).
      exists true, (set_cl L' st). repeat split; auto.
      intros _. exists s, cid, (ps_cl st). simpl. auto.
    + rewrite Hinc.
      destruct (IH st) as (placed & st1 & Hrun & F1 & F2 & F3 & F4 & F5 & Hp).
      exists placed, st1. rewrite Hrun. repeat split; auto.
      intros Hpl. destruct (Hp Hpl) as (s0 & cid0 & L0 & Hin & Hfind & Hadd).
      exists s0, cid0, L0. simpl. auto.
Qed.

(** C10, as amended.  In the direct pass a molecule whose first candidate
    block type the tile does not accept never starts a cluster, whatever
    its later candidate types: the table is left as it is, and the molecule
    is deferred as unclustered unless it was added to a cluster already
    bound to one of the sub-tiles of the tile. *)
Theorem direct_pass_first_candidate_only
    (retry : bool) (tile_loc : t_physical_tile_loc)
    (tt : t_physical_tile_type) (mol : PackMoleculeId)
    (bt : t_logical_block_type_ptr) (st : PackState CL) :
  get_molecule_logical_block_type arch nl mol = Some bt ->
  is_tile_compatible arch tt bt = false ->
  exists (placed : bool) (st' : PackState CL),
    place_molecule_in_tile arch nl grid retry tile_loc tt mol st = Ok st'
    /\ loc_to_cluster_id_placed st' = loc_to_cluster_id_placed st
    /\ cluster_ids_to_check st' = cluster_ids_to_check st
    /\ (placed = false ->
        unclustered_blocks st' = unclustered_blocks st ++ [(mol, tile_loc)])
    /\ (placed = true ->
        unclustered_blocks st' = unclustered_blocks st
        /\ exists s cid L0,
            tbl_find (mk_pl_loc (tl_x tile_loc) (tl_y tile_loc) s
                                (tl_layer_num tile_loc))
                     (loc_to_cluster_id_placed st) = Some cid
            /\ add_mol_to_cluster mol cid L0 = (BLK_PASSED, ps_cl st')).
Proof.
  intros Hbt Hinc. unfold place_molecule_in_tile. rewrite Hbt.
  destruct (try_sub_tiles_incompatible retry mol bt tile_loc tt Hinc
              (zseq 0 (Z.to_nat (capacity tt))) st)
    as (placed & st1 & Hrun & F1 & F2 & F3 & F4 & F5 & Hp).
  rewrite Hrun. simpl.
  exists placed, (if placed then st1 else defer_molecule mol tile_loc st1).
  split; [reflexivity|].
  destruct placed; simpl; repeat split; auto; try discriminate.
  - destruct (Hp eq_refl) as (s & cid & L0 & _ & Hfind & Hadd).
    exists s, cid, L0. auto.
  - intros _. rewrite F4. reflexivity.
Qed.
End DirectPassFacts.

(** The molecule 1 of the fixture prefers the block type 0, which the tile
    does not accept; on the empty table it is deferred. *)
Lemma direct_pass_first_candidate_only_witness :
  get_molecule_logical_block_type Fixture.arch (Fixture.netlist [0%nat; 1%nat])
    1%nat = Some 0%nat
  /\ is_tile_compatible Fixture.arch Fixture.clb_tile 0%nat = false
  /\ exists (placed : bool) st',
      place_molecule_in_tile
        (H := SpecOracle.oracle (Fixture.rules (fun _ => true)))
        Fixture.arch (Fixture.netlist [0%nat; 1%nat]) (Fixture.grid 2 2)
        false Fixture.origin Fixture.clb_tile 1%nat
        (Fixture.empty_state SKIP_INTRA_LB_ROUTE) = Ok st'
      /\ loc_to_cluster_id_placed st' = [].
Proof.
  split; [reflexivity|]. split; [reflexivity|].
  destruct (direct_pass_first_candidate_only
              (H := SpecOracle.oracle (Fixture.rules (fun _ => true)))
              Fixture.arch (Fixture.netlist [0%nat; 1%nat]) (Fixture.grid 2 2)
              false Fixture.origin Fixture.clb_tile 1%nat 0%nat
              (Fixture.empty_state SKIP_INTRA_LB_ROUTE) eq_refl eq_refl)
    as (placed & st' & Hrun & Htbl & _).
  exists placed, st'. split; [exact Hrun|exact Htbl].
Defined.

(** C10, as stated, fails: after the molecule 0 has started a cluster of
    type 1 on the sub-tile 0 of the origin, the molecule 1, whose first
    candidate type 0 the tile does not accept, is added to that cluster
    and is not deferred. *)
Lemma first_candidate_incompatible_not_deferred :
  ~ (forall (mol : PackMoleculeId) (bt : t_logical_block_type_ptr)
            (st st' : PackState SpecOracle.Legalizer),
        get_molecule_logical_block_type Fixture.arch
          (Fixture.netlist [0%nat; 1%nat]) mol = Some bt ->
        is_tile_compatible Fixture.arch Fixture.clb_tile bt = false ->
        place_molecule_in_tile
          (H := SpecOracle.oracle (Fixture.rules (fun _ => true)))
          Fixture.arch (Fixture.netlist [0%nat; 1%nat]) (Fixture.grid 2 2)
          false Fixture.origin Fixture.clb_tile mol st = Ok st' ->
        In (mol, Fixture.origin) (unclustered_blocks st')).
Proof.
  intros Hclaim.
  destruct (place_molecule_in_tile
              (H := SpecOracle.oracle (Fixture.rules (fun _ => true)))
              Fixture.arch (Fixture.netlist [0%nat; 1%nat]) (Fixture.grid 2 2)
              false Fixture.origin Fixture.clb_tile 0%nat
              (Fixture.empty_state SKIP_INTRA_LB_ROUTE)) as [st0|e] eqn:E0;
    [|vm_compute in E0; discriminate].
  destruct (place_molecule_in_tile
              (H := SpecOracle.oracle (Fixture.rules (fun _ => true)))
              Fixture.arch (Fixture.netlist [0%nat; 1%nat]) (Fixture.grid 2 2)
              false Fixture.origin Fixture.clb_tile 1%nat st0) as [st1|e] eqn:E1;
    [|vm_compute in E0; inversion E0; subst; vm_compute in E1; discriminate].
  specialize (Hclaim 1%nat 0%nat st0 st1 eq_refl eq_refl E1).
  vm_compute in E0. inversion E0; subst. clear E0.
  vm_compute in E1. inversion E1; subst. clear E1.
  exact Hclaim.
Qed.

(** ** What is left unclustered *)

Lemma mol_mem_insert (m m' : PackMoleculeId) (s : list PackMoleculeId) :
  mol_mem m (mol_insert m' s) = Nat.eqb m m' || mol_mem m s.
Proof.
  unfold mol_insert. destruct (mol_mem m' s) eqn:E; simpl; [|reflexivity].
  destruct (Nat.eqb m m') eqn:Em; simpl; [|reflexivity].
  apply Nat.eqb_eq in Em. subst. exact E.
Qed.

Section UnclusteredFacts.
Context {CL : Type} `{ClusterLegalizer CL}.
Variable arch : Arch.
Variable nl : Netlist.
Variable grid : DeviceGrid.
Variable ext_inps : PackMoleculeId -> Z.

Lemma grows_refl (cm : list PackMoleculeId) : grows cm cm.
Proof. intros m Hm. exact Hm. Qed.

Lemma grows_trans (a b c : list PackMoleculeId) :
  grows a b -> grows b c -> grows a c.
Proof. intros Hab Hbc m Hm. auto. Qed.

Lemma grows_insert (m : PackMoleculeId) (cm : list PackMoleculeId) :
  grows cm (mol_insert m cm).
Proof. intros m' Hm. rewrite mol_mem_insert, Hm. apply orb_true_r. Qed.

Lemma scan_mol_list_grows (cid : LegalizationClusterId)
    (mols : list PackMoleculeId) :
  forall (L : CL) cm, grows cm (snd (scan_mol_list cid mols L cm)).
Proof.
  induction mols as [|m mols IH]; intros L cm; simpl; [apply grows_refl|].
  destruct (is_mol_clustered m L); [apply IH|].
  destruct (mol_mem m cm); [apply IH|].
  destruct (is_molecule_compatible m cid L).
  - destruct (add_mol_to_cluster m cid L) as [status L'].
    destruct (is_passed status).
    + eapply grows_trans; [apply grows_insert|apply IH].
    + specialize (IH L' cm).
      destruct (scan_mol_list cid mols L' cm) as [[kept L''] cm']. exact IH.
  - specialize (IH L cm).
    destruct (scan_mol_list cid mols L cm) as [[kept L''] cm']. exact IH.
Qed.

Lemma try_cluster_tile_grows (cid : LegalizationClusterId)
    (tile_loc : t_physical_tile_loc) (s : NbState) :
  grows (snd s) (snd (try_cluster_tile cid tile_loc s)).
Proof.
  destruct s as [[L locs] cm]. unfold try_cluster_tile.
  destruct (alookup tile_loc_eqb tile_loc locs) as [mol_list|];
    [|apply grows_refl].
  pose proof (scan_mol_list_grows cid mol_list L cm) as Hg.
  destruct (scan_mol_list cid mol_list L cm) as [[kept L'] cm'].
  destruct kept; exact Hg.
Qed.

Lemma visit_neighbors_grows (cid : LegalizationClusterId)
    (seed : t_physical_tile_loc) (offsets : list (Z * Z)) :
  forall s : NbState, grows (snd s) (snd (visit_neighbors cid seed offsets s)).
Proof.
  induction offsets as [|[dx dy] rest IH]; intros s; simpl; [apply grows_refl|].
  destruct (negb (acount tile_loc_eqb _ (snd (fst s)))); [apply IH|].
  destruct (negb (has_empty_primitive _)).
  - apply try_cluster_tile_grows.
  - eapply grows_trans; [apply try_cluster_tile_grows|apply IH].
Qed.

(** Under the strategy FULL a seed step keeps [unclustered_blocks], only
    adds to [clustered_molecules], and leaves its molecule there. *)
Lemma neighbor_seed_full (radius : Z)
    (entry : PackMoleculeId * t_physical_tile_loc)
    (sc sc' : PackState CL * list PackMoleculeId) :
  neighbor_seed arch nl FULL radius entry sc = Ok sc' ->
  unclustered_blocks (fst sc') = unclustered_blocks (fst sc)
  /\ grows (snd sc) (snd sc')
  /\ mol_mem (fst entry) (snd sc') = true.
Proof.
  destruct sc as [st cm], entry as [mol seed]. unfold neighbor_seed.
  intros Hrun.
  destruct (mol_mem mol cm) eqn:Hm.
  { inversion Hrun; subst. simpl.
    split; [reflexivity|]. split; [apply grows_refl|exact Hm]. }
  bind_ok Hrun. destruct a as [cid L1].
  pose proof (try_cluster_tile_grows cid seed
                (L1, unclustered_block_locs st, mol_insert mol cm)) as G1.
  pose proof (visit_neighbors_grows cid seed (neighbor_offsets radius)
                (try_cluster_tile cid seed
                   (L1, unclustered_block_locs st, mol_insert mol cm))) as G2.
  destruct (visit_neighbors _ _ _ _) as [[L3 locs3] cm3].
  simpl in Hrun. inversion Hrun; subst. simpl in *.
  assert (G : grows (mol_insert mol cm) cm3) by (eapply grows_trans; eauto).
  split; [reflexivity|]. split.
  - eapply grows_trans; [apply grows_insert|exact G].
  - apply G. rewrite mol_mem_insert, Nat.eqb_refl. reflexivity.
Qed.

Lemma neighbor_seeds_full (radius : Z)
    (entries : list (PackMoleculeId * t_physical_tile_loc)) :
  forall sc sc' : PackState CL * list PackMoleculeId,
    neighbor_seeds arch nl FULL radius entries sc = Ok sc' ->
    unclustered_blocks (fst sc') = unclustered_blocks (fst sc)
    /\ grows (snd sc) (snd sc')
    /\ forall e, In e entries -> mol_mem (fst e) (snd sc') = true.
Proof.
  induction entries as [|e rest IH]; intros sc sc' Hrun; simpl in Hrun.
  - inversion Hrun; subst.
    split; [reflexivity|]. split; [apply grows_refl|]. intros e [].
  - bind_ok Hrun.
    destruct (neighbor_seed_full _ _ _ _ E) as (U1 & G1 & M1).
    destruct (IH _ _ Hrun) as (U2 & G2 & M2).
    split; [congruence|]. split; [eapply grows_trans; eauto|].
    intros e' [<-|Hin]; [apply G2; exact M1|apply M2; exact Hin].
Qed.

Lemma filter_clustered_nil (cm : list PackMoleculeId)
    (l : list (PackMoleculeId * t_physical_tile_loc)) :
  (forall e, In e l -> mol_mem (fst e) cm = true) ->
  filter (fun p => negb (mol_mem (fst p) cm)) l = [].
Proof.
  induction l as [|e rest IH]; simpl; intros M; [reflexivity|].
  rewrite (M e) by auto. simpl. apply IH. intros e' He'. apply M. auto.
Qed.

(** The neighbor pass under FULL leaves no entry in [unclustered_blocks]. *)
Lemma neighbor_cluster_pass_full_empties (radius : Z) (st st' : PackState CL) :
  neighbor_cluster_pass arch nl FULL radius st = Ok st' ->
  unclustered_blocks st' = [].
Proof.
  unfold neighbor_cluster_pass. intros Hrun. bind_ok Hrun.
  destruct a as [st1 cm]. inversion Hrun; subst. simpl.
  destruct (neighbor_seeds_full _ _ _ _ E) as (U & _ & M). simpl in *.
  rewrite U. apply filter_clustered_nil. exact M.
Qed.

Lemma map_atoms_fatal (L : CL) (atom : AtomBlockId)
    (atoms : list (option AtomBlockId)) :
  In (Some atom) atoms -> get_atom_cluster atom L = None ->
  forall m, is_fatal (map_atoms L atoms m) = true.
Proof.
  intros Hin Hnone.
  induction atoms as [|oa atoms IH]; intros m; simpl; [destruct Hin|].
  destruct oa as [a|].
  - destruct (acount Nat.eqb a m); [reflexivity|].
    destruct (get_atom_cluster a L) as [c|] eqn:Hc; [|reflexivity].
    destruct Hin as [E|Hin]; [inversion E; subst; congruence|].
    apply IH. exact Hin.
  - destruct Hin as [E|Hin]; [discriminate|]. apply IH. exact Hin.
Qed.

Lemma map_blocks_fatal (L : CL) (blk : APBlockId) (atom : AtomBlockId)
    (blocks : list APBlockId) :
  In blk blocks ->
  In (Some atom) (atom_block_ids nl (block_molecule nl blk)) ->
  get_atom_cluster atom L = None ->
  forall m, is_fatal (map_blocks nl L blocks m) = true.
Proof.
  intros Hin Hatom Hnone.
  induction blocks as [|b blocks IH]; intros m; simpl; [destruct Hin|].
  destruct Hin as [->|Hin].
  - pose proof (map_atoms_fatal L atom _ Hatom Hnone m) as Hf.
    destruct (map_atoms L (atom_block_ids nl (block_molecule nl blk)) m);
      [discriminate|reflexivity].
  - destruct (map_atoms L (atom_block_ids nl (block_molecule nl b)) m);
      simpl; [apply IH; exact Hin|reflexivity].
Qed.

(** C9.  When pack_recontruction_pass comes to its end, its list of
    unclustered molecules is empty, the second neighbor pass having started
    a cluster from every molecule left, or been fatal.  Should an atom of a
    molecule of the netlist still have no cluster in the legalizer then,
    legalize is fatal; so a packing that legalize returns has every atom
    of every molecule in a cluster. *)
Theorem unclustered_molecule_is_fatal
    (p_placement : PartialPlacement) (st0 st : PackState CL)
    (failed : list PlaceFailure) :
  pack_recontruction_pass arch nl grid ext_inps p_placement st0
  = Ok (st, failed) ->
  unclustered_blocks st = []
  /\ ((exists blk atom,
          In blk (ap_blocks nl)
          /\ In (Some atom) (atom_block_ids nl (block_molecule nl blk))
          /\ get_atom_cluster atom (ps_cl st) = None) ->
      is_fatal (legalize arch nl grid ext_inps p_placement st0) = true)
  /\ (forall pk,
         legalize arch nl grid ext_inps p_placement st0 = Ok pk ->
         forall blk atom,
           In blk (ap_blocks nl) ->
           In (Some atom) (atom_block_ids nl (block_molecule nl blk)) ->
           get_atom_cluster atom (ps_cl st) <> None).
Proof.
  intros Hpack.
  assert (Hfatal : forall blk atom,
             In blk (ap_blocks nl) ->
             In (Some atom) (atom_block_ids nl (block_molecule nl blk)) ->
             get_atom_cluster atom (ps_cl st) = None ->
             is_fatal (legalize arch nl grid ext_inps p_placement st0) = true).
  { intros blk atom Hb Ha Hn. unfold legalize. rewrite Hpack. simpl.
    pose proof (map_blocks_fatal (ps_cl st) blk atom _ Hb Ha Hn []) as Hf.
    destruct (map_blocks nl (ps_cl st) (ap_blocks nl) []);
      [discriminate|reflexivity]. }
  split; [|split].
  - unfold pack_recontruction_pass in Hpack.
    bind_ok Hpack. bind_ok Hpack. bind_ok Hpack. bind_ok Hpack.
    inversion Hpack; subst. simpl.
    eapply neighbor_cluster_pass_full_empties; eauto.
  - intros (blk & atom & Hb & Ha & Hn). eapply Hfatal; eauto.
  - intros pk Hok blk atom Hb Ha Hn.
    pose proof (Hfatal blk atom Hb Ha Hn) as Hf.
    rewrite Hok in Hf. discriminate.
Qed.
End UnclusteredFacts.

(** The run of the fixture ends with both molecules in a cluster. *)
Lemma unclustered_molecule_is_fatal_witness :
  exists st failed,
    pack_recontruction_pass
      (H := SpecOracle.oracle (Fixture.rules (fun _ => true)))
      Fixture.arch (Fixture.netlist [0%nat; 1%nat]) (Fixture.grid 2 2)
      (fun _ => 0) Fixture.at_origin
      (Fixture.empty_state SKIP_INTRA_LB_ROUTE) = Ok (st, failed)
    /\ unclustered_blocks st = [].
Proof.
  eexists. eexists. split; [vm_compute; reflexivity|].
  eapply (unclustered_molecule_is_fatal
            (H := SpecOracle.oracle (Fixture.rules (fun _ => true)))
            Fixture.arch (Fixture.netlist [0%nat; 1%nat]) (Fixture.grid 2 2)
            (fun _ => 0) Fixture.at_origin
            (Fixture.empty_state SKIP_INTRA_LB_ROUTE) _ []).
  vm_compute. reflexivity.
Defined.

(** C8.  Two molecules hinted to the origin, which the direct pass leaves
    unclustered, and clusters that route internally only with one
    molecule: the first neighbor pass grows a cluster with both from the
    seed 0 under the cheap tier, the strict check fails, and the requeue
    pushes both molecules onto [unclustered_blocks], where their first
    entries still are; the same happens again from the seed 1.  The pass
    starts with 2 entries and ends with 6, each molecule three times. *)
Theorem neighbor_pass_requeue_duplicates :
  let oracle :=
    SpecOracle.oracle
      (Fixture.rules (fun mols => Nat.leb (List.length mols) 1)) in
  let nl := Fixture.netlist_model1 [0%nat; 1%nat] in
  exists st1 st2,
    process_tiles (H := oracle) Fixture.arch nl (Fixture.grid 2 2)
      (group_by_tile nl (fun _ => 0) Fixture.at_origin)
      (Fixture.empty_state SKIP_INTRA_LB_ROUTE) = Ok st1
    /\ neighbor_cluster_pass (H := oracle) Fixture.arch nl
         SKIP_INTRA_LB_ROUTE NEIGHBOR_SEARCH_RADIUS st1 = Ok st2
    /\ unclustered_blocks st1
       = [(0%nat, Fixture.origin); (1%nat, Fixture.origin)]
    /\ unclustered_blocks st2
       = [(0%nat, Fixture.origin); (1%nat, Fixture.origin);
          (0%nat, Fixture.origin); (1%nat, Fixture.origin);
          (1%nat, Fixture.origin); (0%nat, Fixture.origin)]
    /\ (List.length (unclustered_blocks st2)
        > List.length (unclustered_blocks st1))%nat.
Proof.
  intros oracle nl. eexists. eexists.
  split; [vm_compute; reflexivity|].
  split; [vm_compute; reflexivity|].
  split; [reflexivity|]. split; [reflexivity|]. simpl. lia.
Qed.

(** ** The oracle of the spec *)

Section OracleFacts.
Variable rules : SpecOracle.Rules.
Import SpecOracle.

Lemma nth_error_tail {A} (base : list A) (x : A) :
  nth_error (base ++ [x]) (List.length base) = Some x.
Proof.
  rewrite nth_error_app2 by lia. rewrite Nat.sub_diag. reflexivity.
Qed.

Lemma replace_at_tail {A} (base : list A) (x a : A) :
  replace_at (List.length base) a (base ++ [x]) = base ++ [a].
Proof. induction base as [|b base IH]; simpl; [reflexivity|now rewrite IH]. Qed.

Lemma cluster_at_tail (s : ClusterLegalizationStrategy)
    (base : list (option LegalizationCluster)) (c : LegalizationCluster) :
  cluster_at (List.length base) (mk_legalizer s (base ++ [Some c])) = Some c.
Proof. unfold cluster_at. simpl. rewrite nth_error_tail. reflexivity. Qed.

Lemma finalized_legal_Forall (L : Legalizer) :
  finalized_legal rules L <-> Forall (cluster_ok rules) (sl_clusters L).
Proof.
  unfold finalized_legal, check, cluster_at. split.
  - intros Hf. apply Forall_forall. intros [c|] Hin; simpl; [|exact I].
    intros Hc. apply In_nth_error in Hin as [n Hn].
    specialize (Hf n c). rewrite Hn in Hf. auto.
  - intros Hall id c Hat Hc.
    destruct (nth_error (sl_clusters L) id) as [[c'|]|] eqn:Hn;
      try discriminate.
    inversion Hat; subst.
    rewrite Forall_forall in Hall.
    apply (Hall (Some c)); [eapply nth_error_In; eauto|exact Hc].
Qed.

Lemma tier_passed_full (t : t_logical_block_type_ptr) (mode : nat)
    (mols : list PackMoleculeId) :
  tier_status rules FULL t mode mols = BLK_PASSED ->
  routable rules t mode mols = true.
Proof.
  unfold tier_status. destruct (feasible rules t mode mols); simpl;
    [|discriminate].
  destruct (routable rules t mode mols); [reflexivity|discriminate].
Qed.

(** A start that passes appends a cluster which is then the one growing; a
    start that fails changes nothing. *)
Lemma start_spec (mol : PackMoleculeId) (t : t_logical_block_type_ptr)
    (mode : nat) (L L' : Legalizer) (status : e_block_pack_status)
    (id : LegalizationClusterId) :
  start rules mol t mode L = (status, id, L') ->
  (is_passed status = true
   /\ id = List.length (sl_clusters L)
   /\ growing rules (sl_clusters L) (sl_strategy L) t L')
  \/ (is_passed status = false /\ L' = L).
Proof.
  unfold start. destruct (mol_clustered mol L).
  { intros E; inversion E; subst. right. auto. }
  destruct (tier_status rules (sl_strategy L) t mode [mol]) eqn:Ht;
    intros E; inversion E; subst; try (right; split; reflexivity).
  left. split; [reflexivity|]. split; [reflexivity|].
  split; [reflexivity|].
  exists (mk_cluster t mode [mol] false). simpl.
  repeat split. intros Hs. rewrite Hs in Ht. now apply tier_passed_full.
Qed.

Lemma try_modes_spec (mol : PackMoleculeId) (t : t_logical_block_type_ptr)
    (modes : list nat) (L L' : Legalizer)
    (r : option LegalizationClusterId) :
  try_modes (H := oracle rules) mol t modes L = (r, L') ->
  match r with
  | Some id => id = List.length (sl_clusters L)
               /\ growing rules (sl_clusters L) (sl_strategy L) t L'
  | None => L' = L
  end.
Proof.
  induction modes as [|mode modes IH]; simpl; intros E.
  - inversion E; subst. reflexivity.
  - destruct (start rules mol t mode L) as [[status id] L1] eqn:Hs.
    destruct (start_spec _ _ _ _ _ _ _ Hs) as [(Hp & Hid & Hg)|(Hp & ->)];
      rewrite Hp in E.
    + inversion E; subst. auto.
    + apply IH. exact E.
Qed.

Lemma try_types_spec (arch : Arch) (mol : PackMoleculeId)
    (types : list t_logical_block_type_ptr) (L L' : Legalizer)
    (r : option LegalizationClusterId) :
  try_types (H := oracle rules) arch mol types L = (r, L') ->
  match r with
  | Some id => id = List.length (sl_clusters L)
               /\ exists t, growing rules (sl_clusters L) (sl_strategy L) t L'
  | None => L' = L
  end.
Proof.
  induction types as [|t types IH]; simpl; intros E.
  - inversion E; subst. reflexivity.
  - destruct (try_modes mol t (seq 0 (num_modes arch t)) L) as [[id|] L1] eqn:Hm;
      apply try_modes_spec in Hm.
    + inversion E; subst. destruct Hm. eauto.
    + subst. apply IH. exact E.
Qed.

Lemma create_new_cluster_spec (arch : Arch) (nl : Netlist)
    (mol : PackMoleculeId) (L L' : Legalizer) (id : LegalizationClusterId) :
  create_new_cluster (H := oracle rules) arch nl mol L = Ok (id, L') ->
  id = List.length (sl_clusters L)
  /\ exists t, growing rules (sl_clusters L) (sl_strategy L) t L'.
Proof.
  unfold create_new_cluster. intros E.
  destruct (root_atom nl mol); [|discriminate].
  destruct (block_model nl a); [|discriminate].
  destruct (primitive_candidate_block_types arch l) as [|t ts]; [discriminate|].
  destruct (try_types arch mol (t :: ts) L) as [[id'|] L1] eqn:Ht;
    [|discriminate].
  inversion E; subst. exact (try_types_spec _ _ _ _ _ _ Ht).
Qed.

(** An addition to the growing cluster leaves it growing, and leaves its
    type. *)
Lemma add_growing (base : list (option LegalizationCluster))
    (s : ClusterLegalizationStrategy) (t : t_logical_block_type_ptr)
    (m : PackMoleculeId) (L L' : Legalizer) (status : e_block_pack_status) :
  growing rules base s t L ->
  add rules m (List.length base) L = (status, L') ->
  growing rules base s t L'.
Proof.
  intros (Hs & c & Hc & Ht & Hcl & Hr) E. destruct L as [s0 cs].
  simpl in Hs, Hc. subst s0 cs. unfold add in E.
  rewrite cluster_at_tail in E.
  destruct (mol_clustered m _).
  { inversion E; subst. split; [reflexivity|]. exists c. auto. }
  simpl in E.
  destruct (tier_status rules s (lc_type c) (lc_mode c) (lc_molecules c ++ [m]))
    eqn:Hts; inversion E; subst;
    try solve [split; [reflexivity|]; exists c; auto].
  rewrite replace_at_tail. split; [reflexivity|].
  eexists. split; [reflexivity|]. simpl. repeat split; auto.
  intros ->. now apply tier_passed_full.
Qed.

Lemma growing_legal (base : list (option LegalizationCluster))
    (s : ClusterLegalizationStrategy) (t : t_logical_block_type_ptr)
    (L : Legalizer) :
  growing rules base s t L -> Forall (cluster_ok rules) base ->
  finalized_legal rules L.
Proof.
  intros (_ & c & Hc & _ & Hcl & _) Hb. apply finalized_legal_Forall.
  rewrite Hc. apply Forall_app. split; [exact Hb|].
  constructor; [|constructor]. simpl. congruence.
Qed.

(** Cleaning the growing cluster, built under FULL or found legal by the
    strict check, keeps every finalized cluster legal. *)
Lemma clean_growing_legal (base : list (option LegalizationCluster))
    (s : ClusterLegalizationStrategy) (t : t_logical_block_type_ptr)
    (L : Legalizer) :
  growing rules base s t L ->
  s = FULL \/ check rules (List.length base) L = true ->
  (Forall (cluster_ok rules) base ->
   finalized_legal rules (clean (List.length base) L))
  /\ sl_strategy (clean (List.length base) L) = s
  /\ check rules (List.length base) (clean (List.length base) L) = true
  /\ exists c, cluster_at (List.length base) (clean (List.length base) L)
               = Some c /\ lc_cleaned c = true.
Proof.
  intros (Hs & c & Hc & _ & Hcl & Hr) Hok. destruct L as [s0 cs].
  simpl in Hs, Hc. subst s0 cs.
  assert (Hroute : routable rules (lc_type c) (lc_mode c) (lc_molecules c)
                   = true).
  { destruct Hok as [Hf|Hck]; [auto|].
    unfold check in Hck. rewrite cluster_at_tail in Hck. exact Hck. }
  unfold clean. rewrite cluster_at_tail. simpl. rewrite replace_at_tail.
  split; [|split; [reflexivity|split]].
  - intros Hb. apply finalized_legal_Forall. simpl. apply Forall_app.
    split; [exact Hb|]. constructor; [|constructor]. simpl. auto.
  - unfold check. rewrite cluster_at_tail. exact Hroute.
  - eexists. rewrite cluster_at_tail. split; reflexivity.
Qed.

(** Destroying the growing cluster leaves the clusters before it. *)
Lemma destroy_growing (base : list (option LegalizationCluster))
    (s : ClusterLegalizationStrategy) (t : t_logical_block_type_ptr)
    (L : Legalizer) :
  growing rules base s t L ->
  destroy (List.length base) L = mk_legalizer s (base ++ [None]).
Proof.
  intros (Hs & c & Hc & _). destruct L as [s0 cs]. simpl in Hs, Hc. subst.
  unfold destroy. simpl. now rewrite replace_at_tail.
Qed.

Lemma mol_clustered_live (m : PackMoleculeId) (s s' : ClusterLegalizationStrategy)
    (cs : list (option LegalizationCluster)) :
  mol_clustered m (mk_legalizer s (filter is_live cs))
  = mol_clustered m (mk_legalizer s' cs).
Proof.
  unfold mol_clustered. simpl.
  induction cs as [|[c|] cs IH]; simpl; [reflexivity|now rewrite IH|exact IH].
Qed.
End OracleFacts.

(** ** The neighbor passes keep finalized clusters legal *)

Section NeighborLegalFacts.
Variable rules : SpecOracle.Rules.
Variable arch : Arch.
Variable nl : Netlist.
Import SpecOracle.

Lemma scan_mol_list_growing (base : list (option LegalizationCluster))
    (s : ClusterLegalizationStrategy) (t : t_logical_block_type_ptr)
    (mols : list PackMoleculeId) :
  forall (L : Legalizer) (cm : list PackMoleculeId),
    growing rules base s t L ->
    growing rules base s t
      (snd (fst (scan_mol_list (H := oracle rules) (List.length base)
                               mols L cm))).
Proof.
  induction mols as [|m mols IH]; intros L cm Hg; simpl; [exact Hg|].
  destruct (mol_clustered m L); [now apply IH|].
  destruct (mol_mem m cm); [now apply IH|].
  destruct (match cluster_at (List.length base) L with
            | Some c => compatible rules m (lc_type c)
            | None => false
            end).
  - destruct (add rules m (List.length base) L) as [status L'] eqn:Ha.
    pose proof (add_growing rules _ _ _ _ _ _ _ Hg Ha) as Hg'.
    destruct (is_passed status).
    + now apply IH.
    + specialize (IH L' cm Hg').
      destruct (scan_mol_list _ mols L' cm) as [[kept L''] cm']. exact IH.
  - specialize (IH L cm Hg).
    destruct (scan_mol_list _ mols L cm) as [[kept L''] cm']. exact IH.
Qed.

Lemma try_cluster_tile_growing (base : list (option LegalizationCluster))
    (s : ClusterLegalizationStrategy) (t : t_logical_block_type_ptr)
    (tile_loc : t_physical_tile_loc) (st : NbState) :
  growing rules base s t (fst (fst st)) ->
  growing rules base s t
    (fst (fst (try_cluster_tile (H := oracle rules) (List.length base)
                                tile_loc st))).
Proof.
  destruct st as [[L locs] cm]. simpl. intros Hg. unfold try_cluster_tile.
  destruct (alookup tile_loc_eqb tile_loc locs) as [mol_list|]; [|exact Hg].
  pose proof (scan_mol_list_growing base s t mol_list L cm Hg) as Hs.
  destruct (scan_mol_list _ mol_list L cm) as [[kept L'] cm'].
  destruct kept; exact Hs.
Qed.

Lemma visit_neighbors_growing (base : list (option LegalizationCluster))
    (s : ClusterLegalizationStrategy) (t : t_logical_block_type_ptr)
    (seed : t_physical_tile_loc) (offsets : list (Z * Z)) :
  forall st : NbState,
    growing rules base s t (fst (fst st)) ->
    growing rules base s t
      (fst (fst (visit_neighbors (H := oracle rules) (List.length base)
                                 seed offsets st))).
Proof.
  induction offsets as [|[dx dy] rest IH]; intros st Hg; simpl; [exact Hg|].
  destruct (negb (acount tile_loc_eqb _ (snd (fst st)))); [now apply IH|].
  pose proof (try_cluster_tile_growing base s t
                (mk_tile_loc (tl_x seed + dx) (tl_y seed + dy)
                             (tl_layer_num seed)) st Hg) as Hg'.
  destruct (negb (has_empty_primitive _)); [exact Hg'|now apply IH].
Qed.

Lemma neighbor_seed_legal (p : ClusterLegalizationStrategy) (radius : Z)
    (entry : PackMoleculeId * t_physical_tile_loc)
    (sc sc' : PackState Legalizer * list PackMoleculeId) :
  (p = FULL -> sl_strategy (ps_cl (fst sc)) = FULL) ->
  finalized_legal rules (ps_cl (fst sc)) ->
  neighbor_seed (H := oracle rules) arch nl p radius entry sc = Ok sc' ->
  finalized_legal rules (ps_cl (fst sc'))
  /\ sl_strategy (ps_cl (fst sc')) = sl_strategy (ps_cl (fst sc)).
Proof.
  destruct sc as [st cm], entry as [mol seed]. simpl.
  intros Hfull Hlegal Hrun. unfold neighbor_seed in Hrun.
  destruct (mol_mem mol cm); [inversion Hrun; subst; auto|].
  bind_ok Hrun. destruct a as [cid L1].
  apply create_new_cluster_spec in E as (-> & t & Hg).
  set (base := sl_clusters (ps_cl st)) in *.
  set (s := sl_strategy (ps_cl st)) in *.
  apply (try_cluster_tile_growing base s t seed
           (L1, unclustered_block_locs st, mol_insert mol cm)) in Hg.
  apply (visit_neighbors_growing base s t seed (neighbor_offsets radius)) in Hg.
  destruct (visit_neighbors _ _ _ _) as [[L3 locs3] cm3]. simpl in Hg.
  assert (Hbase : Forall (cluster_ok rules) base)
    by (now apply finalized_legal_Forall).
  destruct (strategy_is_full p) eqn:Hp.
  { inversion Hrun; subst. simpl.
    assert (Hs : s = FULL) by (apply Hfull; destruct p; [discriminate|reflexivity]).
    destruct (clean_growing_legal rules base s t L3 Hg (or_introl Hs))
      as (Hl & Hst & _). auto. }
  simpl in Hrun.
  destruct (check rules (List.length base) L3) eqn:Hck.
  { inversion Hrun; subst. simpl.
    destruct (clean_growing_legal rules base s t L3 Hg (or_intror Hck))
      as (Hl & Hst & _). auto. }
  destruct (requeue_molecules _ _ _ _ _) as [[ub locs] cm'].
  inversion Hrun; subst. unfold set_cl. cbn [fst ps_cl].
  rewrite (destroy_growing rules base s t L3 Hg). simpl.
  split; [|reflexivity].
  apply finalized_legal_Forall. simpl. apply Forall_app. split; [exact Hbase|].
  constructor; [exact I|constructor].
Qed.

Lemma neighbor_seeds_legal (p : ClusterLegalizationStrategy) (radius : Z)
    (entries : list (PackMoleculeId * t_physical_tile_loc)) :
  forall sc sc' : PackState Legalizer * list PackMoleculeId,
    (p = FULL -> sl_strategy (ps_cl (fst sc)) = FULL) ->
    finalized_legal rules (ps_cl (fst sc)) ->
    neighbor_seeds (H := oracle rules) arch nl p radius entries sc = Ok sc' ->
    finalized_legal rules (ps_cl (fst sc')).
Proof.
  induction entries as [|e rest IH]; intros sc sc' Hfull Hlegal Hrun;
    simpl in Hrun.
  - inversion Hrun; subst. exact Hlegal.
  - bind_ok Hrun.
    destruct (neighbor_seed_legal p radius e sc a Hfull Hlegal E) as [Hl Hs].
    apply (IH a sc'); [|exact Hl|exact Hrun].
    intros Hp. rewrite Hs. auto.
Qed.

Lemma neighbor_cluster_pass_legal (p : ClusterLegalizationStrategy)
    (radius : Z) (st st' : PackState Legalizer) :
  (p = FULL -> sl_strategy (ps_cl st) = FULL) ->
  finalized_legal rules (ps_cl st) ->
  neighbor_cluster_pass (H := oracle rules) arch nl p radius st = Ok st' ->
  finalized_legal rules (ps_cl st').
Proof.
  intros Hfull Hlegal Hrun. unfold neighbor_cluster_pass in Hrun.
  bind_ok Hrun. destruct a as [st1 cm]. inversion Hrun; subst. simpl.
  exact (neighbor_seeds_legal p radius _ (st, []) (st1, cm) Hfull Hlegal E).
Qed.
End NeighborLegalFacts.

(** ** The usage counters *)

Lemma alookup_aset_nat {V} (k k' : nat) (v : V) (m : list (nat * V)) :
  alookup Nat.eqb k (aset Nat.eqb k' v m)
  = if Nat.eqb k k' then Some v else alookup Nat.eqb k m.
Proof.
  induction m as [|[k0 v0] m IH]; simpl; [reflexivity|].
  destruct (Nat.eqb k' k0) eqn:E0; simpl.
  - apply Nat.eqb_eq in E0. subst k0.
    destruct (Nat.eqb k k'); reflexivity.
  - rewrite IH. destruct (Nat.eqb k k0) eqn:E1; [|reflexivity].
    apply Nat.eqb_eq in E1. subst k0.
    rewrite Nat.eqb_sym, E0. reflexivity.
Qed.

Lemma counter_get_incr (t t0 : t_logical_block_type_ptr) (c : TypeCounters) :
  counter_get t (counter_incr t0 c)
  = if Nat.eqb t t0 then (counter_get t0 c + 1) mod SIZE_MAX1
    else counter_get t c.
Proof.
  unfold counter_incr, counter_get at 1. rewrite alookup_aset_nat.
  destruct (Nat.eqb t t0); reflexivity.
Qed.

Lemma counter_get_decr (t t0 : t_logical_block_type_ptr) (c : TypeCounters) :
  counter_get t (counter_decr t0 c)
  = if Nat.eqb t t0 then (counter_get t0 c - 1) mod SIZE_MAX1
    else counter_get t c.
Proof.
  unfold counter_decr, counter_get at 1. rewrite alookup_aset_nat.
  destruct (Nat.eqb t t0); reflexivity.
Qed.

(** A decrement undoes an increment, also at the wrap-around. *)
Lemma counter_rollback (t t0 : t_logical_block_type_ptr) (c : TypeCounters) :
  counters_wf c ->
  counter_get t (counter_decr t0 (counter_incr t0 c)) = counter_get t c.
Proof.
  intros Hwf. rewrite counter_get_decr, !counter_get_incr.
  rewrite Nat.eqb_refl.
  destruct (Nat.eqb t t0) eqn:E; [|reflexivity].
  apply Nat.eqb_eq in E. subst t0.
  specialize (Hwf t). unfold SIZE_MAX1 in *.
  destruct (Z.eq_dec (counter_get t c + 1) (2 ^ 64)) as [Hmax|Hmax].
  - rewrite Hmax. replace (counter_get t c) with (2 ^ 64 - 1) by lia.
    reflexivity.
  - rewrite (Z.mod_small (counter_get t c + 1)) by lia.
    replace (counter_get t c + 1 - 1) with (counter_get t c) by lia.
    apply Z.mod_small. lia.
Qed.

(** ** The greedy clusterer on the oracle of the spec *)

Section GreedyFacts.
Variable rules : SpecOracle.Rules.
Variable arch : Arch.
Variable nl : Netlist.
Variable SeedSelector : Type.
Variable get_next_seed :
  SeedSelector -> SpecOracle.Legalizer -> option PackMoleculeId * SeedSelector.
Variable Candidates : Type.
Variable get_molecule_for_cluster :
  LegalizationClusterId -> SpecOracle.Legalizer -> Candidates ->
  option PackMoleculeId * Candidates.
Variable max_num_repeated_molecules : nat.
Variable candidate_budget : nat.
Import SpecOracle.

Abbreviation GState := (GreedyState (CL := Legalizer) SeedSelector Candidates).
Abbreviation attempt_ :=
  (attempt (H := oracle rules) arch nl SeedSelector get_next_seed Candidates
           get_molecule_for_cluster max_num_repeated_molecules
           candidate_budget).
Abbreviation cluster_seed_ :=
  (cluster_seed (H := oracle rules) arch nl SeedSelector get_next_seed
                Candidates get_molecule_for_cluster
                max_num_repeated_molecules candidate_budget).

Lemma fill_loop_growing (base : list (option LegalizationCluster))
    (s : ClusterLegalizationStrategy) (t : t_logical_block_type_ptr)
    (budget : nat) :
  forall (next : option PackMoleculeId) (rep : nat) (L : Legalizer)
         (cand : Candidates),
    growing rules base s t L ->
    growing rules base s t
      (fst (fill_loop (H := oracle rules) Candidates get_molecule_for_cluster
                      max_num_repeated_molecules budget (List.length base)
                      next rep L cand)).
Proof.
  induction budget as [|budget IH]; intros next rep L cand Hg; simpl;
    [exact Hg|].
  destruct next as [m|]; [|exact Hg].
  destruct (Nat.ltb rep max_num_repeated_molecules); [|exact Hg].
  unfold try_fill_cluster. simpl.
  destruct (add rules m (List.length base) L) as [status L'] eqn:Ha.
  pose proof (add_growing rules _ _ _ _ _ _ _ Hg Ha) as Hg'.
  destruct (get_molecule_for_cluster (List.length base) L' cand)
    as [next' cand'].
  now apply IH.
Qed.

Lemma growing_type (base : list (option LegalizationCluster))
    (s : ClusterLegalizationStrategy) (t : t_logical_block_type_ptr)
    (L : Legalizer) :
  growing rules base s t L -> type_of (List.length base) L = t.
Proof.
  intros (Hs & c & Hc & Ht & _). destruct L as [s0 cs]. simpl in *. subst.
  unfold type_of. rewrite cluster_at_tail. reflexivity.
Qed.

Lemma Forall_cluster_ok_live (cs : list (option LegalizationCluster)) :
  Forall (cluster_ok rules) cs -> Forall (cluster_ok rules) (filter is_live cs).
Proof.
  intros Hall. apply Forall_forall. intros oc Hin.
  apply filter_In in Hin as [Hin _].
  rewrite Forall_forall in Hall. auto.
Qed.

Lemma filter_live_tail_none (base : list (option LegalizationCluster)) :
  filter is_live (base ++ [None]) = filter is_live base.
Proof. rewrite filter_app. simpl. apply app_nil_r. Qed.

(** One attempt: a legal cluster is cleaned and counted, the finalized
    clusters staying legal; an illegal one, which only the cheap tier can
    give, leaves nothing behind: the clusters, the cluster count and the
    usage counters are those from before the attempt, and the seed is
    kept. *)
Lemma attempt_spec (strategy : ClusterLegalizationStrategy)
    (seed : PackMoleculeId) (st st1 : GState) (legal : bool)
    (next : option PackMoleculeId) :
  attempt_ strategy seed st = Ok (legal, next, st1) ->
  let id := List.length (sl_clusters (g_cl st)) in
  g_attempts st1 = g_attempts st ++ [mk_attempt seed strategy id legal]
  /\ (legal = true ->
      (finalized_legal rules (g_cl st) -> finalized_legal rules (g_cl st1))
      /\ check rules id (g_cl st1) = true
      /\ (exists c, cluster_at id (g_cl st1) = Some c /\ lc_cleaned c = true)
      /\ total_clb_num st1 = total_clb_num st + 1)
  /\ (legal = false ->
      strategy = SKIP_INTRA_LB_ROUTE
      /\ next = Some seed
      /\ sl_clusters (g_cl st1) = filter is_live (sl_clusters (g_cl st))
      /\ total_clb_num st1 = total_clb_num st
      /\ (counters_wf (num_used_type_instances st) ->
          forall t, counter_get t (num_used_type_instances st1)
                    = counter_get t (num_used_type_instances st))).
Proof.
  intros Hrun id. unfold attempt, start_new_cluster_util in Hrun.
  unfold bind in Hrun.
  destruct (create_new_cluster arch nl seed
              (set_legalization_strategy strategy (g_cl st)))
    as [[cid L2]|e] eqn:Hc; [|discriminate].
  apply create_new_cluster_spec in Hc as (Hid & t & Hg).
  simpl in Hid, Hg. fold id in Hid. subst cid.
  set (base := sl_clusters (g_cl st)) in *.
  simpl in Hrun.
  destruct (get_molecule_for_cluster id L2 (g_candidates st))
    as [next_molecule cand1].
  pose proof (fill_loop_growing base strategy t candidate_budget
                next_molecule 0%nat L2 cand1 Hg) as Hg3.
  destruct (fill_loop _ _ _ _ _ _ _ _ _) as [L3 cand2]. simpl in Hg3.
  assert (Hok : (if strategy_is_full strategy then true
                 else check rules id L3) = true ->
                strategy = FULL \/ check rules id L3 = true).
  { destruct strategy; simpl; auto. }
  destruct (if strategy_is_full strategy then true else check rules id L3)
    eqn:Hl.
  - destruct (get_next_seed (g_selector st) L3) as [istart' sel'].
    destruct (clean_growing_legal rules base strategy t L3 Hg3
                (Hok eq_refl)) as (Hfl & _ & Hck & Hcl).
    inversion Hrun; subst legal next st1. simpl.
    split; [reflexivity|]. split; [|discriminate].
    intros _. split; [|auto].
    intros Hlegal. apply Hfl. now apply finalized_legal_Forall.
  - pose proof (growing_type base strategy t L2 Hg) as Ht2.
    pose proof (growing_type base strategy t L3 Hg3) as Ht3.
    pose proof (destroy_growing rules base strategy t L3 Hg3) as Hd.
    inversion Hrun; subst legal next st1.
    cbn [g_cl g_attempts total_clb_num num_used_type_instances].
    split; [reflexivity|]. split; [discriminate|]. intros _.
    split; [destruct strategy; [reflexivity|discriminate]|].
    split; [reflexivity|].
    split.
    { unfold id. rewrite Hd. unfold compress_ids. simpl.
      apply filter_live_tail_none. }
    split; [lia|].
    intros Hwf t0. change (get_cluster_type id L3) with (type_of id L3).
    change (get_cluster_type id L2) with (type_of id L2).
    unfold id. rewrite Ht2, Ht3.
    apply counter_rollback. exact Hwf.
Qed.
End GreedyFacts.

Section GreedyRetry.
Variable rules : SpecOracle.Rules.
Variable arch : Arch.
Variable nl : Netlist.
Variable SeedSelector : Type.
Variable get_next_seed :
  SeedSelector -> SpecOracle.Legalizer -> option PackMoleculeId * SeedSelector.
Variable Candidates : Type.
Variable get_molecule_for_cluster :
  LegalizationClusterId -> SpecOracle.Legalizer -> Candidates ->
  option PackMoleculeId * Candidates.
Variable max_num_repeated_molecules : nat.
Variable candidate_budget : nat.
Import SpecOracle.

Abbreviation GSt := (GreedyState (CL := Legalizer) SeedSelector Candidates).
Abbreviation attempt' :=
  (attempt (H := oracle rules) arch nl SeedSelector get_next_seed Candidates
           get_molecule_for_cluster max_num_repeated_molecules
           candidate_budget).
Abbreviation cluster_seed' :=
  (cluster_seed (H := oracle rules) arch nl SeedSelector get_next_seed
                Candidates get_molecule_for_cluster
                max_num_repeated_molecules candidate_budget).
Abbreviation attempt_spec' :=
  (attempt_spec rules arch nl SeedSelector get_next_seed Candidates
                get_molecule_for_cluster max_num_repeated_molecules
                candidate_budget).

Lemma mol_clustered_compressed (m : PackMoleculeId) (L L1 : Legalizer) :
  sl_clusters L1 = filter is_live (sl_clusters L) ->
  mol_clustered m L1 = mol_clustered m L.
Proof.
  intros E. destruct L as [s cs], L1 as [s1 cs1]. simpl in E. subst cs1.
  apply mol_clustered_live.
Qed.

(** The body of the loop over the seeds is one attempt under the cheap
    tier, and a second one under the strict tier when the first gave an
    illegal cluster. *)
Lemma cluster_seed_cases (seed : PackMoleculeId) (st st' : GSt)
    (next : option PackMoleculeId) :
  cluster_seed' seed st = Ok (next, st') ->
  attempt' SKIP_INTRA_LB_ROUTE seed st = Ok (true, next, st')
  \/ exists st1,
      attempt' SKIP_INTRA_LB_ROUTE seed st = Ok (false, Some seed, st1)
      /\ attempt' FULL seed st1 = Ok (true, next, st').
Proof.
  unfold cluster_seed, legalization_strategies. simpl. intros Hrun.
  unfold bind in Hrun.
  destruct (attempt' SKIP_INTRA_LB_ROUTE seed st)
    as [[[legal nxt] st1]|e] eqn:E1; [|discriminate].
  destruct legal.
  - inversion Hrun; subst. left. reflexivity.
  - right. exists st1.
    destruct (attempt_spec' _ _ _ _ _ _ E1) as (_ & _ & Hill).
    destruct (Hill eq_refl) as (_ & -> & _).
    split; [reflexivity|].
    destruct (attempt' FULL seed st1) as [[[legal2 nxt2] st2]|e] eqn:E2;
      [|discriminate].
    destruct legal2.
    + inversion Hrun; subst. reflexivity.
    + destruct (attempt_spec' _ _ _ _ _ _ E2) as (_ & _ & Hill2).
      destruct (Hill2 eq_refl) as (Hs & _). discriminate.
Qed.

Lemma cluster_seed_legal (seed : PackMoleculeId) (st st' : GSt)
    (next : option PackMoleculeId) :
  finalized_legal rules (g_cl st) ->
  cluster_seed' seed st = Ok (next, st') ->
  finalized_legal rules (g_cl st').
Proof.
  intros Hlegal Hrun.
  destruct (cluster_seed_cases seed st st' next Hrun) as [E1|(st1 & E1 & E2)].
  - destruct (attempt_spec' _ _ _ _ _ _ E1) as (_ & Hl & _).
    destruct (Hl eq_refl) as (Hfl & _). auto.
  - destruct (attempt_spec' _ _ _ _ _ _ E1) as (_ & _ & Hill).
    destruct (Hill eq_refl) as (_ & _ & Hcs & _).
    destruct (attempt_spec' _ _ _ _ _ _ E2) as (_ & Hl & _).
    destruct (Hl eq_refl) as (Hfl & _). apply Hfl.
    apply finalized_legal_Forall. rewrite Hcs.
    apply Forall_cluster_ok_live. now apply finalized_legal_Forall.
Qed.

(** C4.  For every seed the greedy clusterer first grows a cluster under
    the cheap tier.  If the strict check passes, the cluster is finalized
    after this one attempt.  If it fails, the cluster is destroyed: the
    legalizer holds the clusters it held before the attempt, so every
    molecule the cluster had taken is unclustered again, and the cluster
    count and the per-type usage counters are those from before the
    attempt; a second cluster is then grown from the same seed under the
    strict tier and finalized.  There is no third attempt. *)
Theorem greedy_two_tier_retry (seed : PackMoleculeId) (st st' : GSt)
    (next : option PackMoleculeId) :
  counters_wf (num_used_type_instances st) ->
  cluster_seed' seed st = Ok (next, st') ->
  let id := List.length (sl_clusters (g_cl st)) in
  (attempt' SKIP_INTRA_LB_ROUTE seed st = Ok (true, next, st')
   /\ g_attempts st'
      = g_attempts st ++ [mk_attempt seed SKIP_INTRA_LB_ROUTE id true]
   /\ check rules id (g_cl st') = true
   /\ (exists c, cluster_at id (g_cl st') = Some c /\ lc_cleaned c = true)
   /\ total_clb_num st' = total_clb_num st + 1)
  \/ (exists st1,
        attempt' SKIP_INTRA_LB_ROUTE seed st = Ok (false, Some seed, st1)
        /\ g_attempts st1
           = g_attempts st ++ [mk_attempt seed SKIP_INTRA_LB_ROUTE id false]
        /\ sl_clusters (g_cl st1) = filter is_live (sl_clusters (g_cl st))
        /\ (forall m, mol_clustered m (g_cl st1) = mol_clustered m (g_cl st))
        /\ total_clb_num st1 = total_clb_num st
        /\ (forall t, counter_get t (num_used_type_instances st1)
                      = counter_get t (num_used_type_instances st))
        /\ attempt' FULL seed st1 = Ok (true, next, st')
        /\ let id2 := List.length (sl_clusters (g_cl st1)) in
           g_attempts st'
           = g_attempts st
             ++ [mk_attempt seed SKIP_INTRA_LB_ROUTE id false;
                 mk_attempt seed FULL id2 true]
           /\ check rules id2 (g_cl st') = true
           /\ (exists c, cluster_at id2 (g_cl st') = Some c
                         /\ lc_cleaned c = true)
           /\ total_clb_num st' = total_clb_num st + 1).
Proof.
  intros Hwf Hrun id.
  destruct (cluster_seed_cases seed st st' next Hrun) as [E1|(st1 & E1 & E2)].
  - left. destruct (attempt_spec' _ _ _ _ _ _ E1) as (Hlog & Hl & _).
    destruct (Hl eq_refl) as (_ & Hck & Hcl & Htot).
    split; [exact E1|]. split; [exact Hlog|]. auto.
  - right. exists st1.
    destruct (attempt_spec' _ _ _ _ _ _ E1) as (Hlog1 & _ & Hill).
    destruct (Hill eq_refl) as (_ & _ & Hcs & Htot1 & Hcnt).
    destruct (attempt_spec' _ _ _ _ _ _ E2) as (Hlog2 & Hl & _).
    destruct (Hl eq_refl) as (_ & Hck & Hcl & Htot2).
    split; [exact E1|]. split; [exact Hlog1|]. split; [exact Hcs|].
    split; [intros m; now apply mol_clustered_compressed|].
    split; [exact Htot1|]. split; [exact (Hcnt Hwf)|].
    split; [exact E2|]. simpl.
    split; [rewrite Hlog2, Hlog1, <- app_assoc; reflexivity|].
    split; [exact Hck|]. split; [exact Hcl|]. lia.
Qed.
End GreedyRetry.

(** C3.  From a legalizer whose finalized (cleaned) clusters all pass the
    strict check, the greedy clusterer, for any seed, and the two neighbor
    passes, the first under the cheap tier and the second after the switch
    to the strategy FULL, leave a legalizer whose finalized clusters all
    pass the strict check: a cluster grown under the cheap tier is cleaned
    only after the check, and a cluster grown under FULL, which is cleaned
    without a check, was legal after its start and after every addition. *)
Theorem finalized_clusters_pass_strict_check
    (rules : SpecOracle.Rules) (L : SpecOracle.Legalizer) :
  SpecOracle.finalized_legal rules L ->
  (forall arch nl (SeedSelector : Type) get_next_seed (Candidates : Type)
          get_molecule_for_cluster max_num_repeated_molecules
          candidate_budget seed
          (st st' : GreedyState (CL := SpecOracle.Legalizer)
                                SeedSelector Candidates) next,
      g_cl st = L ->
      cluster_seed (H := SpecOracle.oracle rules) arch nl SeedSelector
        get_next_seed Candidates get_molecule_for_cluster
        max_num_repeated_molecules candidate_budget seed st = Ok (next, st') ->
      SpecOracle.finalized_legal rules (g_cl st'))
  /\ (forall arch nl radius (st st2 st3 : PackState SpecOracle.Legalizer),
         ps_cl st = L ->
         neighbor_cluster_pass (H := SpecOracle.oracle rules) arch nl
           SKIP_INTRA_LB_ROUTE radius st = Ok st2 ->
         neighbor_cluster_pass (H := SpecOracle.oracle rules) arch nl
           FULL radius
           (set_cl (set_legalization_strategy
                      (ClusterLegalizer := SpecOracle.oracle rules)
                      FULL (ps_cl st2)) st2) = Ok st3 ->
         SpecOracle.finalized_legal rules (ps_cl st2)
         /\ SpecOracle.finalized_legal rules (ps_cl st3)).
Proof.
  intros Hlegal. split.
  - intros arch nl SeedSelector get_next_seed Candidates
           get_molecule_for_cluster maxrep budget seed st st' next HL Hrun.
    subst L. eapply cluster_seed_legal; eauto.
  - intros arch nl radius st st2 st3 HL H2 H3. subst L.
    assert (Hl2 : SpecOracle.finalized_legal rules (ps_cl st2)).
    { eapply neighbor_cluster_pass_legal; [|exact Hlegal|exact H2].
      discriminate. }
    split; [exact Hl2|].
    eapply neighbor_cluster_pass_legal; [| |exact H3].
    + reflexivity.
    + simpl. apply finalized_legal_Forall. simpl.
      now apply finalized_legal_Forall.
Qed.

(** The seed 0 with the candidate 1, clusters routing with one molecule
    only: the cheap cluster {0, 1} is destroyed, the strict cluster {0} is
    finalized, and one cluster is counted. *)
Lemma greedy_two_tier_retry_witness :
  counters_wf (num_used_type_instances (Fixture.greedy_start [1%nat]))
  /\ exists st',
      cluster_seed
        (H := SpecOracle.oracle
                (Fixture.rules (fun mols => Nat.leb (List.length mols) 1)))
        Fixture.arch (Fixture.netlist []) (list PackMoleculeId)
        Fixture.next_of_list (list PackMoleculeId) Fixture.candidate_of_list
        1%nat 5%nat 0%nat (Fixture.greedy_start [1%nat]) = Ok (None, st')
      /\ g_attempts st'
         = [mk_attempt 0%nat SKIP_INTRA_LB_ROUTE 0%nat false;
            mk_attempt 0%nat FULL 0%nat true]
      /\ total_clb_num st' = 1.
Proof.
  assert (Hwf : counters_wf
                  (num_used_type_instances (Fixture.greedy_start [1%nat]))).
  { intros t. unfold counter_get, SIZE_MAX1. simpl. lia. }
  split; [exact Hwf|].
  eexists. split; [vm_compute; reflexivity|]. split; [reflexivity|].
  destruct (greedy_two_tier_retry
              (Fixture.rules (fun mols => Nat.leb (List.length mols) 1))
              Fixture.arch (Fixture.netlist []) (list PackMoleculeId)
              Fixture.next_of_list (list PackMoleculeId)
              Fixture.candidate_of_list 1%nat 5%nat 0%nat
              (Fixture.greedy_start [1%nat]) _ None Hwf eq_refl)
    as [(_ & _ & _ & _ & Ht)|(st1 & _ & _ & _ & _ & _ & _ & _ & _ & _ & _ & Ht)];
    exact Ht.
Defined.

(** The legalizer as constructed has no finalized cluster; after the seed
    0 of the run above its finalized clusters pass the strict check. *)
Lemma finalized_clusters_pass_strict_check_witness :
  SpecOracle.finalized_legal
    (Fixture.rules (fun mols => Nat.leb (List.length mols) 1))
    (SpecOracle.empty SKIP_INTRA_LB_ROUTE)
  /\ exists st',
      cluster_seed
        (H := SpecOracle.oracle
                (Fixture.rules (fun mols => Nat.leb (List.length mols) 1)))
        Fixture.arch (Fixture.netlist []) (list PackMoleculeId)
        Fixture.next_of_list (list PackMoleculeId) Fixture.candidate_of_list
        1%nat 5%nat 0%nat (Fixture.greedy_start [1%nat]) = Ok (None, st')
      /\ SpecOracle.finalized_legal
           (Fixture.rules (fun mols => Nat.leb (List.length mols) 1))
           (g_cl st').
Proof.
  assert (Hempty : SpecOracle.finalized_legal
                     (Fixture.rules (fun mols => Nat.leb (List.length mols) 1))
                     (SpecOracle.empty SKIP_INTRA_LB_ROUTE)).
  { intros id c Hat. destruct id; discriminate Hat. }
  split; [exact Hempty|].
  eexists. split; [vm_compute; reflexivity|].
  destruct (finalized_clusters_pass_strict_check
              (Fixture.rules (fun mols => Nat.leb (List.length mols) 1))
              (SpecOracle.empty SKIP_INTRA_LB_ROUTE) Hempty) as [Hgreedy _].
  exact (Hgreedy Fixture.arch (Fixture.netlist []) (list PackMoleculeId)
           Fixture.next_of_list (list PackMoleculeId)
           Fixture.candidate_of_list 1%nat 5%nat 0%nat
           (Fixture.greedy_start [1%nat]) _ None eq_refl eq_refl).
Defined.

(** ** The domain of the relocation search *)

Lemma zseq_NoDup (lo : Z) (n : nat) : NoDup (zseq lo n).
Proof.
  revert lo. induction n as [|n IH]; intros lo; simpl; constructor.
  - rewrite zseq_In. lia.
  - apply IH.
Qed.

Lemma NoDup_flat_map_apart {A B} (f : A -> list B) (l : list A) :
  NoDup l ->
  (forall a, In a l -> NoDup (f a)) ->
  (forall a b x, In a l -> In b l -> In x (f a) -> In x (f b) -> a = b) ->
  NoDup (flat_map f l).
Proof.
  induction l as [|a l IH]; simpl; intros Hl Hf Hapart; [constructor|].
  inversion Hl as [|? ? Hna Hl']; subst.
  assert (Hrest : NoDup (flat_map f l)).
  { apply IH; auto. intros a' b x Ha Hb. apply Hapart; auto. }
  assert (Hhead : NoDup (f a)) by auto.
  revert Hhead. 
  assert (Hsep : forall x, In x (f a) -> ~ In x (flat_map f l)).
  { intros x Hx Hin. apply in_flat_map in Hin as (b & Hb & Hxb).
    assert (a = b) by (apply (Hapart a b x); auto). subst. contradiction. }
  induction (f a) as [|x xs IHx]; simpl; intros Hhead; [exact Hrest|].
  inversion Hhead as [|? ? Hnx Hxs]; subst. constructor.
  - intros Hin. apply in_app_or in Hin as [Hin|Hin]; [contradiction|].
    apply (Hsep x); simpl; auto.
  - apply IHx; [|exact Hxs]. intros y Hy. apply Hsep. simpl. auto.
Qed.

Lemma NoDup_pairs {A B} (l1 : list A) (l2 : list B) :
  NoDup l1 -> NoDup l2 -> NoDup (list_prod l1 l2).
Proof.
  intros H1 H2. induction H1 as [|a l1 Hna H1 IH]; simpl; [constructor|].
  assert (Hm : NoDup (map (fun y => (a, y)) l2)).
  { clear IH. induction H2 as [|b l2 Hnb H2 IH2]; simpl; constructor; auto.
    intros Hin. apply in_map_iff in Hin as (y & E & Hy).
    inversion E; subst. contradiction. }
  revert Hm.
  assert (Hsep : forall p, In p (map (fun y => (a, y)) l2) ->
                           ~ In p (list_prod l1 l2)).
  { intros [x y] Hp Hin. apply in_map_iff in Hp as (y' & E & _).
    inversion E; subst. apply in_prod_iff in Hin as [Hin _]. contradiction. }
  induction (map (fun y => (a, y)) l2) as [|p ps IHp]; simpl; intros Hm;
    [exact IH|].
  inversion Hm as [|? ? Hnp Hps]; subst. constructor.
  - intros Hin. apply in_app_or in Hin as [Hin|Hin]; [contradiction|].
    apply (Hsep p); simpl; auto.
  - apply IHp; [|exact Hps]. intros q Hq. apply Hsep. simpl. auto.
Qed.

Section SearchDomainFacts.
Variable arch : Arch.
Variable grid : DeviceGrid.

Lemma ring_offsets_In (r : Z) (d : Z * Z) :
  In d (ring_offsets r) <-> Z.abs (fst d) + Z.abs (snd d) = r.
Proof.
  unfold ring_offsets. rewrite filter_In, Z.eqb_eq. destruct d as [dx dy].
  simpl. rewrite in_prod_iff, !zrange_In. lia.
Qed.

Lemma sites_at_In (orig : t_physical_tile_loc) (d : Z * Z) (loc : t_pl_loc) :
  In loc (sites_at grid orig d)
  <-> pl_x loc = tl_x orig + fst d
      /\ pl_y loc = tl_y orig + snd d
      /\ pl_layer loc = tl_layer_num orig
      /\ 0 <= pl_sub_tile loc < capacity (get_physical_type grid (tile_of loc)).
Proof.
  unfold sites_at. rewrite in_map_iff. simpl. split.
  - intros (s & <- & Hs). apply zseq_In in Hs. unfold tile_of. simpl.
    repeat split; lia.
  - intros (Hx & Hy & Hl & Hs). exists (pl_sub_tile loc). split.
    + destruct loc. simpl in *. subst. reflexivity.
    + apply zseq_In. unfold tile_of in Hs. rewrite Hx, Hy, Hl in Hs. lia.
Qed.

Lemma candidates_In (orig : t_physical_tile_loc) (loc : t_pl_loc) :
  In loc (candidates grid orig) <-> in_search_domain grid orig loc.
Proof.
  unfold candidates, ring_candidates, in_search_domain, manhattan. split.
  - intros Hin. apply in_flat_map in Hin as (r & Hr & Hin).
    apply in_flat_map in Hin as (d & Hd & Hloc).
    apply zrange_In in Hr. apply ring_offsets_In in Hd.
    apply sites_at_In in Hloc as (Hx & Hy & Hl & Hs).
    split; [exact Hl|]. split; [|exact Hs]. rewrite Hx, Hy. lia.
  - intros (Hl & Hdist & Hs).
    apply in_flat_map.
    exists (Z.abs (pl_x loc - tl_x orig) + Z.abs (pl_y loc - tl_y orig)).
    split; [apply zrange_In; lia|].
    apply in_flat_map.
    exists (pl_x loc - tl_x orig, pl_y loc - tl_y orig).
    split; [apply ring_offsets_In; reflexivity|].
    apply sites_at_In. simpl. repeat split; solve [lia | exact Hl].
Qed.

Lemma admissible_on_device (tbl : PlacedTable)
    (ct : t_logical_block_type_ptr) (loc : t_pl_loc) :
  admissible arch grid tbl ct loc = true <->
  on_device grid loc
  /\ is_tile_compatible arch (get_physical_type grid (tile_of loc)) ct = true
  /\ is_root_tile grid (tile_of loc) = true
  /\ tbl_find loc tbl = None.
Proof.
  unfold admissible, on_device, tbl_count, acount, tbl_find.
  rewrite !andb_true_iff, !negb_true_iff, !orb_false_iff.
  rewrite !Z.ltb_ge, !Z.geb_leb, !Z.leb_gt.
  destruct (alookup pl_loc_eqb loc tbl); intuition (try discriminate; lia).
Qed.

Lemma search_site_sound (tbl : PlacedTable) (ct : t_logical_block_type_ptr)
    (orig : t_physical_tile_loc) (loc : t_pl_loc) :
  search_site arch grid tbl ct orig = Some loc ->
  in_search_domain grid orig loc
  /\ on_device grid loc
  /\ is_tile_compatible arch (get_physical_type grid (tile_of loc)) ct = true
  /\ is_root_tile grid (tile_of loc) = true
  /\ tbl_find loc tbl = None.
Proof.
  rewrite search_site_find. intros Hsome.
  apply find_some in Hsome as [Hin Hadm].
  split; [now apply candidates_In|]. now apply admissible_on_device.
Qed.

(** X1.  The relocation search around a desired location fails exactly
    when no site of its domain (the layer of the desired location,
    Manhattan distance at most max(width, height), a sub-tile below the
    capacity of its tile) is admissible; and a site it returns lies in this
    domain, on the device, on a root tile compatible with the type of the
    cluster, and is not bound in the table. *)
Theorem relocation_search_complete_in_domain
    (tbl : PlacedTable) (ct : t_logical_block_type_ptr)
    (orig : t_physical_tile_loc) :
  (search_site arch grid tbl ct orig = None <->
   forall loc, in_search_domain grid orig loc ->
               admissible arch grid tbl ct loc = false)
  /\ (forall loc,
         search_site arch grid tbl ct orig = Some loc ->
         in_search_domain grid orig loc
         /\ on_device grid loc
         /\ is_tile_compatible arch (get_physical_type grid (tile_of loc)) ct
            = true
         /\ is_root_tile grid (tile_of loc) = true
         /\ tbl_find loc tbl = None).
Proof.
  rewrite search_site_find. split; [split|].
  - intros Hnone loc Hdom. apply (find_none _ _ Hnone).
    now apply candidates_In.
  - intros Hall. apply find_none_all_false. intros loc Hin.
    apply Hall. now apply candidates_In.
  - intros loc Hsome. rewrite <- search_site_find in Hsome.
    now apply search_site_sound.
Qed.

(** X2.  A relocation search visits no (tile, sub-tile) pair twice: the
    sequence of its candidate sites has no duplicates. *)
Theorem relocation_search_visits_sites_once (orig : t_physical_tile_loc) :
  NoDup (candidates grid orig).
Proof.
  unfold candidates. apply NoDup_flat_map_apart.
  - apply zseq_NoDup.
  - intros r _. unfold ring_candidates. apply NoDup_flat_map_apart.
    + unfold ring_offsets. apply NoDup_filter.
      apply NoDup_pairs; apply zseq_NoDup.
    + intros d _. unfold sites_at.
      generalize (zseq_NoDup 0 (Z.to_nat
        (capacity (get_physical_type grid
           (mk_tile_loc (tl_x orig + fst d) (tl_y orig + snd d)
                        (tl_layer_num orig)))))).
      generalize (zseq 0 (Z.to_nat
        (capacity (get_physical_type grid
           (mk_tile_loc (tl_x orig + fst d) (tl_y orig + snd d)
                        (tl_layer_num orig)))))).
      intros l Hl. induction Hl as [|s l Hns Hl IH]; simpl; constructor; auto.
      intros Hin. apply in_map_iff in Hin as (s' & E & Hs').
      inversion E; subst. contradiction.
    + intros [dx dy] [ex ey] loc _ _ Ha Hb.
      apply sites_at_In in Ha as (Hx & Hy & _).
      apply sites_at_In in Hb as (Hx' & Hy' & _). simpl in *.
      f_equal; lia.
  - intros r r' loc _ _ Ha Hb.
    apply ring_candidates_distance in Ha.
    apply ring_candidates_distance in Hb. lia.
Qed.
End SearchDomainFacts.

(** ** Association lists as maps *)

Section AListFacts.
Context {K V : Type} (eqb : K -> K -> bool).
Hypothesis eqb_eq : forall a b, eqb a b = true <-> a = b.

Lemma eqb_same (k : K) : eqb k k = true.
Proof. now apply eqb_eq. Qed.

Lemma eqb_other (k k' : K) : k <> k' -> eqb k k' = false.
Proof.
  intros Hne. destruct (eqb k k') eqn:E; [|reflexivity].
  apply eqb_eq in E. contradiction.
Qed.

Lemma alookup_some_In (k : K) (v : V) (m : list (K * V)) :
  alookup eqb k m = Some v -> In (k, v) m.
Proof.
  induction m as [|[k0 v0] m IH]; simpl; [discriminate|].
  destruct (eqb k k0) eqn:E.
  - apply eqb_eq in E. intros Hv. inversion Hv; subst. auto.
  - auto.
Qed.

Lemma alookup_none_keys (k : K) (m : list (K * V)) :
  alookup eqb k m = None <-> ~ In k (map fst m).
Proof.
  induction m as [|[k0 v0] m IH]; simpl; [tauto|].
  destruct (eqb k k0) eqn:E.
  - apply eqb_eq in E. subst. split; [discriminate|].
    intros Hn. exfalso. apply Hn. auto.
  - rewrite IH. split.
    + intros Hn [Hk|Hin]; [|exact (Hn Hin)].
      subst k0. rewrite eqb_same in E. discriminate.
    + intros Hn Hin. apply Hn. auto.
Qed.

Lemma In_alookup (k : K) (v : V) (m : list (K * V)) :
  NoDup (map fst m) -> In (k, v) m -> alookup eqb k m = Some v.
Proof.
  induction m as [|[k0 v0] m IH]; simpl; intros Hnd Hin; [destruct Hin|].
  inversion Hnd as [|? ? Hn Hnd']; subst.
  destruct Hin as [E|Hin].
  - inversion E; subst. now rewrite eqb_same.
  - destruct (eqb k k0) eqn:E; [|auto].
    apply eqb_eq in E. subst. exfalso. apply Hn.
    change k0 with (fst (k0, v)). now apply in_map.
Qed.

Lemma alookup_aset_same (k : K) (v : V) (m : list (K * V)) :
  alookup eqb k (aset eqb k v m) = Some v.
Proof.
  induction m as [|[k0 v0] m IH]; simpl.
  - now rewrite eqb_same.
  - destruct (eqb k k0) eqn:E; simpl; [now rewrite eqb_same|].
    rewrite E. exact IH.
Qed.

Lemma alookup_aset_other (k k' : K) (v : V) (m : list (K * V)) :
  k' <> k -> alookup eqb k' (aset eqb k v m) = alookup eqb k' m.
Proof.
  intros Hne. induction m as [|[k0 v0] m IH]; simpl.
  - now rewrite eqb_other.
  - destruct (eqb k k0) eqn:E; simpl.
    + apply eqb_eq in E. subst. now rewrite !(eqb_other k' k0).
    + rewrite IH. reflexivity.
Qed.

Lemma alookup_aerase_same (k : K) (m : list (K * V)) :
  alookup eqb k (aerase eqb k m) = None.
Proof.
  unfold aerase. induction m as [|[k0 v0] m IH]; simpl; [reflexivity|].
  destruct (eqb k k0) eqn:E; simpl; [exact IH|]. rewrite E. exact IH.
Qed.

Lemma alookup_aerase_other (k k' : K) (m : list (K * V)) :
  k' <> k -> alookup eqb k' (aerase eqb k m) = alookup eqb k' m.
Proof.
  intros Hne. unfold aerase.
  induction m as [|[k0 v0] m IH]; simpl; [reflexivity|].
  destruct (eqb k k0) eqn:E; simpl.
  - apply eqb_eq in E. subst. now rewrite (eqb_other k' k0).
  - rewrite IH. reflexivity.
Qed.

Lemma keys_aset (k : K) (v : V) (m : list (K * V)) :
  map fst (aset eqb k v m)
  = if acount eqb k m then map fst m else map fst m ++ [k].
Proof.
  unfold acount. induction m as [|[k0 v0] m IH]; simpl; [reflexivity|].
  destruct (eqb k k0) eqn:E; simpl.
  - apply eqb_eq in E. subst. reflexivity.
  - rewrite IH. destruct (alookup eqb k m); reflexivity.
Qed.

Lemma keys_NoDup_aset (k : K) (v : V) (m : list (K * V)) :
  NoDup (map fst m) -> NoDup (map fst (aset eqb k v m)).
Proof.
  intros Hnd. rewrite keys_aset. unfold acount.
  destruct (alookup eqb k m) eqn:E; [exact Hnd|].
  apply alookup_none_keys in E.
  apply NoDup_rev in Hnd. rewrite <- (rev_involutive (map fst m ++ [k])).
  apply NoDup_rev. rewrite rev_app_distr. simpl. constructor; [|exact Hnd].
  now rewrite <- in_rev.
Qed.

Lemma keys_NoDup_aerase (k : K) (m : list (K * V)) :
  NoDup (map fst m) -> NoDup (map fst (aerase eqb k m)).
Proof. apply keys_NoDup_filter. Qed.

Lemma In_aset (k : K) (v : V) (m : list (K * V)) (e : K * V) :
  In e (aset eqb k v m) -> e = (k, v) \/ In e m.
Proof.
  induction m as [|[k0 v0] m IH]; simpl.
  - intros [<-|[]]. auto.
  - destruct (eqb k k0); simpl.
    + intros [<-|Hin]; auto.
    + intros [<-|Hin]; auto. destruct (IH Hin); auto.
Qed.

Variable weight : V -> nat.

Lemma sum_weights_aset (k : K) (v v0 : V) (m : list (K * V)) :
  alookup eqb k m = Some v0 ->
  (sum_weights weight (aset eqb k v m) + weight v0
   = sum_weights weight m + weight v)%nat.
Proof.
  unfold sum_weights.
  induction m as [|[k1 v1] m IH]; simpl; [discriminate|].
  destruct (eqb k k1) eqn:E; simpl.
  - intros Hv. inversion Hv; subst. lia.
  - intros Hv. specialize (IH Hv). lia.
Qed.

Lemma sum_weights_aerase (k : K) (v0 : V) (m : list (K * V)) :
  NoDup (map fst m) ->
  alookup eqb k m = Some v0 ->
  (sum_weights weight (aerase eqb k m) + weight v0 = sum_weights weight m)%nat.
Proof.
  unfold sum_weights, aerase.
  induction m as [|[k1 v1] m IH]; simpl; [discriminate|].
  intros Hnd. inversion Hnd as [|? ? Hn Hnd']; subst.
  destruct (eqb k k1) eqn:E; simpl.
  - intros Hv. inversion Hv; subst. apply eqb_eq in E. subst k1.
    assert (Hsame : filter (fun kv => negb (eqb k (fst kv))) m = m).
    { clear IH Hnd Hnd' Hv. induction m as [|[k2 v2] m IHm]; simpl;
        [reflexivity|].
      destruct (eqb k k2) eqn:E2.
      - apply eqb_eq in E2. subst. exfalso. apply Hn. simpl. auto.
      - simpl. rewrite IHm; [reflexivity|]. intros Hin. apply Hn. simpl. auto. }
    rewrite Hsame. lia.
  - intros Hv. specialize (IH Hnd' Hv). lia.
Qed.
End AListFacts.

(** ** What the relocation search does to the table and to the map *)

Lemma alookup_app_none {K V} (eqb : K -> K -> bool) (k : K)
    (l1 l2 : list (K * V)) :
  alookup eqb k (l1 ++ l2) = None -> alookup eqb k l2 = None.
Proof.
  induction l1 as [|[k0 v0] l1 IH]; simpl; [auto|].
  destruct (eqb k k0); [discriminate|exact IH].
Qed.

Lemma total_unplaced_clusters_sum (m : UnplacedMap) :
  total_unplaced_clusters m = sum_weights (@List.length _) m.
Proof.
  unfold total_unplaced_clusters, sum_weights.
  assert (Hgen : forall a,
             fold_left (fun total entry =>
                          (total + List.length (snd entry))%nat) m a
             = (a + list_sum (map (fun e => List.length (snd e)) m))%nat).
  { induction m as [|e m IH]; intros a; simpl; [lia|]. rewrite IH. lia. }
  apply Hgen.
Qed.

Section RelocationBookkeeping.
Context {CL : Type} `{ClusterLegalizer CL}.
Variable arch : Arch.
Variable grid : DeviceGrid.
Variable L : CL.

Lemma place_one_cluster_extends (tbl : PlacedTable) (unplaced : UnplacedMap)
    (orig : t_physical_tile_loc) (cs : list LegalizationClusterId)
    (cid : LegalizationClusterId) (st : ReloState) (n : nat) :
  In (orig, cs) unplaced -> In cid cs ->
  (exists new,
      rs_table st = new ++ tbl
      /\ Forall (bound_by_search arch grid L tbl unplaced) new
      /\ (List.length new + List.length (rs_failed st) = n)%nat) ->
  exists new,
    rs_table (place_one_cluster arch grid L orig st cid) = new ++ tbl
    /\ Forall (bound_by_search arch grid L tbl unplaced) new
    /\ (List.length new
        + List.length (rs_failed (place_one_cluster arch grid L orig st cid))
        = S n)%nat.
Proof.
  intros Hent Hcid (new & Htbl & Hgood & Hn). unfold place_one_cluster.
  destruct (search_site arch grid (rs_table st) (get_cluster_type cid L) orig)
    as [loc|] eqn:Hs; simpl.
  - exists ((loc, cid) :: new). rewrite Htbl. split; [reflexivity|].
    split; [|simpl; lia].
    constructor; [|exact Hgood].
    destruct (search_site_sound arch grid _ _ _ _ Hs)
      as (Hdom & Hdev & Hcomp & Hroot & Hfree).
    unfold bound_by_search. simpl.
    split; [exists orig, cs; auto|].
    split; [exact Hdev|]. split; [exact Hcomp|]. split; [exact Hroot|].
    rewrite Htbl in Hfree. unfold tbl_find in *.
    eapply alookup_app_none; eauto.
  - exists new. split; [exact Htbl|]. split; [exact Hgood|].
    rewrite length_app. simpl. lia.
Qed.

Lemma place_clusters_of_entry_extends (tbl : PlacedTable)
    (unplaced : UnplacedMap) (orig : t_physical_tile_loc)
    (cs : list LegalizationClusterId) (rest : list LegalizationClusterId) :
  In (orig, cs) unplaced -> incl rest cs ->
  forall (st : ReloState) (n : nat),
    (exists new,
        rs_table st = new ++ tbl
        /\ Forall (bound_by_search arch grid L tbl unplaced) new
        /\ (List.length new + List.length (rs_failed st) = n)%nat) ->
    exists new,
      rs_table (fold_left (place_one_cluster arch grid L orig) rest st)
      = new ++ tbl
      /\ Forall (bound_by_search arch grid L tbl unplaced) new
      /\ (List.length new
          + List.length
              (rs_failed (fold_left (place_one_cluster arch grid L orig)
                                    rest st))
          = n + List.length rest)%nat.
Proof.
  intros Hent. induction rest as [|cid rest IH]; intros Hincl st n Hinv; simpl.
  - destruct Hinv as (new & ? & ? & ?). exists new. repeat split; auto. lia.
  - destruct (IH (fun c Hc => Hincl c (or_intror Hc))
                (place_one_cluster arch grid L orig st cid) (S n))
      as (new & Ht & Hg & Hn).
    + eapply place_one_cluster_extends; eauto. apply Hincl. simpl. auto.
    + exists new. repeat split; auto. lia.
Qed.

(** X3.  The relocation search keeps the bindings it finds in the table and
    adds new ones in front of them: each new binding is for a cluster of
    the map of unplaced clusters, at a site of the search domain of the
    desired location of this cluster that is on the device, on a root tile
    compatible with the type of the cluster, and not bound in the table the
    search started from; and every cluster handed to the search is either
    bound or logged as failed, the two counts adding up to the number of
    clusters of the map. *)
Theorem relocation_only_adds_bindings (tbl : PlacedTable)
    (unplaced : UnplacedMap) :
  exists new,
    rs_table (place_remaining_clusters arch grid L tbl unplaced) = new ++ tbl
    /\ Forall (bound_by_search arch grid L tbl unplaced) new
    /\ (List.length new
        + List.length
            (rs_failed (place_remaining_clusters arch grid L tbl unplaced))
        = total_unplaced_clusters unplaced)%nat.
Proof.
  unfold place_remaining_clusters.
  rewrite total_unplaced_clusters_sum. unfold sum_weights.
  assert (Hgen : forall ents st n,
             incl ents unplaced ->
             (exists new,
                 rs_table st = new ++ tbl
                 /\ Forall (bound_by_search arch grid L tbl unplaced) new
                 /\ (List.length new + List.length (rs_failed st) = n)%nat) ->
             exists new,
               rs_table
                 (fold_left
                    (fun st entry =>
                       fold_left (place_one_cluster arch grid L (fst entry))
                                 (snd entry) st) ents st) = new ++ tbl
               /\ Forall (bound_by_search arch grid L tbl unplaced) new
               /\ (List.length new
                   + List.length
                       (rs_failed
                          (fold_left
                             (fun st entry =>
                                fold_left
                                  (place_one_cluster arch grid L (fst entry))
                                  (snd entry) st) ents st))
                   = n + list_sum (map (fun e => List.length (snd e)) ents))%nat).
  { induction ents as [|[orig cs] ents IH]; intros st n Hincl Hinv; simpl.
    - destruct Hinv as (new & ? & ? & ?). exists new. repeat split; auto. lia.
    - destruct (IH (fold_left (place_one_cluster arch grid L orig) cs st)
                  (n + List.length cs)%nat) as (new & Ht & Hg & Hn).
      + intros e He. apply Hincl. simpl. auto.
      + apply (place_clusters_of_entry_extends tbl unplaced orig cs cs);
          auto using incl_refl. apply Hincl. simpl. auto.
      + exists new. repeat split; auto. lia. }
  destruct (Hgen unplaced (mk_relo tbl unplaced []) 0%nat (incl_refl _))
    as (new & Ht & Hg & Hn).
  - exists []. simpl. auto.
  - exists new. auto.
Qed.
End RelocationBookkeeping.

Lemma filter_other_In (cid c : LegalizationClusterId)
    (vec : list LegalizationClusterId) :
  In c (filter (fun c' => negb (Nat.eqb c' cid)) vec) <-> In c vec /\ c <> cid.
Proof.
  rewrite filter_In, negb_true_iff, Nat.eqb_neq. tauto.
Qed.

Lemma filter_other_length (cid : LegalizationClusterId)
    (vec : list LegalizationClusterId) :
  NoDup vec -> In cid vec ->
  S (List.length (filter (fun c' => negb (Nat.eqb c' cid)) vec))
  = List.length vec.
Proof.
  induction vec as [|c vec IH]; simpl; intros Hnd Hin; [destruct Hin|].
  inversion Hnd as [|? ? Hn Hnd']; subst.
  destruct (Nat.eqb c cid) eqn:E; simpl.
  - apply Nat.eqb_eq in E. subst c. f_equal.
    f_equal. clear IH Hnd Hnd' Hin.
    induction vec as [|c vec IHv]; simpl; [reflexivity|].
    destruct (Nat.eqb c cid) eqn:E; simpl.
    + apply Nat.eqb_eq in E. subst. exfalso. apply Hn. simpl. auto.
    + f_equal. apply IHv. intros Hin. apply Hn. simpl. auto.
  - apply Nat.eqb_neq in E. destruct Hin as [->|Hin]; [congruence|].
    f_equal. now apply IH.
Qed.

Lemma nonempty_sum_weights {K X} (m : list (K * list X)) :
  Forall (fun e => snd e <> []) m ->
  (List.length m <= sum_weights (@List.length _) m)%nat
  /\ (sum_weights (@List.length _) m = 0%nat -> m = []).
Proof.
  unfold sum_weights. induction 1 as [|[k v] m Hv Hm [IH1 IH2]]; simpl.
  - split; [lia|reflexivity].
  - destruct v as [|x v]; [simpl in Hv; congruence|]. simpl.
    split; [lia|discriminate].
Qed.

Section UnplacedBookkeeping.
Context {CL : Type} `{ClusterLegalizer CL}.
Variable arch : Arch.
Variable grid : DeviceGrid.
Variable L : CL.

Abbreviation total := (sum_weights (K := t_physical_tile_loc)
                                   (@List.length LegalizationClusterId)).
Abbreviation nonempty_vecs :=
  (Forall (fun e : t_physical_tile_loc * list LegalizationClusterId =>
             snd e <> [])).

(** Taking a cluster that is once in the vector of its tile out of the
    map. *)
Lemma unplaced_remove_spec (orig : t_physical_tile_loc)
    (cid : LegalizationClusterId) (U : UnplacedMap)
    (vec : list LegalizationClusterId) :
  NoDup (map fst U) -> nonempty_vecs U ->
  alookup tile_loc_eqb orig U = Some vec -> NoDup vec -> In cid vec ->
  let vec' := filter (fun c => negb (Nat.eqb c cid)) vec in
  let U' := unplaced_remove orig cid U in
  NoDup (map fst U')
  /\ nonempty_vecs U'
  /\ S (total U') = total U
  /\ (forall o, o <> orig ->
                alookup tile_loc_eqb o U' = alookup tile_loc_eqb o U)
  /\ (vec' <> [] -> alookup tile_loc_eqb orig U' = Some vec').
Proof.
  intros Hkeys Hne Hlook Hvec Hin vec' U'.
  pose proof (filter_other_length cid vec Hvec Hin) as Hlen.
  fold vec' in Hlen.
  unfold U', unplaced_remove. rewrite Hlook. fold vec'.
  destruct vec' as [|c vec''] eqn:Ev.
  - split; [now apply keys_NoDup_aerase|].
    split.
    { rewrite Forall_forall in *. intros e He. apply Hne.
      unfold aerase in He. apply filter_In in He. tauto. }
    split.
    { assert (Hs : (total (aerase tile_loc_eqb orig U) + List.length vec
                    = total U)%nat)
        by now apply (sum_weights_aerase tile_loc_eqb tile_loc_eqb_eq).
      simpl in Hlen. lia. }
    split; [|congruence].
    intros o Ho. now apply (alookup_aerase_other tile_loc_eqb tile_loc_eqb_eq).
  - split; [now apply (keys_NoDup_aset tile_loc_eqb tile_loc_eqb_eq)|].
    split.
    { apply Forall_forall. intros e He.
      apply In_aset in He as [->|He]; [simpl; discriminate|].
      rewrite Forall_forall in Hne. auto. }
    split.
    { assert (Hs : (total (aset tile_loc_eqb orig (c :: vec'') U)
                    + List.length vec
                    = total U + List.length (c :: vec''))%nat)
        by now apply sum_weights_aset.
      simpl in Hlen, Hs. lia. }
    split.
    + intros o Ho.
      now apply (alookup_aset_other tile_loc_eqb tile_loc_eqb_eq).
    + intros _. apply (alookup_aset_same tile_loc_eqb tile_loc_eqb_eq).
Qed.

Lemma place_clusters_of_entry_counts (orig : t_physical_tile_loc)
    (rest : list LegalizationClusterId) :
  forall st : ReloState,
    NoDup (map fst (rs_unplaced st)) -> nonempty_vecs (rs_unplaced st) ->
    NoDup rest ->
    (rest <> [] ->
     exists vec, alookup tile_loc_eqb orig (rs_unplaced st) = Some vec
                 /\ NoDup vec /\ incl rest vec) ->
    let st' := fold_left (place_one_cluster arch grid L orig) rest st in
    NoDup (map fst (rs_unplaced st'))
    /\ nonempty_vecs (rs_unplaced st')
    /\ (total (rs_unplaced st') + List.length (rs_failed st)
        + List.length rest
        = total (rs_unplaced st) + List.length (rs_failed st'))%nat
    /\ (forall o, o <> orig ->
                  alookup tile_loc_eqb o (rs_unplaced st')
                  = alookup tile_loc_eqb o (rs_unplaced st)).
Proof.
  induction rest as [|cid rest IH]; intros st Hkeys Hne Hrest Hvec;
    cbn [fold_left List.length].
  - split; [exact Hkeys|]. split; [exact Hne|]. split; [lia|reflexivity].
  - inversion Hrest as [|? ? Hncid Hrest']; subst.
    destruct Hvec as (vec & Hlook & Hnd & Hincl); [discriminate|].
    assert (Hcid : In cid vec) by (apply Hincl; simpl; auto).
    destruct (search_site arch grid (rs_table st) (get_cluster_type cid L) orig)
      as [loc|] eqn:Hs.
    + assert (E : place_one_cluster arch grid L orig st cid
                  = mk_relo (tbl_bind loc cid (rs_table st))
                            (unplaced_remove orig cid (rs_unplaced st))
                            (rs_failed st))
        by (unfold place_one_cluster; rewrite Hs; reflexivity).
      rewrite E.
      destruct (unplaced_remove_spec orig cid (rs_unplaced st) vec
                  Hkeys Hne Hlook Hnd Hcid) as (K1 & N1 & T1 & O1 & S1).
      destruct (IH (mk_relo (tbl_bind loc cid (rs_table st))
                            (unplaced_remove orig cid (rs_unplaced st))
                            (rs_failed st)) K1 N1 Hrest')
        as (K2 & N2 & T2 & O2).
      * intros Hr. cbn [rs_unplaced].
        assert (Hsub : incl rest
                         (filter (fun c => negb (Nat.eqb c cid)) vec)).
        { intros c Hc. apply filter_other_In. split.
          - apply Hincl. simpl. auto.
          - intros ->. contradiction. }
        exists (filter (fun c => negb (Nat.eqb c cid)) vec).
        split; [|split; [now apply NoDup_filter|exact Hsub]].
        apply S1. destruct rest as [|c rest']; [congruence|].
        intros E0. specialize (Hsub c (or_introl eq_refl)).
        rewrite E0 in Hsub. destruct Hsub.
      * cbn [rs_unplaced rs_failed rs_table] in *.
        split; [exact K2|]. split; [exact N2|].
        split; [lia|]. intros o Ho. rewrite (O2 o Ho). auto.
    + assert (E : place_one_cluster arch grid L orig st cid
                  = mk_relo (rs_table st) (rs_unplaced st)
                            (rs_failed st
                             ++ [mk_failure cid (max_search_radius grid)
                                            orig]))
        by (unfold place_one_cluster; rewrite Hs; reflexivity).
      rewrite E.
      destruct (IH (mk_relo (rs_table st) (rs_unplaced st)
                            (rs_failed st
                             ++ [mk_failure cid (max_search_radius grid) orig]))
                  Hkeys Hne Hrest') as (K2 & N2 & T2 & O2).
      * intros Hr. cbn [rs_unplaced]. exists vec. split; [exact Hlook|].
        split; [exact Hnd|]. intros c Hc. apply Hincl. simpl. auto.
      * cbn [rs_unplaced rs_failed rs_table] in *.
        rewrite length_app in T2. cbn [List.length] in T2.
        split; [exact K2|]. split; [exact N2|]. split; [lia|exact O2].
Qed.

Lemma place_entries_counts
    (ents : list (t_physical_tile_loc * list LegalizationClusterId)) :
  forall st : ReloState,
    NoDup (map fst (rs_unplaced st)) -> nonempty_vecs (rs_unplaced st) ->
    NoDup (map fst ents) ->
    (forall o cs, In (o, cs) ents ->
                  alookup tile_loc_eqb o (rs_unplaced st) = Some cs
                  /\ NoDup cs) ->
    let st' :=
      fold_left (fun st entry =>
                   fold_left (place_one_cluster arch grid L (fst entry))
                             (snd entry) st) ents st in
    nonempty_vecs (rs_unplaced st')
    /\ (total (rs_unplaced st') + List.length (rs_failed st) + total ents
        = total (rs_unplaced st) + List.length (rs_failed st'))%nat.
Proof.
  induction ents as [|[orig cs] ents IH]; intros st Hkeys Hne Hents Hlook;
    simpl.
  - split; [exact Hne|]. unfold sum_weights. simpl. lia.
  - inversion Hents as [|? ? Hnorig Hents']; subst.
    destruct (Hlook orig cs (or_introl eq_refl)) as [Hl Hcs].
    destruct (place_clusters_of_entry_counts orig cs st Hkeys Hne Hcs)
      as (K1 & N1 & T1 & O1).
    { intros _. exists cs. auto using incl_refl. }
    destruct (IH (fold_left (place_one_cluster arch grid L orig) cs st)
                K1 N1 Hents') as (N2 & T2).
    { intros o cs' Hin. destruct (Hlook o cs' (or_intror Hin)) as [Hl' Hcs'].
      split; [|exact Hcs']. rewrite O1; [exact Hl'|].
      intros ->. apply Hnorig.
      change orig with (fst (orig, cs')). now apply in_map. }
    split; [exact N2|]. unfold sum_weights in *. simpl in *. lia.
Qed.

(** X4.  For a map of unplaced clusters with one entry per tile, no empty
    vector and no cluster twice in a vector: after the relocation search
    the clusters left in the map are as many as the searches that failed,
    the tiles left in the map are at most as many, the check that follows
    passes exactly when no search failed, and when one failed the fatal
    error carries the number of tiles left in the map. *)
Theorem unplaced_clusters_are_failed_searches (tbl : PlacedTable)
    (unplaced : UnplacedMap) :
  unplaced_wf unplaced ->
  let rs := place_remaining_clusters arch grid L tbl unplaced in
  total_unplaced_clusters (rs_unplaced rs) = List.length (rs_failed rs)
  /\ (num_unplaced_tiles (rs_unplaced rs) <= List.length (rs_failed rs))%nat
  /\ (check_all_placed rs = Ok rs <-> rs_failed rs = [])
  /\ (rs_failed rs <> [] ->
      check_all_placed rs
      = Fatal (ClustersRemainUnplaced (num_unplaced_tiles (rs_unplaced rs)))).
Proof.
  intros [Hkeys Hall] rs.
  assert (Hne : nonempty_vecs unplaced).
  { eapply Forall_impl; [|exact Hall]. intros e [He _]. exact He. }
  destruct (place_entries_counts unplaced (mk_relo tbl unplaced [])
              Hkeys Hne Hkeys) as (N & T).
  { intros o cs Hin. split.
    - simpl. now apply (In_alookup tile_loc_eqb tile_loc_eqb_eq).
    - rewrite Forall_forall in Hall. apply (Hall (o, cs) Hin). }
  simpl in T. fold rs in N, T.
  unfold place_remaining_clusters in rs. fold rs in N, T.
  assert (Htotal : total (rs_unplaced rs) = List.length (rs_failed rs))
    by lia.
  destruct (nonempty_sum_weights (rs_unplaced rs) N) as [Hle Hzero].
  split; [rewrite total_unplaced_clusters_sum; exact Htotal|].
  split; [unfold num_unplaced_tiles; lia|].
  unfold check_all_placed, num_unplaced_tiles.
  split; [split|].
  - destruct (rs_unplaced rs) eqn:E; [|discriminate].
    intros _. unfold sum_weights in Htotal. simpl in Htotal.
    destruct (rs_failed rs); [reflexivity|discriminate].
  - intros Hf. rewrite Hf in Htotal. simpl in Htotal.
    rewrite (Hzero Htotal). reflexivity.
  - intros Hf. destruct (rs_unplaced rs) eqn:E; [|reflexivity].
    unfold sum_weights in Htotal. simpl in Htotal.
    destruct (rs_failed rs); [congruence|discriminate].
Qed.
End UnplacedBookkeeping.

(** The two clusters that wanted the full origin of a 1x1 device. *)
Lemma unplaced_clusters_are_failed_searches_witness :
  unplaced_wf [(Fixture.origin, [2%nat; 3%nat])]
  /\ total_unplaced_clusters
       (rs_unplaced
          (place_remaining_clusters
             (H := SpecOracle.oracle (Fixture.rules (fun _ => true)))
             Fixture.arch (Fixture.grid 1 1) Fixture.four_clusters
             Fixture.origin_full [(Fixture.origin, [2%nat; 3%nat])]))
     = 2%nat.
Proof.
  assert (Hwf : unplaced_wf [(Fixture.origin, [2%nat; 3%nat])]).
  { split.
    - constructor; [intros []|constructor].
    - constructor; [|constructor]. simpl. split; [discriminate|].
      constructor; [intros [E|[]]; discriminate|].
      constructor; [intros []|constructor]. }
  split; [exact Hwf|].
  destruct (unplaced_clusters_are_failed_searches
              (H := SpecOracle.oracle (Fixture.rules (fun _ => true)))
              Fixture.arch (Fixture.grid 1 1) Fixture.four_clusters
              Fixture.origin_full [(Fixture.origin, [2%nat; 3%nat])] Hwf)
    as [Ht _].
  rewrite Ht. reflexivity.
Defined.

(* ================================================================= *)
(** ** The tile groups of the direct pass *)

Section PushFacts.
Context {K V : Type} (eqb : K -> K -> bool).
Hypothesis eqb_eq : forall a b, eqb a b = true <-> a = b.

Lemma keys_NoDup_apush (k : K) (v : V) (m : list (K * list V)) :
  NoDup (map fst m) -> NoDup (map fst (apush eqb k v m)).
Proof.
  intros Hm. unfold apush.
  destruct (alookup eqb k m); now apply keys_NoDup_aset.
Qed.

Lemma In_apush (k : K) (v : V) (m : list (K * list V)) (e : K * list V) :
  In e (apush eqb k v m) ->
  In e m
  \/ (exists vs, In (k, vs) m /\ e = (k, vs ++ [v]))
  \/ (alookup eqb k m = None /\ e = (k, [v])).
Proof.
  unfold apush. destruct (alookup eqb k m) as [vs|] eqn:E; intros He;
    apply In_aset in He as [->|He]; auto.
  right. left. exists vs. split; [|reflexivity].
  now apply (alookup_some_In eqb eqb_eq).
Qed.

Lemma concat_apush (k : K) (v : V) (m : list (K * list V)) :
  Permutation (List.concat (map snd (apush eqb k v m)))
              (v :: List.concat (map snd m)).
Proof.
  unfold apush. induction m as [|[k1 v1] m IH]; simpl.
  - constructor. constructor.
  - destruct (eqb k k1) eqn:E; simpl.
    + rewrite <- app_assoc. simpl. symmetry. apply Permutation_middle.
    + assert (IH' : Permutation
                      (List.concat (map snd
                                 (aset eqb k
                                    (match alookup eqb k m with
                                     | Some vs => vs ++ [v]
                                     | None => [v]
                                     end) m)))
                      (v :: List.concat (map snd m))).
      { destruct (alookup eqb k m); exact IH. }
      destruct (alookup eqb k m); simpl;
        (etransitivity; [apply Permutation_app_head; exact IH'|]);
        symmetry; apply Permutation_middle.
Qed.
End PushFacts.

Section TileGroups.
Variable nl : Netlist.
Variable ext_inps : PackMoleculeId -> Z.

Abbreviation descending := (ext_inps_descending nl ext_inps).

Lemma insert_sorted_perm (b : APBlockId) (l : list APBlockId) :
  Permutation (insert_sorted nl ext_inps b l) (b :: l).
Proof.
  induction l as [|b' l IH]; simpl; [reflexivity|].
  destruct (ext_inps (block_molecule nl b') <? ext_inps (block_molecule nl b));
    [reflexivity|].
  etransitivity; [apply perm_skip; exact IH|]. apply perm_swap.
Qed.

Lemma insert_sorted_descending (b : APBlockId) (l : list APBlockId) :
  StronglySorted descending l ->
  StronglySorted descending (insert_sorted nl ext_inps b l).
Proof.
  induction 1 as [|b' l Hl IH Hall]; simpl.
  - constructor; constructor.
  - destruct (ext_inps (block_molecule nl b') <? ext_inps (block_molecule nl b))
      eqn:E.
    + apply Z.ltb_lt in E. constructor; [constructor; assumption|].
      constructor; [unfold ext_inps_descending; lia|].
      eapply Forall_impl; [|exact Hall].
      unfold ext_inps_descending. intros c Hc. lia.
    + apply Z.ltb_ge in E. constructor; [exact IH|].
      rewrite Forall_forall in *. intros c Hc.
      apply (Permutation_in _ (insert_sorted_perm b l)) in Hc.
      destruct Hc as [<-|Hc]; [exact E|auto].
Qed.

Lemma sorted_blocks_spec :
  Permutation (sorted_blocks nl ext_inps) (ap_blocks nl)
  /\ StronglySorted descending (sorted_blocks nl ext_inps).
Proof.
  unfold sorted_blocks.
  assert (Hgen : forall l acc,
             StronglySorted descending acc ->
             Permutation
               (fold_left (fun acc b => insert_sorted nl ext_inps b acc) l acc)
               (acc ++ l)
             /\ StronglySorted descending
                  (fold_left (fun acc b => insert_sorted nl ext_inps b acc)
                             l acc)).
  { induction l as [|b l IH]; intros acc Hacc; simpl.
    - rewrite app_nil_r. split; [reflexivity|exact Hacc].
    - destruct (IH (insert_sorted nl ext_inps b acc)
                  (insert_sorted_descending b acc Hacc)) as [Hp Hs].
      split; [|exact Hs].
      etransitivity; [exact Hp|].
      etransitivity;
        [apply Permutation_app_tail; apply insert_sorted_perm|].
      simpl. apply Permutation_middle. }
  destruct (Hgen (ap_blocks nl) [] (SSorted_nil _)) as [Hp Hs].
  split; [exact Hp|exact Hs].
Qed.

Lemma descending_snoc (l : list APBlockId) (b : APBlockId) :
  StronglySorted descending l ->
  (forall a, In a l -> descending a b) ->
  StronglySorted descending (l ++ [b]).
Proof.
  induction 1 as [|a l Hl IH Hall]; intros Hb; simpl.
  - constructor; constructor.
  - constructor.
    + apply IH. intros c Hc. apply Hb. simpl. auto.
    + apply Forall_app. split; [exact Hall|].
      constructor; [|constructor]. apply Hb. simpl. auto.
Qed.

Lemma descending_app_inv (l1 l2 : list APBlockId) :
  StronglySorted descending (l1 ++ l2) ->
  StronglySorted descending l1
  /\ (forall a b, In a l1 -> In b l2 -> descending a b).
Proof.
  induction l1 as [|a l1 IH]; simpl; intros Hs.
  - split; [constructor|]. intros a b [].
  - inversion Hs as [|? ? Hs' Hall]; subst.
    destruct (IH Hs') as [H1 H2].
    rewrite Forall_app in Hall. destruct Hall as [Ha1 Ha2].
    split; [constructor; assumption|].
    intros c b [<-|Hc] Hb.
    + rewrite Forall_forall in Ha2. auto.
    + auto.
Qed.

(** X5.  The tile groups of the direct pass partition the AP blocks: no
    tile has two groups, no group is empty, every block of a group has the
    tile of the group as its containing tile, the groups together hold
    every AP block of the netlist as often as the netlist does, and inside
    a group the blocks are in descending order of the external inputs of
    their molecules. *)
Theorem tile_groups_partition_blocks (p_placement : PartialPlacement) :
  NoDup (map fst (group_by_tile nl ext_inps p_placement))
  /\ Permutation (List.concat (map snd (group_by_tile nl ext_inps p_placement)))
                 (ap_blocks nl)
  /\ forall tile_loc blocks,
       In (tile_loc, blocks) (group_by_tile nl ext_inps p_placement) ->
       blocks <> []
       /\ StronglySorted descending blocks
       /\ forall b, In b blocks ->
                    get_containing_tile_loc p_placement b = tile_loc.
Proof.
  destruct sorted_blocks_spec as [Hperm Hsorted].
  unfold group_by_tile.
  set (push := fun acc b =>
                 apush tile_loc_eqb (get_containing_tile_loc p_placement b)
                       b acc).
  assert (Hgen : forall l,
             StronglySorted descending l ->
             NoDup (map fst (fold_left push l []))
             /\ Permutation (List.concat (map snd (fold_left push l []))) l
             /\ forall tile_loc blocks,
                  In (tile_loc, blocks) (fold_left push l []) ->
                  blocks <> []
                  /\ StronglySorted descending blocks
                  /\ forall b, In b blocks ->
                               get_containing_tile_loc p_placement b = tile_loc
                               /\ In b l).
  { induction l as [|b l IH] using rev_ind; intros Hl.
    - simpl. split; [constructor|]. split; [constructor|]. intros ? ? [].
    - rewrite fold_left_app. simpl.
      destruct (descending_app_inv l [b] Hl) as [Hl' Hlast].
      destruct (IH Hl') as (Hkeys & Hp & Hgroups).
      unfold push at 1 3 5.
      split; [now apply (keys_NoDup_apush tile_loc_eqb tile_loc_eqb_eq)|].
      split.
      { etransitivity; [apply concat_apush|].
        etransitivity; [apply perm_skip; exact Hp|].
        apply Permutation_cons_append. }
      intros tile_loc blocks Hin.
      apply (In_apush tile_loc_eqb tile_loc_eqb_eq) in Hin
        as [Hin|[(vs & Hvs & E)|[_ E]]].
      + destruct (Hgroups _ _ Hin) as (Hne & Hs & Hb).
        split; [exact Hne|]. split; [exact Hs|].
        intros c Hc. destruct (Hb c Hc) as [Ht Hcl].
        split; [exact Ht|]. apply in_or_app. auto.
      + inversion E; subst tile_loc blocks. clear E.
        destruct (Hgroups _ _ Hvs) as (Hne & Hs & Hb).
        split; [destruct vs; discriminate|].
        split.
        { apply descending_snoc; [exact Hs|].
          intros a Ha. apply Hlast; [apply (Hb a Ha)|simpl; auto]. }
        intros c Hc. apply in_app_or in Hc as [Hc|[<-|[]]].
        * destruct (Hb c Hc) as [Ht Hcl].
          split; [exact Ht|]. apply in_or_app. auto.
        * split; [reflexivity|]. apply in_or_app. simpl. auto.
      + inversion E; subst tile_loc blocks. clear E.
        split; [discriminate|].
        split; [constructor; constructor|].
        intros c [<-|[]]. split; [reflexivity|].
        apply in_or_app. simpl. auto. }
  destruct (Hgen _ Hsorted) as (Hkeys & Hp & Hgroups).
  split; [exact Hkeys|]. split; [etransitivity; eassumption|].
  intros tile_loc blocks Hin.
  destruct (Hgroups _ _ Hin) as (Hne & Hs & Hb).
  split; [exact Hne|]. split; [exact Hs|].
  intros b Hbin. apply (Hb b Hbin).
Qed.
End TileGroups.

(* ================================================================= *)
(** ** The atom-to-cluster map of legalize *)

Section AtomMap.
Context {CL : Type} `{ClusterLegalizer CL}.
Variable nl : Netlist.
Variable L : CL.

Abbreviation nat_lookup := (alookup (V := LegalizationClusterId) Nat.eqb).

Lemma nat_eqb_eq (a b : nat) : Nat.eqb a b = true <-> a = b.
Proof. apply Nat.eqb_eq. Qed.

(** Invalid ids are skipped. *)
Lemma map_atoms_valid (atoms : list (option AtomBlockId)) :
  forall m, map_atoms L atoms m = map_atoms L (map Some (valid_atom_ids atoms)) m.
Proof.
  induction atoms as [|[a|] atoms IH]; intros m; simpl; [reflexivity| |apply IH].
  destruct (acount Nat.eqb a m); [reflexivity|].
  destruct (get_atom_cluster a L); [apply IH|reflexivity].
Qed.

Lemma map_atoms_app (l1 l2 : list (option AtomBlockId)) :
  forall m,
    map_atoms L (l1 ++ l2) m = bind (map_atoms L l1 m) (map_atoms L l2).
Proof.
  induction l1 as [|[a|] l1 IH]; intros m; simpl; [reflexivity| |apply IH].
  destruct (acount Nat.eqb a m); [reflexivity|].
  destruct (get_atom_cluster a L); [apply IH|reflexivity].
Qed.

(** The two loops are one loop over the valid atoms. *)
Lemma map_blocks_flat (blocks : list APBlockId) :
  forall m,
    map_blocks nl L blocks m
    = map_atoms L (map Some (valid_atoms nl blocks)) m.
Proof.
  induction blocks as [|b blocks IH]; intros m; simpl; [reflexivity|].
  unfold valid_atoms. simpl. rewrite map_app, map_atoms_app.
  rewrite <- map_atoms_valid.
  destruct (map_atoms L (atom_block_ids nl (block_molecule nl b)) m);
    simpl; [apply IH|reflexivity].
Qed.

Lemma map_atoms_ends (l : list AtomBlockId) :
  forall m m',
    map_atoms L (map Some l) m = Ok m' ->
    (forall a, In a l -> nat_lookup a m = None)
    /\ NoDup l
    /\ (forall a, In a l ->
                  exists c, get_atom_cluster a L = Some c
                            /\ nat_lookup a m' = Some c)
    /\ (forall a, ~ In a l -> nat_lookup a m' = nat_lookup a m).
Proof.
  induction l as [|a l IH]; intros m m' Hrun; simpl in Hrun.
  - inversion Hrun; subst. split; [intros ? []|]. split; [constructor|].
    split; [intros ? []|reflexivity].
  - unfold acount in Hrun.
    destruct (nat_lookup a m) eqn:Ea; [discriminate|].
    destruct (get_atom_cluster a L) as [c|] eqn:Ec; [|discriminate].
    destruct (IH _ _ Hrun) as (Hfresh & Hnd & Hin & Hout).
    assert (Hal : ~ In a l).
    { intros Ha. specialize (Hfresh a Ha).
      rewrite (alookup_aset_same Nat.eqb nat_eqb_eq) in Hfresh.
      discriminate. }
    split.
    { intros x [<-|Hx]; [exact Ea|].
      rewrite <- (Hfresh x Hx). symmetry.
      apply (alookup_aset_other Nat.eqb nat_eqb_eq). intros ->. contradiction. }
    split; [constructor; assumption|].
    split.
    + intros x [<-|Hx]; [|auto].
      exists c. split; [exact Ec|]. rewrite (Hout a Hal).
      apply (alookup_aset_same Nat.eqb nat_eqb_eq).
    + intros x Hx. rewrite Hout by (intros Hl; apply Hx; simpl; auto).
      apply (alookup_aset_other Nat.eqb nat_eqb_eq).
      intros ->. apply Hx. simpl. auto.
Qed.

Lemma map_atoms_stops (l : list AtomBlockId) :
  forall m e,
    map_atoms L (map Some l) m = Fatal e ->
    (exists msg, e = AssertionFailed msg)
    /\ ((exists a, In a l /\ nat_lookup a m <> None)
        \/ ~ NoDup l
        \/ (exists a, In a l /\ get_atom_cluster a L = None)).
Proof.
  induction l as [|a l IH]; intros m e Hrun; simpl in Hrun; [discriminate|].
  unfold acount in Hrun.
  destruct (nat_lookup a m) eqn:Ea.
  { inversion Hrun. split; [eauto|]. left. exists a. simpl.
    split; [auto|congruence]. }
  destruct (get_atom_cluster a L) as [c|] eqn:Ec.
  2:{ inversion Hrun. split; [eauto|]. right. right. exists a. simpl. auto. }
  destruct (IH _ _ Hrun) as [Hmsg [(x & Hx & Hl)|[Hnd|(x & Hx & Hc)]]];
    (split; [exact Hmsg|]).
  - destruct (Nat.eq_dec x a) as [->|Hxa].
    + right. left. intros Hnd. inversion Hnd. contradiction.
    + left. exists x. split; [simpl; auto|].
      rewrite (alookup_aset_other Nat.eqb nat_eqb_eq) in Hl by exact Hxa.
      exact Hl.
  - right. left. intros Hnd'. inversion Hnd'. contradiction.
  - right. right. exists x. simpl. auto.
Qed.

(** X6.  The loop of legalize that fills the atom-to-cluster map either
    ends with a map that holds exactly the valid atoms of the AP blocks,
    each with the cluster the legalizer gives for it, and then no atom was
    reached twice; or it stops on one of its two assertions, and then an
    atom is reached twice or the legalizer has no cluster for an atom. *)
Theorem atom_map_complete_or_assertion (blocks : list APBlockId) :
  match map_blocks nl L blocks [] with
  | Ok m =>
      NoDup (valid_atoms nl blocks)
      /\ (forall a, In a (valid_atoms nl blocks) ->
                    exists c, get_atom_cluster a L = Some c
                              /\ alookup Nat.eqb a m = Some c)
      /\ (forall a, ~ In a (valid_atoms nl blocks) ->
                    alookup Nat.eqb a m = None)
  | Fatal e =>
      (exists msg, e = AssertionFailed msg)
      /\ (~ NoDup (valid_atoms nl blocks)
          \/ exists a, In a (valid_atoms nl blocks)
                       /\ get_atom_cluster a L = None)
  end.
Proof.
  rewrite map_blocks_flat.
  destruct (map_atoms L (map Some (valid_atoms nl blocks)) []) as [m|e] eqn:E.
  - destruct (map_atoms_ends _ _ _ E) as (_ & Hnd & Hin & Hout).
    split; [exact Hnd|]. split; [exact Hin|].
    intros a Ha. rewrite (Hout a Ha). reflexivity.
  - destruct (map_atoms_stops _ _ _ E) as [Hmsg [(x & _ & Hl)|[Hnd|Hc]]];
      (split; [exact Hmsg|]).
    + simpl in Hl. congruence.
    + left. exact Hnd.
    + right. exact Hc.
Qed.
End AtomMap.

(* ================================================================= *)
(** ** What the direct pass changes *)

Section DirectPassFrame.
Context {CL : Type} `{ClusterLegalizer CL}.
Variable arch : Arch.
Variable nl : Netlist.
Variable grid : DeviceGrid.

Lemma direct_pass_frame_refl (tiles : list t_physical_tile_loc)
    (st : PackState CL) :
  direct_pass_frame grid tiles st st.
Proof.
  split; [auto|]. split; [|reflexivity].
  exists []. rewrite app_nil_r. auto.
Qed.

Lemma direct_pass_frame_trans (tiles : list t_physical_tile_loc)
    (st1 st2 st3 : PackState CL) :
  direct_pass_frame grid tiles st1 st2 ->
  direct_pass_frame grid tiles st2 st3 ->
  direct_pass_frame grid tiles st1 st3.
Proof.
  intros (T1 & (d1 & U1 & F1) & P1) (T2 & (d2 & U2 & F2) & P2).
  split.
  { intros b Hb. destruct (T2 b Hb) as [Hb2|Hb2]; [|auto]. apply (T1 b Hb2). }
  split; [|congruence].
  exists (d1 ++ d2). split; [rewrite U2, U1, app_assoc; reflexivity|].
  apply Forall_app. auto.
Qed.

Lemma direct_pass_frame_weaken (tiles tiles' : list t_physical_tile_loc)
    (st st' : PackState CL) :
  incl tiles tiles' ->
  direct_pass_frame grid tiles st st' ->
  direct_pass_frame grid tiles' st st'.
Proof.
  intros Hincl (T & (d & U & F) & P).
  split.
  { intros b Hb. destruct (T b Hb) as [Hb'|(t & Ht & Hr)]; [auto|].
    right. exists t. auto. }
  split; [|exact P].
  exists d. split; [exact U|].
  eapply Forall_impl; [|exact F]. intros e He. apply Hincl, He.
Qed.

(** The legalizer alone is not part of the frame. *)
Lemma direct_pass_frame_same (tiles : list t_physical_tile_loc)
    (st st' : PackState CL) :
  loc_to_cluster_id_placed st' = loc_to_cluster_id_placed st ->
  unclustered_blocks st' = unclustered_blocks st ->
  cluster_id_to_loc_unplaced st' = cluster_id_to_loc_unplaced st ->
  direct_pass_frame grid tiles st st'.
Proof.
  intros T U P. split; [rewrite T; auto|]. split; [|exact P].
  exists []. rewrite app_nil_r. auto.
Qed.

Lemma try_sub_tiles_frame (retry : bool) (mol : PackMoleculeId)
    (bt : t_logical_block_type_ptr) (tile_loc : t_physical_tile_loc)
    (subs : list Z) :
  Forall (fun s => 0 <= s < capacity (get_physical_type grid tile_loc)) subs ->
  forall (st st' : PackState CL) (placed : bool),
    try_sub_tiles arch nl grid retry mol bt tile_loc
                  (get_physical_type grid tile_loc) subs st
    = Ok (placed, st') ->
    direct_pass_frame grid [tile_loc] st st'.
Proof.
  induction 1 as [|s subs Hs Hsubs IH]; intros st st' placed Hrun;
    simpl in Hrun.
  - inversion Hrun; subst. apply direct_pass_frame_refl.
  - destruct (is_root_tile grid tile_loc) eqn:Hroot; simpl in Hrun;
      [|inversion Hrun; subst; apply direct_pass_frame_refl].
    destruct (tbl_find _ (loc_to_cluster_id_placed st)) as [cid|] eqn:Hf.
    + destruct (negb (has_empty_primitive _)); [eapply IH; eauto|].
      destruct (is_molecule_compatible mol cid (ps_cl st));
        [|eapply IH; eauto].
      destruct (add_mol_to_cluster mol cid (ps_cl st)) as [status L'].
      destruct (is_passed status).
      * inversion Hrun; subst. now apply direct_pass_frame_same.
      * eapply direct_pass_frame_trans; [|eapply IH; exact Hrun].
        now apply direct_pass_frame_same.
    + destruct (is_tile_compatible arch _ bt); [|eapply IH; eauto].
      bind_ok Hrun. destruct a as [new_id L'].
      inversion Hrun; subst.
      assert (Hframe : direct_pass_frame grid [tile_loc] st
                         (record_new_cluster new_id
                            (mk_pl_loc (tl_x tile_loc) (tl_y tile_loc) s
                                       (tl_layer_num tile_loc))
                            tile_loc L' st)).
      { split.
        - simpl. intros b [<-|Hb]; [|auto].
          right. exists tile_loc. split; [simpl; auto|].
          unfold reached_sub_tile. cbn [fst pl_x pl_y pl_layer pl_sub_tile].
          destruct tile_loc; auto.
        - split; [|reflexivity]. exists []. simpl.
          rewrite app_nil_r. auto. }
      destruct retry; [|exact Hframe].
      eapply direct_pass_frame_trans; [exact Hframe|].
      now apply direct_pass_frame_same.
Qed.

Lemma place_molecules_in_tile_frame (retry : bool)
    (tile_loc : t_physical_tile_loc) (mols : list PackMoleculeId) :
  forall (st st' : PackState CL),
    place_molecules_in_tile arch nl grid retry tile_loc
                            (get_physical_type grid tile_loc) mols st
    = Ok st' ->
    direct_pass_frame grid [tile_loc] st st'.
Proof.
  induction mols as [|m mols IH]; intros st st' Hrun; simpl in Hrun.
  - inversion Hrun; subst. apply direct_pass_frame_refl.
  - bind_ok Hrun.
    eapply direct_pass_frame_trans; [|eapply IH; exact Hrun].
    unfold place_molecule_in_tile in E.
    destruct (get_molecule_logical_block_type arch nl m); [|discriminate].
    bind_ok E. destruct a0 as [placed st1]. inversion E; subst.
    apply try_sub_tiles_frame in E0.
    2:{ apply Forall_forall. intros s Hs. apply zseq_In in Hs. lia. }
    destruct placed; [exact E0|].
    eapply direct_pass_frame_trans; [exact E0|].
    split; [simpl; auto|]. split; [|reflexivity].
    exists [(m, tile_loc)]. split; [reflexivity|].
    constructor; [simpl; auto|constructor].
Qed.

Lemma check_tile_clusters_frame (tiles : list t_physical_tile_loc)
    (to_check : list (LegalizationClusterId * t_pl_loc)) :
  forall (acc acc' : list PackMoleculeId) (st st' : PackState CL),
    check_tile_clusters to_check acc st = (acc', st') ->
    direct_pass_frame grid tiles st st'.
Proof.
  induction to_check as [|[cid loc] rest IH]; intros acc acc' st st' Hrun;
    simpl in Hrun.
  - inversion Hrun; subst. apply direct_pass_frame_refl.
  - destruct (negb (check_cluster_legality cid (ps_cl st)));
      (eapply direct_pass_frame_trans; [|eapply IH; exact Hrun]).
    + split; [|split; [exists []; simpl; rewrite app_nil_r; auto|reflexivity]].
      simpl. unfold tbl_erase, aerase. intros b Hb.
      apply filter_In in Hb. tauto.
    + now apply direct_pass_frame_same.
Qed.

Lemma process_tile_frame (tile_loc : t_physical_tile_loc)
    (blocks : list APBlockId) (st st' : PackState CL) :
  process_tile arch nl grid tile_loc blocks st = Ok st' ->
  direct_pass_frame grid [tile_loc] st st'.
Proof.
  intros Hrun. unfold process_tile in Hrun.
  bind_ok Hrun. apply place_molecules_in_tile_frame in E.
  destruct (check_tile_clusters (cluster_ids_to_check a) [] a)
    as [illegal st2] eqn:Hc.
  apply (check_tile_clusters_frame [tile_loc]) in Hc.
  bind_ok Hrun. apply place_molecules_in_tile_frame in E0.
  inversion Hrun; subst.
  eapply direct_pass_frame_trans;
    [apply (direct_pass_frame_same [tile_loc] st (set_to_check [] st));
     reflexivity|].
  eapply direct_pass_frame_trans; [exact E|].
  eapply direct_pass_frame_trans; [exact Hc|].
  eapply direct_pass_frame_trans;
    [apply (direct_pass_frame_same [tile_loc] st2
              (set_cl (set_legalization_strategy FULL (ps_cl st2)) st2));
     reflexivity|].
  eapply direct_pass_frame_trans; [exact E0|].
  now apply direct_pass_frame_same.
Qed.

(** X7.  The direct pass works tile by tile and stays on its tiles: when
    it ends without a fatal error, every binding of the table of placed
    clusters is one it found or lies on a tile it was given, which is a
    root tile, at a sub-tile from 0 to the capacity of the tile; the
    molecules it defers are appended to the unclustered blocks, each with
    one of the tiles it was given; and it leaves the map of unplaced
    clusters alone. *)
Theorem direct_pass_stays_on_its_tiles
    (tile_blocks : list (t_physical_tile_loc * list APBlockId))
    (st st' : PackState CL) :
  process_tiles arch nl grid tile_blocks st = Ok st' ->
  direct_pass_frame grid (map fst tile_blocks) st st'.
Proof.
  revert st. induction tile_blocks as [|[tile_loc blocks] rest IH];
    intros st Hrun; simpl in Hrun.
  - inversion Hrun; subst. apply direct_pass_frame_refl.
  - bind_ok Hrun. simpl.
    eapply direct_pass_frame_trans.
    + eapply direct_pass_frame_weaken; [|eapply process_tile_frame; exact E].
      intros t [<-|[]]. simpl. auto.
    + eapply direct_pass_frame_weaken; [|apply IH; exact Hrun].
      intros t Ht. simpl. auto.
Qed.
End DirectPassFrame.

(** The two molecules of the fixture on the origin of a 1x1 device. *)
Lemma direct_pass_stays_on_its_tiles_witness :
  exists st',
    process_tiles (H := SpecOracle.oracle (Fixture.rules (fun _ => true)))
      Fixture.arch (Fixture.netlist [0%nat; 1%nat]) (Fixture.grid 1 1)
      [(Fixture.origin, [0%nat; 1%nat])]
      (Fixture.empty_state SKIP_INTRA_LB_ROUTE) = Ok st'
    /\ direct_pass_frame (Fixture.grid 1 1) [Fixture.origin]
         (Fixture.empty_state SKIP_INTRA_LB_ROUTE) st'.
Proof.
  destruct (process_tiles
              (H := SpecOracle.oracle (Fixture.rules (fun _ => true)))
              Fixture.arch (Fixture.netlist [0%nat; 1%nat]) (Fixture.grid 1 1)
              [(Fixture.origin, [0%nat; 1%nat])]
              (Fixture.empty_state SKIP_INTRA_LB_ROUTE)) as [st'|e] eqn:E.
  - exists st'. split; [reflexivity|].
    exact (direct_pass_stays_on_its_tiles
             (H := SpecOracle.oracle (Fixture.rules (fun _ => true)))
             Fixture.arch (Fixture.netlist [0%nat; 1%nat]) (Fixture.grid 1 1)
             [(Fixture.origin, [0%nat; 1%nat])]
             (Fixture.empty_state SKIP_INTRA_LB_ROUTE) st' E).
  - vm_compute in E. discriminate E.
Defined.

Section UnusableTile.
Context {CL : Type} `{ClusterLegalizer CL}.
Variable arch : Arch.
Variable nl : Netlist.
Variable grid : DeviceGrid.

Lemma try_sub_tiles_unusable (retry : bool) (mol : PackMoleculeId)
    (bt : t_logical_block_type_ptr) (tile_loc : t_physical_tile_loc)
    (tt : t_physical_tile_type) (st : PackState CL) :
  is_root_tile grid tile_loc = false \/ capacity tt <= 0 ->
  try_sub_tiles arch nl grid retry mol bt tile_loc tt
                (zseq 0 (Z.to_nat (capacity tt))) st
  = Ok (false, st).
Proof.
  intros [Hroot|Hcap].
  - destruct (Z.to_nat (capacity tt)); simpl; [reflexivity|].
    rewrite Hroot. reflexivity.
  - replace (Z.to_nat (capacity tt)) with 0%nat by lia. reflexivity.
Qed.

Lemma place_molecules_in_tile_unusable (retry : bool)
    (tile_loc : t_physical_tile_loc) (tt : t_physical_tile_type)
    (mols : list PackMoleculeId) :
  is_root_tile grid tile_loc = false \/ capacity tt <= 0 ->
  Forall (fun m => get_molecule_logical_block_type arch nl m <> None) mols ->
  forall st : PackState CL,
  exists st',
    place_molecules_in_tile arch nl grid retry tile_loc tt mols st = Ok st'
    /\ ps_cl st' = ps_cl st
    /\ loc_to_cluster_id_placed st' = loc_to_cluster_id_placed st
    /\ cluster_ids_to_check st' = cluster_ids_to_check st
    /\ cluster_id_to_loc_unplaced st' = cluster_id_to_loc_unplaced st
    /\ unclustered_blocks st'
       = unclustered_blocks st ++ map (fun m => (m, tile_loc)) mols
    /\ unclustered_block_locs st'
       = fold_left (fun locs m => apush tile_loc_eqb tile_loc m locs) mols
                   (unclustered_block_locs st).
Proof.
  intros Hun. induction 1 as [|m mols Hm Hmols IH]; intros st; simpl.
  - exists st. rewrite app_nil_r. auto 10.
  - unfold place_molecule_in_tile.
    destruct (get_molecule_logical_block_type arch nl m) as [bt|];
      [|congruence].
    rewrite try_sub_tiles_unusable by exact Hun. simpl.
    destruct (IH (defer_molecule m tile_loc st))
      as (st' & Hrun & HL & HT & HC & HP & HU & HB).
    exists st'. split; [exact Hrun|]. simpl in *.
    rewrite <- app_assoc in HU. auto 10.
Qed.

(** X8.  On a tile that is not a root tile, or whose capacity is not
    positive, the direct pass starts no cluster: when every molecule of
    the blocks of the tile has a block type, the pass ends without an
    error, binds nothing, has no cluster to check, defers the molecule of
    every block with the tile, in the order of the blocks, and leaves
    the legalizer with the strategy set to FULL and back to
    SKIP_INTRA_LB_ROUTE. *)
Theorem direct_pass_defers_all_on_unusable_tile
    (tile_loc : t_physical_tile_loc) (blocks : list APBlockId)
    (st : PackState CL) :
  is_root_tile grid tile_loc = false
  \/ capacity (get_physical_type grid tile_loc) <= 0 ->
  Forall (fun b => get_molecule_logical_block_type arch nl (block_molecule nl b)
                   <> None) blocks ->
  exists st',
    process_tile arch nl grid tile_loc blocks st = Ok st'
    /\ loc_to_cluster_id_placed st' = loc_to_cluster_id_placed st
    /\ cluster_ids_to_check st' = []
    /\ cluster_id_to_loc_unplaced st' = cluster_id_to_loc_unplaced st
    /\ unclustered_blocks st'
       = unclustered_blocks st
         ++ map (fun b => (block_molecule nl b, tile_loc)) blocks
    /\ unclustered_block_locs st'
       = fold_left (fun locs b =>
                      apush tile_loc_eqb tile_loc (block_molecule nl b) locs)
                   blocks (unclustered_block_locs st)
    /\ ps_cl st'
       = set_legalization_strategy SKIP_INTRA_LB_ROUTE
           (set_legalization_strategy FULL (ps_cl st)).
Proof.
  intros Hun Hty. unfold process_tile.
  destruct (place_molecules_in_tile_unusable false tile_loc
              (get_physical_type grid tile_loc)
              (map (block_molecule nl) blocks) Hun
              ltac:(now apply Forall_map) (set_to_check [] st))
    as (st1 & Hrun & HL & HT & HC & HP & HU & HB).
  rewrite Hrun. simpl in HC. cbn [bind]. rewrite HC. cbn [check_tile_clusters].
  cbn [place_molecules_in_tile bind].
  eexists. split; [reflexivity|]. simpl in *.
  rewrite HT, HC, HP, HU, HB, HL, map_map.
  split; [reflexivity|]. split; [reflexivity|]. split; [reflexivity|].
  split; [reflexivity|]. split; [|reflexivity].
  clear. generalize (unclustered_block_locs st).
  induction blocks as [|b blocks IH]; intros locs; simpl; [reflexivity|].
  apply IH.
Qed.
End UnusableTile.

(** The two molecules of the fixture on a tile of capacity 0. *)
Lemma direct_pass_defers_all_on_unusable_tile_witness :
  exists st',
    process_tile (H := SpecOracle.oracle (Fixture.rules (fun _ => true)))
      Fixture.arch (Fixture.netlist [0%nat; 1%nat])
      (mk_grid 1 1 (fun _ => mk_tile_type 0 0 1) (fun _ => 0) (fun _ => 0))
      Fixture.origin [0%nat; 1%nat]
      (Fixture.empty_state SKIP_INTRA_LB_ROUTE) = Ok st'
    /\ unclustered_blocks st'
       = [(0%nat, Fixture.origin); (1%nat, Fixture.origin)].
Proof.
  destruct (direct_pass_defers_all_on_unusable_tile
              (H := SpecOracle.oracle (Fixture.rules (fun _ => true)))
              Fixture.arch (Fixture.netlist [0%nat; 1%nat])
              (mk_grid 1 1 (fun _ => mk_tile_type 0 0 1) (fun _ => 0)
                       (fun _ => 0))
              Fixture.origin [0%nat; 1%nat]
              (Fixture.empty_state SKIP_INTRA_LB_ROUTE))
    as (st' & Hrun & _ & _ & _ & Hu & _).
  - right. simpl. lia.
  - constructor; [discriminate|]. constructor; [discriminate|constructor].
  - exists st'. split; [exact Hrun|]. rewrite Hu. reflexivity.
Defined.

(* ================================================================= *)
(** ** Block types and the start of a cluster *)

Section StartGuard.
Context {CL : Type} `{ClusterLegalizer CL}.
Variable arch : Arch.
Variable nl : Netlist.

Lemma create_new_cluster_fatal (mol : PackMoleculeId) (L : CL) (e : fatal) :
  create_new_cluster arch nl mol L = Fatal e ->
  e = UnableToCreateCluster \/ exists msg, e = AssertionFailed msg.
Proof.
  unfold create_new_cluster.
  destruct (root_atom nl mol) as [root|]; [|intros E; inversion E; eauto].
  destruct (block_model nl root) as [model|]; [|intros E; inversion E; eauto].
  destruct (primitive_candidate_block_types arch model) as [|t ts];
    [intros E; inversion E; eauto|].
  destruct (try_types arch mol (t :: ts) L) as [[id|] L'];
    intros E; inversion E; auto.
Qed.

End StartGuard.

(* ================================================================= *)
(** ** The clusters of NaiveFullLegalizer::create_clusters *)

Section NaiveClusters.
Context {CL : Type} `{ClusterLegalizer CL}.
Variable arch : Arch.
Variable nl : Netlist.

Lemma insert_molecules_split (id : LegalizationClusterId)
    (mol_list : list PackMoleculeId) :
  forall L kept erased L',
    insert_molecules id mol_list L = (kept, erased, L') ->
    Permutation (kept ++ erased) mol_list
    /\ (List.length kept <= List.length mol_list)%nat.
Proof.
  induction mol_list as [|m rest IH]; intros L kept erased L' Hrun;
    simpl in Hrun.
  - inversion Hrun; subst. split; [constructor|reflexivity].
  - destruct (negb (is_molecule_compatible m id L)).
    + destruct (insert_molecules id rest L) as [[k e] L1] eqn:E.
      inversion Hrun; subst. destruct (IH _ _ _ _ E) as [Hp Hl].
      split; [simpl; now constructor|simpl; lia].
    + destruct (add_mol_to_cluster m id L) as [status L1].
      destruct (is_passed status);
        destruct (insert_molecules id rest L1) as [[k e] L2] eqn:E;
        inversion Hrun; subst; destruct (IH _ _ _ _ E) as [Hp Hl].
      * split; [|simpl; lia].
        symmetry. apply Permutation_cons_app. symmetry. exact Hp.
      * split; [simpl; now constructor|simpl; lia].
Qed.

Lemma cluster_mol_list_spec (fuel : nat) :
  forall (mol_list : list PackMoleculeId) (L : CL)
         (created : list NaiveCluster),
    (List.length mol_list <= fuel)%nat ->
    (exists e, cluster_mol_list arch nl fuel mol_list L created
               = Some (Fatal e)
               /\ (e = UnableToCreateCluster
                   \/ exists msg, e = AssertionFailed msg))
    \/ exists L' new,
         cluster_mol_list arch nl fuel mol_list L created
         = Some (Ok (L', created ++ new))
         /\ Permutation (flat_map nc_molecules new) mol_list
         /\ (List.length new <= List.length mol_list)%nat.
Proof.
  induction fuel as [|fuel IH]; intros mol_list L created Hfuel.
  - destruct mol_list; [|simpl in Hfuel; lia].
    right. exists L, []. simpl. rewrite app_nil_r. auto.
  - destruct mol_list as [|seed rest].
    { right. exists L, []. simpl. rewrite app_nil_r. auto. }
    simpl. destruct (create_new_cluster arch nl seed L) as [[id L1]|e] eqn:Ec.
    2:{ left. exists e. split; [reflexivity|].
        eapply create_new_cluster_fatal; eauto. }
    destruct (insert_molecules id rest L1) as [[kept erased] L2] eqn:Ei.
    destruct (insert_molecules_split _ _ _ _ _ _ Ei) as [Hp Hl].
    destruct (IH kept (clean_cluster id L2)
                (created ++ [mk_naive_cluster id seed erased]))
      as [(e & Hrun & He)|(L' & new & Hrun & Hperm & Hlen)];
      [simpl in Hfuel; lia| |].
    + left. exists e. auto.
    + right. exists L', (mk_naive_cluster id seed erased :: new).
      rewrite Hrun, <- app_assoc. split; [reflexivity|].
      split; [|simpl; lia].
      simpl. unfold nc_molecules at 1. simpl. constructor.
      etransitivity; [apply Permutation_app_head; exact Hperm|].
      etransitivity; [apply Permutation_app_comm|exact Hp].
Qed.

(** X9.  The clustering loop of NaiveFullLegalizer::create_clusters comes
    to an end for every list of tiles.  It ends with the fatal error of
    create_new_cluster or one of its assertions, or with clusters that
    split into one run per tile, in the order of the tiles, where the
    seeds and the added molecules of the clusters of a run are the
    molecules of the blocks of that tile, each as often as the tile holds
    it, and a tile has no more clusters than blocks. *)
Theorem naive_clusters_partition_each_tile
    (blocks_in_tiles : list (list APBlockId)) (L : CL) :
  match cluster_tiles arch nl blocks_in_tiles L [] with
  | None => False
  | Some (Fatal e) =>
      e = UnableToCreateCluster \/ exists msg, e = AssertionFailed msg
  | Some (Ok (L', created)) =>
      exists runs : list (list NaiveCluster),
        created = List.concat runs
        /\ Forall2
             (fun run blocks_in_tile =>
                Permutation (flat_map nc_molecules run)
                            (map (block_molecule nl) blocks_in_tile)
                /\ (List.length run <= List.length blocks_in_tile)%nat)
             runs blocks_in_tiles
  end.
Proof.
  assert (Hgen : forall tiles L0 created,
             match cluster_tiles arch nl tiles L0 created with
             | None => False
             | Some (Fatal e) =>
                 e = UnableToCreateCluster
                 \/ exists msg, e = AssertionFailed msg
             | Some (Ok (L', created')) =>
                 exists runs : list (list NaiveCluster),
                   created' = created ++ List.concat runs
                   /\ Forall2
                        (fun run blocks_in_tile =>
                           Permutation (flat_map nc_molecules run)
                                       (map (block_molecule nl) blocks_in_tile)
                           /\ (List.length run
                               <= List.length blocks_in_tile)%nat)
                        runs tiles
             end).
  { induction tiles as [|blocks tiles IH]; intros L0 created; simpl.
    - exists []. simpl. rewrite app_nil_r. split; [reflexivity|constructor].
    - unfold cluster_tile.
      destruct (cluster_mol_list_spec
                  (List.length (map (block_molecule nl) blocks))
                  (map (block_molecule nl) blocks) L0 created (le_n _))
        as [(e & Hrun & He)|(L' & new & Hrun & Hperm & Hlen)];
        rewrite Hrun; [exact He|].
      specialize (IH L' (created ++ new)).
      destruct (cluster_tiles arch nl tiles L' (created ++ new))
        as [[[L'' created']|e]|]; [|exact IH|exact IH].
      destruct IH as (runs & Hc & Hruns).
      exists (new :: runs). simpl. rewrite app_assoc.
      split; [exact Hc|]. constructor; [|exact Hruns].
      rewrite length_map in Hlen. auto. }
  specialize (Hgen blocks_in_tiles L []).
  destruct (cluster_tiles arch nl blocks_in_tiles L [])
    as [[[L' created]|e]|]; exact Hgen.
Qed.
End NaiveClusters.

(* ================================================================= *)
(** ** What a neighbor pass changes *)

Section TileMaps.
Context {V : Type}.

Lemma tile_map_wf_aset (k : t_physical_tile_loc) (v : list V)
    (m : list (t_physical_tile_loc * list V)) :
  v <> [] -> tile_map_wf m -> tile_map_wf (aset tile_loc_eqb k v m).
Proof.
  intros Hv [Hk Hne]. split.
  - now apply (keys_NoDup_aset tile_loc_eqb tile_loc_eqb_eq).
  - rewrite Forall_forall in *. intros e He.
    apply In_aset in He as [->|He]; [exact Hv|auto].
Qed.

Lemma tile_map_wf_apush (k : t_physical_tile_loc) (v : V)
    (m : list (t_physical_tile_loc * list V)) :
  tile_map_wf m -> tile_map_wf (apush tile_loc_eqb k v m).
Proof.
  intros Hm. unfold apush.
  destruct (alookup tile_loc_eqb k m) as [vs|];
    apply tile_map_wf_aset; auto; [destruct vs|]; discriminate.
Qed.

Lemma tile_map_wf_aerase (k : t_physical_tile_loc)
    (m : list (t_physical_tile_loc * list V)) :
  tile_map_wf m -> tile_map_wf (aerase tile_loc_eqb k m).
Proof.
  intros [Hk Hne]. split.
  - now apply keys_NoDup_aerase.
  - rewrite Forall_forall in *. intros e He. apply Hne.
    unfold aerase in He. apply filter_In in He. tauto.
Qed.
End TileMaps.

Lemma tile_map_wf_push_all
    (recorded : list (t_physical_tile_loc * LegalizationClusterId)) :
  forall m, tile_map_wf m -> tile_map_wf (push_all recorded m).
Proof.
  unfold push_all.
  induction recorded as [|e rest IH]; intros m Hm; simpl; [exact Hm|].
  apply IH. now apply tile_map_wf_apush.
Qed.

Lemma push_all_app
    (r1 r2 : list (t_physical_tile_loc * LegalizationClusterId))
    (m : UnplacedMap) :
  push_all (r1 ++ r2) m = push_all r2 (push_all r1 m).
Proof. unfold push_all. apply fold_left_app. Qed.

Section NeighborFrame.
Context {CL : Type} `{ClusterLegalizer CL}.
Variable arch : Arch.
Variable nl : Netlist.

Lemma try_cluster_tile_locs_wf (cid : LegalizationClusterId)
    (tile_loc : t_physical_tile_loc) (s : NbState) :
  tile_map_wf (snd (fst s)) ->
  tile_map_wf (snd (fst (try_cluster_tile cid tile_loc s))).
Proof.
  destruct s as [[L locs] cm]. unfold try_cluster_tile. simpl. intros Hwf.
  destruct (alookup tile_loc_eqb tile_loc locs) as [mol_list|];
    [|exact Hwf].
  destruct (scan_mol_list cid mol_list L cm) as [[kept L'] cm'].
  destruct kept as [|m kept]; simpl.
  - now apply tile_map_wf_aerase.
  - apply tile_map_wf_aset; [discriminate|exact Hwf].
Qed.

Lemma visit_neighbors_locs_wf (cid : LegalizationClusterId)
    (seed : t_physical_tile_loc) (offsets : list (Z * Z)) :
  forall s : NbState,
    tile_map_wf (snd (fst s)) ->
    tile_map_wf (snd (fst (visit_neighbors cid seed offsets s))).
Proof.
  induction offsets as [|[dx dy] rest IH]; intros s Hwf; simpl; [exact Hwf|].
  destruct (negb (acount tile_loc_eqb _ (snd (fst s)))); [now apply IH|].
  destruct (negb (has_empty_primitive _)).
  - now apply try_cluster_tile_locs_wf.
  - apply IH. now apply try_cluster_tile_locs_wf.
Qed.

Lemma requeue_molecules_locs_wf (mols : list PackMoleculeId)
    (seed : t_physical_tile_loc) :
  forall ub locs cm,
    tile_map_wf locs ->
    tile_map_wf (snd (fst (requeue_molecules mols seed ub locs cm))).
Proof.
  induction mols as [|m mols IH]; intros ub locs cm Hwf; simpl; [exact Hwf|].
  apply IH. now apply tile_map_wf_apush.
Qed.

(** One seed: at most one cluster is queued, under the tile of the seed. *)
Lemma neighbor_seed_frame (strategy : ClusterLegalizationStrategy)
    (radius : Z) (entry : PackMoleculeId * t_physical_tile_loc)
    (sc sc' : PackState CL * list PackMoleculeId) :
  neighbor_seed arch nl strategy radius entry sc = Ok sc' ->
  cluster_ids_to_check (fst sc') = cluster_ids_to_check (fst sc)
  /\ cluster_created_mid_first_pass (fst sc')
     = cluster_created_mid_first_pass (fst sc)
  /\ (exists recorded,
        cluster_id_to_loc_unplaced (fst sc')
        = push_all recorded (cluster_id_to_loc_unplaced (fst sc))
        /\ (recorded = [] \/ exists cid, recorded = [(snd entry, cid)]))
  /\ (tile_map_wf (unclustered_block_locs (fst sc)) ->
      tile_map_wf (unclustered_block_locs (fst sc'))).
Proof.
  unfold neighbor_seed. destruct sc as [st cm], entry as [mol seed].
  intros Hrun.
  destruct (mol_mem mol cm).
  { inversion Hrun; subst. simpl. split; [reflexivity|].
    split; [reflexivity|]. split; [exists []; auto|auto]. }
  bind_ok Hrun. destruct a as [cid L1].
  pose proof (fun Hwf =>
                visit_neighbors_locs_wf cid seed (neighbor_offsets radius)
                  (try_cluster_tile cid seed
                     (L1, unclustered_block_locs st, mol_insert mol cm))
                  (try_cluster_tile_locs_wf cid seed
                     (L1, unclustered_block_locs st, mol_insert mol cm) Hwf))
    as Hlocs.
  destruct (visit_neighbors _ _ _ _) as [[L3 locs3] cm3].
  simpl in Hlocs.
  destruct (strategy_is_full strategy).
  { inversion Hrun; subst. simpl. split; [reflexivity|].
    split; [reflexivity|]. split; [|exact Hlocs].
    exists [(seed, cid)]. split; [reflexivity|eauto]. }
  destruct (check_cluster_legality cid L3).
  { inversion Hrun; subst. simpl. split; [reflexivity|].
    split; [reflexivity|]. split; [|exact Hlocs].
    exists [(seed, cid)]. split; [reflexivity|eauto]. }
  pose proof (fun Hwf =>
                requeue_molecules_locs_wf (get_cluster_molecules cid L3) seed
                  (unclustered_blocks
                     (set_unclustered (unclustered_blocks st) locs3 st))
                  locs3 cm3 (Hlocs Hwf)) as Hre.
  destruct (requeue_molecules _ _ _ _ _) as [[ub locs] cm'].
  inversion Hrun; subst. simpl in *. split; [reflexivity|].
  split; [reflexivity|]. split; [exists []; auto|exact Hre].
Qed.

Lemma neighbor_seeds_frame (strategy : ClusterLegalizationStrategy)
    (radius : Z) (entries : list (PackMoleculeId * t_physical_tile_loc)) :
  forall sc sc' : PackState CL * list PackMoleculeId,
    neighbor_seeds arch nl strategy radius entries sc = Ok sc' ->
    cluster_ids_to_check (fst sc') = cluster_ids_to_check (fst sc)
    /\ cluster_created_mid_first_pass (fst sc')
       = cluster_created_mid_first_pass (fst sc)
    /\ (exists recorded,
          cluster_id_to_loc_unplaced (fst sc')
          = push_all recorded (cluster_id_to_loc_unplaced (fst sc))
          /\ Forall (fun r => exists mol, In (mol, fst r) entries) recorded
          /\ (List.length recorded <= List.length entries)%nat)
    /\ (tile_map_wf (unclustered_block_locs (fst sc)) ->
        tile_map_wf (unclustered_block_locs (fst sc'))).
Proof.
  induction entries as [|e rest IH]; intros sc sc' Hrun; simpl in Hrun.
  - inversion Hrun; subst. split; [reflexivity|]. split; [reflexivity|].
    split; [|auto]. exists []. split; [reflexivity|]. split; [constructor|].
    reflexivity.
  - bind_ok Hrun.
    destruct (neighbor_seed_frame _ _ _ _ _ E)
      as (C1 & M1 & (r1 & U1 & Hr1) & W1).
    destruct (IH _ _ Hrun) as (C2 & M2 & (r2 & U2 & F2 & Len2) & W2).
    split; [congruence|]. split; [congruence|]. split; [|auto].
    exists (r1 ++ r2). split; [rewrite push_all_app, <- U1; exact U2|].
    split.
    + apply Forall_app. split.
      * destruct Hr1 as [->|[cid ->]]; [constructor|].
        constructor; [|constructor]. exists (fst e). simpl. left.
        destruct e; reflexivity.
      * eapply Forall_impl; [|exact F2]. intros r [mol Hin].
        exists mol. simpl. auto.
    + rewrite length_app. simpl.
      destruct Hr1 as [->|[cid ->]]; simpl; lia.
Qed.

(** X11.  A neighbor pass that ends without a fatal error binds no
    cluster to a site: the table of placed clusters and the clusters to
    check are as before.  Every cluster it keeps is queued in the map of
    unplaced clusters under the tile of a block that was unclustered when
    the pass began, at most one cluster per such block; and both maps
    from tiles to vectors keep one entry per tile and no empty vector. *)
Theorem neighbor_pass_queues_at_seed_tiles
    (strategy : ClusterLegalizationStrategy) (radius : Z)
    (st st' : PackState CL) :
  neighbor_cluster_pass arch nl strategy radius st = Ok st' ->
  loc_to_cluster_id_placed st' = loc_to_cluster_id_placed st
  /\ cluster_ids_to_check st' = cluster_ids_to_check st
  /\ (exists recorded,
        cluster_id_to_loc_unplaced st'
        = push_all recorded (cluster_id_to_loc_unplaced st)
        /\ Forall (fun r => exists mol,
                              In (mol, fst r) (unclustered_blocks st))
                  recorded
        /\ (List.length recorded <= List.length (unclustered_blocks st))%nat)
  /\ (tile_map_wf (cluster_id_to_loc_unplaced st) ->
      tile_map_wf (cluster_id_to_loc_unplaced st'))
  /\ (tile_map_wf (unclustered_block_locs st) ->
      tile_map_wf (unclustered_block_locs st')).
Proof.
  intros Hrun.
  pose proof (neighbor_cluster_pass_table _ _ _ _ _ _ Hrun) as Htbl.
  unfold neighbor_cluster_pass in Hrun. bind_ok Hrun.
  destruct a as [st1 cm]. inversion Hrun; subst. clear Hrun.
  destruct (neighbor_seeds_frame _ _ _ _ _ E)
    as (C & M & (recorded & U & F & Len) & W).
  simpl in *.
  split; [exact Htbl|]. split; [exact C|].
  split; [exists recorded; auto|].
  split; [|exact W].
  intros Hwf. rewrite U. now apply tile_map_wf_push_all.
Qed.
End NeighborFrame.

(** One unclustered molecule at the origin, under the strategy FULL. *)
Lemma neighbor_pass_queues_at_seed_tiles_witness :
  exists st',
    neighbor_cluster_pass
      (H := SpecOracle.oracle (Fixture.rules (fun _ => true)))
      Fixture.arch (Fixture.netlist [0%nat]) FULL NEIGHBOR_SEARCH_RADIUS
      (mk_pack (SpecOracle.empty FULL) [] [] []
               [(0%nat, Fixture.origin)] [(Fixture.origin, [0%nat])] []
               0%nat) = Ok st'
    /\ loc_to_cluster_id_placed st' = [].
Proof.
  destruct (neighbor_cluster_pass
              (H := SpecOracle.oracle (Fixture.rules (fun _ => true)))
              Fixture.arch (Fixture.netlist [0%nat]) FULL
              NEIGHBOR_SEARCH_RADIUS
              (mk_pack (SpecOracle.empty FULL) [] [] []
                       [(0%nat, Fixture.origin)] [(Fixture.origin, [0%nat])]
                       [] 0%nat)) as [st'|e] eqn:E.
  - exists st'. split; [reflexivity|].
    exact (proj1 (neighbor_pass_queues_at_seed_tiles
                    (H := SpecOracle.oracle (Fixture.rules (fun _ => true)))
                    Fixture.arch (Fixture.netlist [0%nat]) FULL
                    NEIGHBOR_SEARCH_RADIUS _ st' E)).
  - vm_compute in E. discriminate E.
Defined.

(* ================================================================= *)
(** ** The attempts of do_clustering, for every legalizer *)

Lemma two_tier_log_app (l1 l2 : list Attempt) :
  two_tier_log l1 -> two_tier_log l2 -> two_tier_log (l1 ++ l2).
Proof.
  induction 1; intros H2; simpl; [exact H2| |]; constructor; auto.
Qed.

Lemma legal_attempts_app (l1 l2 : list Attempt) :
  legal_attempts (l1 ++ l2) = (legal_attempts l1 + legal_attempts l2)%nat.
Proof. unfold legal_attempts. now rewrite filter_app, length_app. Qed.

Section GreedyAttempts.
Context {CL : Type} `{ClusterLegalizer CL}.
Variable arch : Arch.
Variable nl : Netlist.
Variable SeedSelector : Type.
Variable get_next_seed :
    SeedSelector -> CL -> option PackMoleculeId * SeedSelector.
Variable Candidates : Type.
Variable get_molecule_for_cluster :
    LegalizationClusterId -> CL -> Candidates ->
    option PackMoleculeId * Candidates.
Variable max_num_repeated_molecules : nat.
Variable candidate_budget : nat.

Abbreviation GS := (GreedyState (CL := CL) SeedSelector Candidates).
Abbreviation attempt_any :=
  (attempt arch nl SeedSelector get_next_seed Candidates
           get_molecule_for_cluster max_num_repeated_molecules
           candidate_budget).
Abbreviation seed_loop_any :=
  (seed_loop arch nl SeedSelector get_next_seed Candidates
             get_molecule_for_cluster max_num_repeated_molecules
             candidate_budget).

Lemma attempt_outcome (strategy : ClusterLegalizationStrategy)
    (seed : PackMoleculeId) (st : GS) :
  match attempt_any strategy seed st with
  | Ok (legal, next, st1) =>
      (exists id,
         g_attempts st1 = g_attempts st ++ [mk_attempt seed strategy id legal])
      /\ (legal = true -> total_clb_num st1 = total_clb_num st + 1)
      /\ (legal = false ->
          strategy = SKIP_INTRA_LB_ROUTE
          /\ next = Some seed
          /\ total_clb_num st1 = total_clb_num st)
  | Fatal e => e = UnableToCreateCluster \/ exists msg, e = AssertionFailed msg
  end.
Proof.
  unfold attempt, start_new_cluster_util, bind.
  destruct (create_new_cluster arch nl seed
              (set_legalization_strategy strategy (g_cl st)))
    as [[cid L2]|e] eqn:Hc.
  2:{ eapply create_new_cluster_fatal; eauto. }
  destruct (get_molecule_for_cluster cid L2 (g_candidates st))
    as [next_molecule cand1].
  destruct (fill_loop _ _ _ _ _ _ _ _ _) as [L3 cand2].
  destruct (if strategy_is_full strategy then true
            else check_cluster_legality cid L3) eqn:Hl.
  - destruct (get_next_seed (g_selector st) L3) as [istart' sel'].
    cbn [g_attempts total_clb_num].
    split; [eauto|]. split; [reflexivity|discriminate].
  - cbn [g_attempts total_clb_num].
    split; [eauto|]. split; [discriminate|]. intros _.
    split; [destruct strategy; [reflexivity|discriminate]|].
    split; [reflexivity|lia].
Qed.

Lemma cluster_seed_outcome (seed : PackMoleculeId) (st : GS) :
  match cluster_seed arch nl SeedSelector get_next_seed Candidates
          get_molecule_for_cluster max_num_repeated_molecules
          candidate_budget seed st with
  | Ok (next, st') =>
      exists log,
        g_attempts st' = g_attempts st ++ log
        /\ two_tier_log log
        /\ legal_attempts log = 1%nat
        /\ Forall (fun a => at_seed a = seed) log
        /\ total_clb_num st' = total_clb_num st + 1
  | Fatal e => e = UnableToCreateCluster \/ exists msg, e = AssertionFailed msg
  end.
Proof.
  unfold cluster_seed, legalization_strategies. cbn [strategy_loop].
  unfold bind.
  pose proof (attempt_outcome SKIP_INTRA_LB_ROUTE seed st) as H1.
  destruct (attempt_any SKIP_INTRA_LB_ROUTE seed st)
    as [[[legal nxt] st1]|e]; cbv beta iota; [|exact H1].
  destruct H1 as ((id & Hlog) & Hlegal & Hillegal).
  destruct legal; cbv beta iota.
  - exists [mk_attempt seed SKIP_INTRA_LB_ROUTE id true].
    split; [exact Hlog|]. split; [repeat constructor|].
    split; [reflexivity|]. split; [repeat constructor|auto].
  - destruct (Hillegal eq_refl) as (_ & _ & Htot).
    pose proof (attempt_outcome FULL seed st1) as H2.
    destruct (attempt_any FULL seed st1) as [[[legal2 nxt2] st2]|e];
      cbv beta iota; [|exact H2].
    destruct H2 as ((id2 & Hlog2) & Hlegal2 & Hillegal2).
    destruct legal2; [|destruct (Hillegal2 eq_refl); discriminate].
    cbv beta iota.
    exists [mk_attempt seed SKIP_INTRA_LB_ROUTE id false;
            mk_attempt seed FULL id2 true].
    split; [rewrite Hlog2, Hlog, <- app_assoc; reflexivity|].
    split; [repeat constructor|].
    split; [reflexivity|]. split; [repeat constructor|].
    rewrite (Hlegal2 eq_refl). lia.
Qed.

Lemma seed_loop_outcome (seeds : nat) :
  forall (istart : option PackMoleculeId) (st : GS),
    match seed_loop_any seeds istart st with
    | Some (Ok st') =>
        Z.of_nat (num_clusters (g_cl st')) = total_clb_num st'
        /\ exists log,
             g_attempts st' = g_attempts st ++ log
             /\ two_tier_log log
             /\ total_clb_num st'
                = total_clb_num st + Z.of_nat (legal_attempts log)
    | Some (Fatal e) =>
        e = UnableToCreateCluster \/ exists msg, e = AssertionFailed msg
    | None => True
    end.
Proof.
  induction seeds as [|seeds IH]; intros istart st; simpl.
  - destruct istart as [seed|]; [exact I|].
    destruct (Z.of_nat (num_clusters (g_cl st)) =? total_clb_num st) eqn:E;
      [|eauto].
    apply Z.eqb_eq in E. split; [exact E|].
    exists []. rewrite app_nil_r. split; [reflexivity|].
    split; [constructor|]. simpl. lia.
  - destruct istart as [seed|].
    + pose proof (cluster_seed_outcome seed st) as Hs.
      destruct (cluster_seed _ _ _ _ _ _ _ _ seed st) as [[next st1]|e];
        [|exact Hs].
      destruct Hs as (log1 & Hlog1 & Htt1 & Hn1 & _ & Htot1).
      specialize (IH next st1).
      destruct (seed_loop_any seeds next st1) as [[st'|e]|];
        [|exact IH|exact I].
      destruct IH as (Hnum & log2 & Hlog2 & Htt2 & Htot2).
      split; [exact Hnum|]. exists (log1 ++ log2).
      split; [rewrite Hlog2, Hlog1, <- app_assoc; reflexivity|].
      split; [now apply two_tier_log_app|].
      rewrite legal_attempts_app, Hn1. lia.
    + destruct (Z.of_nat (num_clusters (g_cl st)) =? total_clb_num st) eqn:E;
        [|eauto].
      apply Z.eqb_eq in E. split; [exact E|].
      exists []. rewrite app_nil_r. split; [reflexivity|].
      split; [constructor|]. simpl. lia.
Qed.

(** X12.  Whatever the cluster legalizer, the seed selector and the
    candidate source, a run of do_clustering that ends without a fatal
    error has made, for each seed in turn, either one attempt under
    SKIP_INTRA_LB_ROUTE that was legal, or an illegal one followed by one
    attempt under FULL from the same seed, counted as legal; its count of
    clusters is the number of legal attempts and is the number of
    clusters of the legalizer.  A run that ends with a fatal error ends
    with the error of the start of a cluster or with a failed
    assertion. *)
Theorem do_clustering_attempts_two_tiers (seeds : nat) (L : CL)
    (sel : SeedSelector) (cand : Candidates) :
  match do_clustering arch nl SeedSelector get_next_seed Candidates
          get_molecule_for_cluster max_num_repeated_molecules
          candidate_budget seeds L sel cand with
  | Some (Ok st') =>
      two_tier_log (g_attempts st')
      /\ total_clb_num st' = Z.of_nat (legal_attempts (g_attempts st'))
      /\ Z.of_nat (num_clusters (g_cl st')) = total_clb_num st'
  | Some (Fatal e) =>
      e = UnableToCreateCluster \/ exists msg, e = AssertionFailed msg
  | None => True
  end.
Proof.
  unfold do_clustering.
  destruct (get_next_seed sel L) as [istart sel'].
  pose proof (seed_loop_outcome seeds istart (mk_greedy L sel' cand [] 0 []))
    as Hloop.
  destruct (seed_loop_any seeds istart (mk_greedy L sel' cand [] 0 []))
    as [[st'|e]|]; [|exact Hloop|exact I].
  destruct Hloop as (Hnum & log & Hlog & Htt & Htot).
  simpl in Hlog, Htot. rewrite Hlog.
  split; [exact Htt|]. split; [exact Htot|exact Hnum].
Qed.
End GreedyAttempts.

(* ================================================================= *)
(** ** From the table of the packing passes to place_clusters *)

Section TableInRange.
Context {CL : Type} `{ClusterLegalizer CL}.
Variable arch : Arch.
Variable nl : Netlist.
Variable grid : DeviceGrid.

Lemma process_tiles_in_range
    (tile_blocks : list (t_physical_tile_loc * list APBlockId)) :
  forall st st' : PackState CL,
    process_tiles arch nl grid tile_blocks st = Ok st' ->
    table_in_range grid (loc_to_cluster_id_placed st) ->
    table_in_range grid (loc_to_cluster_id_placed st').
Proof.
  induction tile_blocks as [|[tile_loc blocks] rest IH];
    intros st st' Hrun Hin; simpl in Hrun.
  - inversion Hrun; subst. exact Hin.
  - bind_ok Hrun. apply (IH _ _ Hrun).
    destruct (process_tile_frame arch nl grid _ _ _ _ E) as (Htbl & _).
    intros b Hb. destruct (Htbl b Hb) as [Hold|(t & [<-|[]] & Ht & Hs & _)].
    + apply Hin, Hold.
    + unfold tile_of. rewrite Ht. exact Hs.
Qed.

Lemma place_remaining_clusters_in_range (L : CL) (tbl : PlacedTable)
    (unplaced : UnplacedMap) :
  table_in_range grid tbl ->
  table_in_range grid
    (rs_table (place_remaining_clusters arch grid L tbl unplaced)).
Proof.
  unfold place_remaining_clusters. intros Hin.
  set (st0 := mk_relo tbl unplaced []).
  assert (H0 : table_in_range grid (rs_table st0)) by exact Hin.
  clearbody st0. revert st0 H0.
  induction unplaced as [|[orig clusters] rest IH]; intros st0 H0; simpl;
    [assumption|].
  apply IH. clear IH. revert st0 H0.
  induction clusters as [|c cs IHc]; intros st0 H0; simpl; [assumption|].
  apply IHc. unfold place_one_cluster.
  destruct (search_site arch grid (rs_table st0) _ orig) as [loc|] eqn:Hs;
    simpl; [|assumption].
  destruct (search_site_sound arch grid _ _ _ _ Hs) as ((_ & _ & Hsub) & _).
  intros b [<-|Hb]; [exact Hsub|auto].
Qed.

Lemma pack_recontruction_pass_in_range (ext_inps : PackMoleculeId -> Z)
    (p_placement : PartialPlacement) (st0 st : PackState CL)
    (failed : list PlaceFailure) :
  pack_recontruction_pass arch nl grid ext_inps p_placement st0
  = Ok (st, failed) ->
  table_in_range grid (loc_to_cluster_id_placed st0) ->
  table_in_range grid (loc_to_cluster_id_placed st).
Proof.
  unfold pack_recontruction_pass. intros Hrun Hin.
  bind_ok Hrun. apply process_tiles_in_range in E; [|exact Hin].
  bind_ok Hrun. apply neighbor_cluster_pass_table in E0.
  bind_ok Hrun. apply neighbor_cluster_pass_table in E1. simpl in E1.
  bind_ok Hrun. unfold check_all_placed in E2.
  destruct (rs_unplaced _) eqn:Hu; [|discriminate].
  inversion E2; subst. inversion Hrun; subst. simpl.
  apply place_remaining_clusters_in_range. rewrite E1, E0. exact E.
Qed.
End TableInRange.

Section PlaceFromTable.
Context {R : Type} `{BlkLocRegistry R}.
Variable grid : DeviceGrid.
Variable place_macros_ : PlaceMacros.
Variable floorplanning_ctx : Floorplanning.
Variable block_type_of : ClusterBlockId -> t_logical_block_type_ptr.
Variable pad_loc_type : e_pad_loc_type.
Variable device_partition_region : PartitionRegion.

Lemma place_cluster_reconstruction_in_range (clb : ClusterBlockId)
    (loc : t_pl_loc) (reg : R) :
  0 <= pl_sub_tile loc < capacity (get_physical_type grid (tile_of loc)) ->
  exists ok reg',
    place_cluster_reconstruction grid place_macros_ floorplanning_ctx clb
      (mk_tile_loc (pl_x loc) (pl_y loc) (pl_layer loc)) (pl_sub_tile loc) reg
    = Ok (ok, reg').
Proof.
  intros Hs. unfold place_cluster_reconstruction.
  destruct (is_block_placed clb reg); [eauto|].
  destruct (Nat.eqb (num_sub_tiles _) 0); [eauto|].
  unfold tile_of in Hs.
  replace ((pl_sub_tile loc >=? 0)
           && (pl_sub_tile loc
               <? capacity
                    (get_physical_type grid
                       (mk_tile_loc (pl_x loc) (pl_y loc) (pl_layer loc)))))
    with true
    by (symmetry; apply andb_true_iff; split;
        [apply Z.geb_le|apply Z.ltb_lt]; lia).
  cbn [negb].
  destruct (is_cluster_constrained floorplanning_ctx clb && _); [eauto|].
  destruct (try_place_macro _ _ reg) as [ok reg']. eauto.
Qed.

Lemma place_at_determined_locations_in_range
    (placed : list (t_pl_loc * ClusterBlockId)) :
  (forall b, In b placed ->
             0 <= pl_sub_tile (fst b)
               < capacity (get_physical_type grid (tile_of (fst b)))) ->
  forall reg unplaced_clusters,
  exists reg' unplaced_clusters',
    place_at_determined_locations grid place_macros_ floorplanning_ctx
      placed reg unplaced_clusters
    = Ok (reg', unplaced_clusters').
Proof.
  induction placed as [|[loc clb] rest IH]; intros Hin reg unplaced; simpl.
  - eauto.
  - destruct (place_cluster_reconstruction_in_range clb loc reg
                (Hin (loc, clb) (or_introl eq_refl))) as (ok & reg' & ->).
    cbn [bind]. apply IH. intros b Hb. apply Hin. simpl. auto.
Qed.

Lemma place_exhaustively_outcome (clusters : list ClusterBlockId) :
  forall reg,
    (exists reg',
       place_exhaustively place_macros_ floorplanning_ctx block_type_of
         pad_loc_type device_partition_region clusters reg = Ok reg')
    \/ place_exhaustively place_macros_ floorplanning_ctx block_type_of
         pad_loc_type device_partition_region clusters reg
       = Fatal UnableToFindValidPlace.
Proof.
  induction clusters as [|c rest IH]; intros reg; simpl; [eauto|].
  destruct (exhaustively_place_cluster _ _ _ _ _ c reg) as [[|] reg'];
    [apply IH|auto].
Qed.

Lemma place_clusters_in_range (placed : list (t_pl_loc * ClusterBlockId))
    (reg : R) :
  (forall b, In b placed ->
             0 <= pl_sub_tile (fst b)
               < capacity (get_physical_type grid (tile_of (fst b)))) ->
  (exists reg',
     place_clusters grid place_macros_ floorplanning_ctx block_type_of
       pad_loc_type device_partition_region placed reg = Ok reg')
  \/ place_clusters grid place_macros_ floorplanning_ctx block_type_of
       pad_loc_type device_partition_region placed reg
     = Fatal UnableToFindValidPlace.
Proof.
  intros Hin. unfold place_clusters.
  destruct (place_at_determined_locations_in_range placed Hin reg [])
    as (reg' & unplaced & ->).
  cbn [bind]. apply place_exhaustively_outcome.
Qed.
End PlaceFromTable.

(** X13.  The table that pack_recontruction_pass leaves never trips the
    assertion on the sub-tile in place_cluster_reconstruction: when the
    pass starts from a table whose bindings name sub-tiles that their
    tiles have and ends without a fatal error, every binding of its table
    does so too, and place_clusters on this table, for every registry and
    every numbering of the clusters, either places every cluster or
    raises the fatal error that no valid place was found. *)
Theorem packed_table_never_trips_sub_tile_assertion
    {CL : Type} `{ClusterLegalizer CL} {R : Type} `{BlkLocRegistry R}
    (arch : Arch) (nl : Netlist) (grid : DeviceGrid)
    (ext_inps : PackMoleculeId -> Z) (p_placement : PartialPlacement)
    (st0 st : PackState CL) (failed : list PlaceFailure)
    (place_macros_ : PlaceMacros) (floorplanning_ctx : Floorplanning)
    (block_type_of : ClusterBlockId -> t_logical_block_type_ptr)
    (pad_loc_type : e_pad_loc_type)
    (device_partition_region : PartitionRegion)
    (legalization_id_to_cluster_id : LegalizationClusterId -> ClusterBlockId)
    (reg : R) :
  pack_recontruction_pass arch nl grid ext_inps p_placement st0
  = Ok (st, failed) ->
  table_in_range grid (loc_to_cluster_id_placed st0) ->
  table_in_range grid (loc_to_cluster_id_placed st)
  /\ ((exists reg',
         place_clusters grid place_macros_ floorplanning_ctx block_type_of
           pad_loc_type device_partition_region
           (clusters_of_table legalization_id_to_cluster_id
                              (loc_to_cluster_id_placed st)) reg
         = Ok reg')
      \/ place_clusters grid place_macros_ floorplanning_ctx block_type_of
           pad_loc_type device_partition_region
           (clusters_of_table legalization_id_to_cluster_id
                              (loc_to_cluster_id_placed st)) reg
         = Fatal UnableToFindValidPlace).
Proof.
  intros Hrun Hin.
  pose proof (pack_recontruction_pass_in_range _ _ _ _ _ _ _ _ Hrun Hin)
    as Hout.
  split; [exact Hout|].
  apply place_clusters_in_range.
  intros b Hb. unfold clusters_of_table in Hb.
  apply in_map_iff in Hb as (b0 & <- & Hb0). simpl. apply Hout, Hb0.
Qed.

(** Two molecules hinted to the origin of a 2x2 device, then the placer
    on an empty registry. *)
Lemma packed_table_never_trips_sub_tile_assertion_witness :
  exists st failed,
    pack_recontruction_pass
      (H := SpecOracle.oracle (Fixture.rules (fun _ => true)))
      Fixture.arch (Fixture.netlist [0%nat; 1%nat]) (Fixture.grid 2 2)
      (fun _ => 0) Fixture.at_origin
      (Fixture.empty_state SKIP_INTRA_LB_ROUTE) = Ok (st, failed)
    /\ table_in_range (Fixture.grid 2 2) (loc_to_cluster_id_placed st).
Proof.
  destruct (pack_recontruction_pass
              (H := SpecOracle.oracle (Fixture.rules (fun _ => true)))
              Fixture.arch (Fixture.netlist [0%nat; 1%nat]) (Fixture.grid 2 2)
              (fun _ => 0) Fixture.at_origin
              (Fixture.empty_state SKIP_INTRA_LB_ROUTE))
    as [[st failed]|e] eqn:E.
  - exists st, failed. split; [reflexivity|].
    refine (proj1 (packed_table_never_trips_sub_tile_assertion
                     (H := SpecOracle.oracle (Fixture.rules (fun _ => true)))
                     (H0 := SimpleRegistry.registry (Fixture.grid 2 2))
                     Fixture.arch (Fixture.netlist [0%nat; 1%nat])
                     (Fixture.grid 2 2) (fun _ => 0) Fixture.at_origin
                     (Fixture.empty_state SKIP_INTRA_LB_ROUTE) st failed
                     Fixture.no_macros Fixture.floorplan (fun _ => 1%nat)
                     PAD_FREE [] (fun id => id) [] E _)).
    intros b [].
  - vm_compute in E. discriminate E.
Defined.
